(** * monitor-server: the script executor (utils/executor.js)

    A shallow embedding of the two cooperating parts of the executor:

    - [Queue]: the admission queue ([enqueue], [processQueue] and the
      completion callback registered with [finally]);
    - [Runner]: the process runner ([runScript] and the handlers it
      registers on the child process and on its kill timer).

    JavaScript runs these functions to completion on one event loop, so
    every function below is a total function on an explicit state, and the
    environment (promises settling, child-process events, timers) is a list
    of events applied one after the other. *)

From Stdlib Require Import ZArith Lia Ascii String.
From stdpp Require Import gmap strings list.

(** ** Completion of a call: it returns a value or it throws. *)

Inductive completion (A : Type) : Type :=
  | Normal (a : A)
  | Throw.
Arguments Normal {A} a.
Arguments Throw {A}.

(** * The admission queue *)

Module Queue.

Local Open Scope Z_scope.

(** [const MAX_CONCURRENT = 1; const MAX_QUEUE_SIZE = 20;] The two limits
    are kept as a record so that the scenarios of the specification, which
    use other values, run on the same code. *)
Record config : Type := {
  MAX_CONCURRENT : Z;
  MAX_QUEUE_SIZE : Z
}.

Definition executor_config : config :=
  {| MAX_CONCURRENT := 1; MAX_QUEUE_SIZE := 20 |}.

(** What the queue observes when it evaluates [jobFunc().finally(cb)]:
    the call returns a promise, on which [cb] is registered, or the
    expression completes abruptly (the function throws before returning,
    or what it returns has no [finally]).  A unit of work is a function, so
    it is never falsy: in [processQueue] the test [!jobFunc] is true
    exactly when [shift] found the array empty.  A unit of work does not
    call back into the queue while it is being started. *)
Inductive behaviour : Type :=
  | ReturnsPromise
  | ThrowsSync.

Record job : Type := {
  job_id : nat;
  job_call : behaviour
}.

Inductive outcome : Type :=
  | Fulfilled
  | Rejected.

(** [running] and [queue] are the module variables of the source.  The
    other three fields are history variables, never read by the code:
    [admitted] lists the units pushed on the queue, [started] the units
    invoked, both in order, and [inflight] the units whose promise carries
    the completion callback and has not settled yet. *)
Record state : Type := {
  running : Z;
  queue : list job;
  admitted : list job;
  started : list job;
  inflight : list job
}.

Definition init : state :=
  {| running := 0; queue := []; admitted := []; started := []; inflight := [] |}.

(** [[
    function processQueue() {
        if (running >= MAX_CONCURRENT) return;
        const jobFunc = queue.shift();
        if (!jobFunc) return;
        running++;
        jobFunc().finally(() => { running--; processQueue(); });
    }
    ]]
    The promise returned by [finally] is dropped by the source, and so it
    is here. *)
Definition processQueue (cfg : config) (s : state) : state * completion unit :=
  if running s >=? MAX_CONCURRENT cfg then (s, Normal tt)
  else
    match queue s with
    | [] => (s, Normal tt)
    | jobFunc :: rest =>
        let s1 := {| running := running s + 1;
                     queue := rest;
                     admitted := admitted s;
                     started := started s ++ [jobFunc];
                     inflight := inflight s |} in
        match job_call jobFunc with
        | ReturnsPromise =>
            ({| running := running s1;
                queue := queue s1;
                admitted := admitted s1;
                started := started s1;
                inflight := inflight s1 ++ [jobFunc] |}, Normal tt)
        | ThrowsSync => (s1, Throw)
        end
    end.

(** [[
    function enqueue(jobFunc) {
        if (queue.length >= MAX_QUEUE_SIZE) return false;
        queue.push(jobFunc);
        processQueue();
        return true;
    }
    ]] *)
Definition push (jobFunc : job) (s : state) : state :=
  {| running := running s;
     queue := queue s ++ [jobFunc];
     admitted := admitted s ++ [jobFunc];
     started := started s;
     inflight := inflight s |}.

Definition enqueue (cfg : config) (jobFunc : job) (s : state)
  : state * completion bool :=
  if Z.of_nat (length (queue s)) >=? MAX_QUEUE_SIZE cfg then (s, Normal false)
  else
    match processQueue cfg (push jobFunc s) with
    | (s', Normal _) => (s', Normal true)
    | (s', Throw) => (s', Throw)
    end.

(** The callback given to [finally]: [() => { running--; processQueue(); }].
    It takes no argument: it cannot see how the promise settled. *)
Definition decrement (s : state) : state :=
  {| running := running s - 1;
     queue := queue s;
     admitted := admitted s;
     started := started s;
     inflight := inflight s |}.

Definition on_settled (cfg : config) (s : state) : state * completion unit :=
  processQueue cfg (decrement s).

(** The [i]-th promise in flight settles: it leaves [inflight] and its
    callback runs.  [None] when there is no such promise. *)
Definition forget (i : nat) (s : state) : state :=
  {| running := running s;
     queue := queue s;
     admitted := admitted s;
     started := started s;
     inflight := delete i (inflight s) |}.

Definition settle (cfg : config) (i : nat) (o : outcome) (s : state)
  : option (state * completion unit) :=
  match inflight s !! i with
  | None => None
  | Some _ => Some (on_settled cfg (forget i s))
  end.

(** The queue as a transition system. *)
Inductive event : Type :=
  | Enqueue (jobFunc : job)
  | Settle (i : nat) (o : outcome).

Definition step (cfg : config) (e : event) (s : state) : option state :=
  match e with
  | Enqueue jobFunc => Some (fst (enqueue cfg jobFunc s))
  | Settle i o => fst <$> settle cfg i o s
  end.

Fixpoint run (cfg : config) (evs : list event) (s : state) : option state :=
  match evs with
  | [] => Some s
  | e :: evs' =>
      match step cfg e s with
      | Some s' => run cfg evs' s'
      | None => None
      end
  end.

(** What every call of [enqueue] in a run returned, in order. *)
Fixpoint answers (cfg : config) (evs : list event) (s : state)
  : list (completion bool) :=
  match evs with
  | [] => []
  | Enqueue jobFunc :: evs' =>
      let r := enqueue cfg jobFunc s in snd r :: answers cfg evs' (fst r)
  | e :: evs' =>
      match step cfg e s with
      | Some s' => answers cfg evs' s'
      | None => []
      end
  end.

(** The units handed to [enqueue] in a run, in order. *)
Definition submitted (evs : list event) : list job :=
  omap (fun e => match e with Enqueue j => Some j | Settle _ _ => None end) evs.

(** Every promise in flight settles, the oldest first. *)
Fixpoint drain (cfg : config) (fuel : nat) (s : state) : state :=
  match fuel with
  | O => s
  | S fuel' =>
      match step cfg (Settle 0 Fulfilled) s with
      | Some s' => drain cfg fuel' s'
      | None => s
      end
  end.

Definition returns_promise (j : job) : bool :=
  match job_call j with ReturnsPromise => true | ThrowsSync => false end.

(** Slots taken by units that threw while they were being started. *)
Definition leaked (s : state) : Z :=
  Z.of_nat (length (filter (fun j => returns_promise j = false) (started s))).

(** The invariants of the queue. *)
Definition bounded (cfg : config) (s : state) : Prop :=
  running s <= MAX_CONCURRENT cfg /\
  Z.of_nat (length (queue s)) <= MAX_QUEUE_SIZE cfg.

Definition work_conserving (cfg : config) (s : state) : Prop :=
  running s < MAX_CONCURRENT cfg -> queue s = [].

Definition fifo (s : state) : Prop :=
  started s ++ queue s = admitted s.

Definition accounted (s : state) : Prop :=
  running s = Z.of_nat (length (inflight s)) + leaked s.

(** [running] never passes the limit it is compared with. *)
Definition capped (cfg : config) (s : state) : Prop :=
  running s <= Z.max 0 (MAX_CONCURRENT cfg).

Definition sound (cfg : config) (s : state) : Prop :=
  capped cfg s /\ work_conserving cfg s /\ fifo s /\ accounted s.

(** Every unit admitted so far returns a promise when it is called. *)
Definition async_only (s : state) : Prop :=
  Forall (fun j => returns_promise j = true) (admitted s).

(** No call of [enqueue] in the run finds the pending sequence full. *)
Fixpoint never_at_capacity (cfg : config) (evs : list event) (s : state)
  : Prop :=
  match evs with
  | [] => True
  | e :: evs' =>
      match e with
      | Enqueue _ => Z.of_nat (length (queue s)) < MAX_QUEUE_SIZE cfg
      | Settle _ _ => True
      end /\
      match step cfg e s with
      | Some s' => never_at_capacity cfg evs' s'
      | None => True
      end
  end.

(** A unit of work that returns a promise, as an [async] function does. *)
Definition unit_of_work (n : nat) : job :=
  {| job_id := n; job_call := ReturnsPromise |}.

(** A unit of work that throws when it is called. *)
Definition faulty_unit (n : nat) : job :=
  {| job_id := n; job_call := ThrowsSync |}.

(** What [running] counts beyond the promises in flight. *)
Definition unaccounted (s : state) : Z :=
  running s - Z.of_nat (length (inflight s)).

(** The four ways through [processQueue]. *)
Inductive drain_step (cfg : config) (s : state)
  : state * completion unit -> Prop :=
  | drain_busy :
      MAX_CONCURRENT cfg <= running s ->
      drain_step cfg s (s, Normal tt)
  | drain_empty :
      running s < MAX_CONCURRENT cfg -> queue s = [] ->
      drain_step cfg s (s, Normal tt)
  | drain_start jobFunc rest :
      running s < MAX_CONCURRENT cfg -> queue s = jobFunc :: rest ->
      returns_promise jobFunc = true ->
      drain_step cfg s
        ({| running := running s + 1; queue := rest;
            admitted := admitted s;
            started := started s ++ [jobFunc];
            inflight := inflight s ++ [jobFunc] |}, Normal tt)
  | drain_throw jobFunc rest :
      running s < MAX_CONCURRENT cfg -> queue s = jobFunc :: rest ->
      returns_promise jobFunc = false ->
      drain_step cfg s
        ({| running := running s + 1; queue := rest;
            admitted := admitted s;
            started := started s ++ [jobFunc];
            inflight := inflight s |}, Throw).

(** [jobFunc().finally(cb)] is itself a promise, which the source drops.  It
    settles once [cb] has run: as the promise of the unit did when [cb]
    returns normally, and rejected with what [cb] threw when it throws. *)
Definition finally_promise (o : outcome) (cb : completion unit) : outcome :=
  match cb with
  | Normal _ => o
  | Throw => Rejected
  end.

(** No handler is ever attached to that promise, so a rejection of it is
    left unhandled: the host reports it (the [unhandledRejection] event of
    the process, which by default ends the process).  [unhandled] lists the
    units whose dropped promise was rejected during a run, in order. *)
Fixpoint unhandled (cfg : config) (evs : list event) (s : state) : list job :=
  match evs with
  | [] => []
  | Enqueue jobFunc :: evs' => unhandled cfg evs' (fst (enqueue cfg jobFunc s))
  | Settle i o :: evs' =>
      match inflight s !! i, settle cfg i o s with
      | Some jobFunc, Some r =>
          match finally_promise o (snd r) with
          | Rejected => jobFunc :: unhandled cfg evs' (fst r)
          | Fulfilled => unhandled cfg evs' (fst r)
          end
      | _, _ => []
      end
  end.

End Queue.

(** * The process runner *)

Module Runner.

(** The calls of the logger are left out: they change nothing the executor
    reads.  Strings are sequences of code units; [length] counts them, as the
    [length] of a JavaScript string does. *)
Fixpoint string_take (n : nat) (s : string) : string :=
  match n, s with
  | S n', String c s' => String c (string_take n' s')
  | _, _ => EmptyString
  end.

Fixpoint string_drop (n : nat) (s : string) : string :=
  match n, s with
  | S n', String _ s' => string_drop n' s'
  | _, _ => s
  end.

(** [s.slice(start, stop)] for two indices that are not negative. *)
Definition slice (start stop : nat) (s : string) : string :=
  string_take (stop - start) (string_drop start s).

(** The literal [20000] of [stdout.slice(0, 20000)]. *)
Definition OUTPUT_LIMIT : Z := 20000.

Definition truncate (s : string) : string :=
  slice 0 (Z.to_nat OUTPUT_LIMIT) s.

(** [[
    const TIMEOUTS = {
        'airliquide.py': 3 * 60 * 1000,
        'nipongases.py': 3 * 60 * 1000,
        'airliquide_portugal.py': 1 * 60 * 1000
    };
    ]] *)
Definition TIMEOUTS : gmap string Z :=
  <["airliquide.py" := (3 * 60 * 1000)%Z]>
    (<["nipongases.py" := (3 * 60 * 1000)%Z]>
      (<["airliquide_portugal.py" := (1 * 60 * 1000)%Z]> ∅)).

(** [TIMEOUTS[scriptName] || 3 * 60 * 1000]: the default is taken when the
    table has no entry, and also for an entry that is [0]. *)
Definition timeout_of (scriptName : string) : Z :=
  match TIMEOUTS !! scriptName with
  | Some ms => if (ms =? 0)%Z then (3 * 60 * 1000)%Z else ms
  | None => (3 * 60 * 1000)%Z
  end.

(** [runningScripts] is a plain object literal: reading a key it does not
    own falls through to [Object.prototype], whose properties are all
    truthy.  [timeout_of] needs no such case: a name found there never
    gets past the first test of [runScript]. *)
Definition object_prototype_keys : list string :=
  ["constructor"; "__proto__"; "hasOwnProperty"; "isPrototypeOf";
   "propertyIsEnumerable"; "toLocaleString"; "toString"; "valueOf";
   "__defineGetter__"; "__defineSetter__"; "__lookupGetter__";
   "__lookupSetter__"].

Definition marked_running (runningScripts : gmap string bool)
    (scriptName : string) : bool :=
  match runningScripts !! scriptName with
  | Some flag => flag
  | None => bool_decide (scriptName ∈ object_prototype_keys)
  end.

Inductive error : Type :=
  | ScriptAlreadyRunning
  | UnsupportedExtension (ext : string)
  | SpawnThrew (err : string)
  | ChildError (err : string).

(** The object passed to [resolve]. [exitCode] is [null] when the child
    was ended by a signal. *)
Record result : Type := {
  jobId : string;
  script : string;
  exitCode : option Z;
  stdout : string;
  stderr : string
}.

(** A promise settles once: [resolve] and [reject] do nothing on a promise
    that is no longer pending. *)
Inductive promise : Type :=
  | Pending
  | Resolved (r : result)
  | RejectedWith (e : error).

Definition resolve (r : result) (p : promise) : promise :=
  match p with Pending => Resolved r | _ => p end.

Definition reject (e : error) (p : promise) : promise :=
  match p with Pending => RejectedWith e | _ => p end.

Inductive timer : Type :=
  | Armed (ms : Z)
  | Fired
  | Cleared.

Definition clearTimeout (t : timer) : timer :=
  match t with Armed _ => Cleared | _ => t end.

Inductive signal : Type := SIGTERM.

(** How far the listeners of a child have come: neither [error] nor
    [close] has been emitted; [error] has been emitted and [close] is
    still to come; or [close], the child's last event, has been
    emitted. *)
Inductive phase : Type :=
  | Running
  | Errored
  | Closed.

(** The child of [spawn('python', [scriptPath, ...args.map(String)])]. *)
Record child_process : Type := {
  spawnfile : string;
  spawnargs : list string;
  signals : list signal;
  listeners : phase
}.

(** A child is live until its first [error] or [close], and open until
    its [close]. *)
Definition live (c : child_process) : bool :=
  match listeners c with Running => true | _ => false end.

Definition open (c : child_process) : bool :=
  match listeners c with Closed => false | _ => true end.

Definition kill (sig : signal) (c : child_process) : child_process :=
  {| spawnfile := spawnfile c;
     spawnargs := spawnargs c;
     signals := signals c ++ [sig];
     listeners := listeners c |}.

Definition errored (c : child_process) : child_process :=
  {| spawnfile := spawnfile c;
     spawnargs := spawnargs c;
     signals := signals c;
     listeners := Errored |}.

Definition ended (c : child_process) : child_process :=
  {| spawnfile := spawnfile c;
     spawnargs := spawnargs c;
     signals := signals c;
     listeners := Closed |}.

(** One call of [runScript]: the variables of its closure and the promise
    it returned.  A call that is refused before [spawn] has no child and no
    timer. *)
Record invocation : Type := {
  inv_jobId : string;
  scriptName : string;
  child : option child_process;
  killTimer : option timer;
  stdout_buf : string;
  stderr_buf : string;
  returned : promise
}.

Record state : Type := {
  runningScripts : gmap string bool;
  invocations : list invocation
}.

Definition init : state :=
  {| runningScripts := ∅; invocations := [] |}.

Definition executing (inv : invocation) : bool :=
  match child inv with
  | Some c => live c
  | None => false
  end.

(** The child can still emit events: it has not emitted [close]. *)
Definition emitting (inv : invocation) : bool :=
  match child inv with
  | Some c => open c
  | None => false
  end.

Definition armed (inv : invocation) : bool :=
  match killTimer inv with
  | Some (Armed _) => true
  | _ => false
  end.

Definition refused (jobId scriptName : string) (e : error) : invocation :=
  {| inv_jobId := jobId;
     scriptName := scriptName;
     child := None;
     killTimer := None;
     stdout_buf := "";
     stderr_buf := "";
     returned := RejectedWith e |}.

(** The closure once the child is spawned, the timer set and the buffers
    empty. *)
Definition spawned (jobId scriptName scriptPath : string) (args : list string)
    (timeout : Z) : invocation :=
  {| inv_jobId := jobId;
     scriptName := scriptName;
     child := Some {| spawnfile := "python";
                      spawnargs := scriptPath :: args;
                      signals := [];
                      listeners := Running |};
     killTimer := Some (Armed timeout);
     stdout_buf := "";
     stderr_buf := "";
     returned := Pending |}.

Section RunScript.

(** [path.basename], [path.extname] and [String.prototype.toLowerCase]
    belong to the platform; the runner is parametric in them. *)
Variable basename : string -> string.
Variable extname : string -> string.
Variable toLowerCase : string -> string.

(** [spawn] may throw instead of returning a child, as it does for an
    argument that holds a null byte: [spawn_throws rank scriptPath args] is
    the message of what it throws at the call of [runScript] of that rank
    with these arguments, and [None] when it returns.  The exception
    leaves the executor of the promise, which rejects the promise with
    it; the flag set just before stays set, and there is neither child
    nor timer. *)
Variable spawn_throws : nat -> string -> list string -> option string.

(** The executor of the promise built by [runScript], up to the
    registration of the listeners.  The promise returned is the one of the
    invocation added at the end of [invocations]. *)
Definition runScript (scriptPath : string) (args : list string)
    (jobId : string) (st : state) : state :=
  let name := basename scriptPath in
  if marked_running (runningScripts st) name then
    {| runningScripts := runningScripts st;
       invocations :=
         invocations st ++ [refused jobId name ScriptAlreadyRunning] |}
  else
    let flagged := <[name := true]> (runningScripts st) in
    let ext := toLowerCase (extname scriptPath) in
    if bool_decide (ext ≠ ".py") then
      {| runningScripts := <[name := false]> flagged;
         invocations :=
           invocations st ++ [refused jobId name (UnsupportedExtension ext)] |}
    else
      let timeout := timeout_of name in
      match spawn_throws (length (invocations st)) scriptPath args with
      | Some err =>
          {| runningScripts := flagged;
             invocations :=
               invocations st ++ [refused jobId name (SpawnThrew err)] |}
      | None =>
          {| runningScripts := flagged;
             invocations :=
               invocations st ++
               [spawned jobId name scriptPath args timeout] |}
      end.

End RunScript.

(** [child.stdout.on('data', data => { stdout += data.toString(); })] *)
Definition on_stdout_data (data : string) (inv : invocation) : invocation :=
  {| inv_jobId := inv_jobId inv;
     scriptName := scriptName inv;
     child := child inv;
     killTimer := killTimer inv;
     stdout_buf := stdout_buf inv +:+ data;
     stderr_buf := stderr_buf inv;
     returned := returned inv |}.

(** [child.stderr.on('data', data => { stderr += data.toString(); })] *)
Definition on_stderr_data (data : string) (inv : invocation) : invocation :=
  {| inv_jobId := inv_jobId inv;
     scriptName := scriptName inv;
     child := child inv;
     killTimer := killTimer inv;
     stdout_buf := stdout_buf inv;
     stderr_buf := stderr_buf inv +:+ data;
     returned := returned inv |}.

(** The callback of [setTimeout]: [child.kill('SIGTERM')], then a log
    line.  It touches neither the promise nor [runningScripts]. *)
Definition on_timeout (inv : invocation) : invocation :=
  {| inv_jobId := inv_jobId inv;
     scriptName := scriptName inv;
     child := kill SIGTERM <$> child inv;
     killTimer := Some Fired;
     stdout_buf := stdout_buf inv;
     stderr_buf := stderr_buf inv;
     returned := returned inv |}.

(** [[
    child.on('close', code => {
        clearTimeout(killTimer);
        runningScripts[scriptName] = false;
        resolve({ jobId, script: scriptName, exitCode: code,
                  stdout: stdout.slice(0, 20000),
                  stderr: stderr.slice(0, 20000) });
    });
    ]] *)
Definition close_result (code : option Z) (inv : invocation) : result :=
  {| jobId := inv_jobId inv;
     script := scriptName inv;
     exitCode := code;
     stdout := truncate (stdout_buf inv);
     stderr := truncate (stderr_buf inv) |}.

Definition on_close (code : option Z) (inv : invocation) : invocation :=
  {| inv_jobId := inv_jobId inv;
     scriptName := scriptName inv;
     child := ended <$> child inv;
     killTimer := clearTimeout <$> killTimer inv;
     stdout_buf := stdout_buf inv;
     stderr_buf := stderr_buf inv;
     returned := resolve (close_result code inv) (returned inv) |}.

(** [[
    child.on('error', err => {
        clearTimeout(killTimer);
        runningScripts[scriptName] = false;
        reject(err);
    });
    ]] *)
Definition on_error (err : string) (inv : invocation) : invocation :=
  {| inv_jobId := inv_jobId inv;
     scriptName := scriptName inv;
     child := errored <$> child inv;
     killTimer := clearTimeout <$> killTimer inv;
     stdout_buf := stdout_buf inv;
     stderr_buf := stderr_buf inv;
     returned := reject (ChildError err) (returned inv) |}.

(** What the event loop delivers.  The listeners are not guarded: a child
    emits data and [error] for as long as it has not emitted [close],
    which is its last event.  [error] is emitted for a child that could
    not be started and for a signal that could not be delivered; [close]
    follows it when the streams of the child are closed, which may be
    after later calls of [runScript].  A timer fires while it is
    armed. *)
Inductive event : Type :=
  | Call (scriptPath : string) (args : list string) (jobId : string)
  | StdoutData (k : nat) (data : string)
  | StderrData (k : nat) (data : string)
  | TimerFires (k : nat)
  | Close (k : nat) (code : option Z)
  | Error (k : nat) (err : string).

Definition update (k : nat) (inv : invocation) (st : state) : state :=
  {| runningScripts := runningScripts st;
     invocations := <[k := inv]> (invocations st) |}.

Definition release (k : nat) (inv : invocation) (st : state) : state :=
  {| runningScripts := <[scriptName inv := false]> (runningScripts st);
     invocations := <[k := inv]> (invocations st) |}.

Section Step.

Variable basename : string -> string.
Variable extname : string -> string.
Variable toLowerCase : string -> string.
Variable spawn_throws : nat -> string -> list string -> option string.

Definition step (e : event) (st : state) : option state :=
  match e with
  | Call scriptPath args jobId =>
      Some (runScript basename extname toLowerCase spawn_throws
              scriptPath args jobId st)
  | StdoutData k data =>
      inv ← invocations st !! k;
      if emitting inv then Some (update k (on_stdout_data data inv) st)
      else None
  | StderrData k data =>
      inv ← invocations st !! k;
      if emitting inv then Some (update k (on_stderr_data data inv) st)
      else None
  | TimerFires k =>
      inv ← invocations st !! k;
      if armed inv then Some (update k (on_timeout inv) st) else None
  | Close k code =>
      inv ← invocations st !! k;
      if emitting inv then Some (release k (on_close code inv) st)
      else None
  | Error k err =>
      inv ← invocations st !! k;
      if emitting inv then Some (release k (on_error err inv) st)
      else None
  end.

Fixpoint run (evs : list event) (st : state) : option state :=
  match evs with
  | [] => Some st
  | e :: evs' =>
      match step e st with
      | Some st' => run evs' st'
      | None => None
      end
  end.

End Step.

(** What the flags are there for: no two calls for one program name have
    a live child, and a live child keeps the flag of its name set. *)
Definition exclusive (st : state) : Prop :=
  (forall k1 k2 inv1 inv2,
      invocations st !! k1 = Some inv1 ->
      invocations st !! k2 = Some inv2 ->
      executing inv1 = true -> executing inv2 = true ->
      scriptName inv1 = scriptName inv2 -> k1 = k2) /\
  (forall k inv,
      invocations st !! k = Some inv ->
      executing inv = true ->
      runningScripts st !! scriptName inv = Some true).

(** A set flag is never cleared when no call under its name has a child:
    no listener is there to clear it, and every call for the name is
    refused. *)
Definition stuck (name : string) (st : state) : Prop :=
  runningScripts st !! name = Some true /\
  forall k inv, invocations st !! k = Some inv -> is_Some (child inv) ->
    scriptName inv <> name.

(** A call whose child is live has a pending promise and a timer; when
    the child is not live, or there is none, the promise is settled and no
    timer is armed; a result is the one built by the [close] listener from
    the buffers, which no longer grow. *)
Definition coherent (inv : invocation) : Prop :=
  (executing inv = true ->
     returned inv = Pending /\ is_Some (killTimer inv)) /\
  (executing inv = false ->
     returned inv <> Pending /\ armed inv = false) /\
  (forall r, returned inv = Resolved r ->
     r = close_result (exitCode r) inv /\ emitting inv = false).

Definition healthy (st : state) : Prop :=
  Forall coherent (invocations st).

(** The job identifier and program name kept by every invocation. *)
Definition labels (st : state) : list (string * string) :=
  (fun inv => (inv_jobId inv, scriptName inv)) <$> invocations st.

(** The job identifier and the program path of every call of [runScript]
    in a list of events, in order. *)
Definition calls (evs : list event) : list (string * string) :=
  omap (fun e => match e with
                 | Call scriptPath _ jobId => Some (jobId, scriptPath)
                 | _ => None
                 end) evs.

(** A chunk of [n] characters. *)
Fixpoint flood (n : nat) : string :=
  match n with
  | O => EmptyString
  | S n' => String "x" (flood n')
  end.

End Runner.

(** * A model of [path.posix] and of ASCII lower-casing, to run examples *)

Module PosixPath.

Definition is_slash (c : ascii) : bool := bool_decide (c = "/"%char).
Definition is_dot (c : ascii) : bool := bool_decide (c = "."%char).

Fixpoint drop_while (p : ascii -> bool) (l : list ascii) : list ascii :=
  match l with
  | c :: l' => if p c then drop_while p l' else l
  | [] => []
  end.

Fixpoint take_until (p : ascii -> bool) (l : list ascii) : list ascii :=
  match l with
  | c :: l' => if p c then [] else c :: take_until p l'
  | [] => []
  end.

(** The last portion of the path, trailing separators ignored. *)
Definition basename (path : string) : string :=
  let backwards := drop_while is_slash (rev (list_ascii_of_string path)) in
  string_of_list_ascii (rev (take_until is_slash backwards)).

(** From the last dot of the last portion to its end; empty when there is
    no dot, when the only dot opens the portion, and for [".."]. *)
Definition extname (path : string) : string :=
  let base := basename path in
  let backwards := rev (list_ascii_of_string base) in
  let suffix := take_until is_dot backwards in
  match drop (length suffix) backwards with
  | [] => ""
  | _ :: [] => ""
  | _ :: _ :: _ =>
      if bool_decide (base = "..") then ""
      else string_of_list_ascii ("."%char :: rev suffix)
  end.

Definition lower (c : ascii) : ascii :=
  let n := nat_of_ascii c in
  if bool_decide (65 <= n <= 90)%nat then ascii_of_nat (n + 32) else c.

Fixpoint toLowerCase (s : string) : string :=
  match s with
  | EmptyString => EmptyString
  | String c s' => String (lower c) (toLowerCase s')
  end.

End PosixPath.



(** * A model of the validation of [child_process.spawn]

    [spawn] checks its arguments before it starts anything and throws for
    a file or an argument that holds a null byte.  Used for concrete
    runs. *)

Module ChildProcess.

Fixpoint has_null (text : string) : bool :=
  match text with
  | EmptyString => false
  | String c rest => Ascii.eqb c "000" || has_null rest
  end.

Definition spawn_throws (rank : nat) (scriptPath : string)
    (args : list string) : option string :=
  if existsb has_null (scriptPath :: args)
  then Some "ERR_INVALID_ARG_VALUE"
  else None.

(** A file name with a null byte in it. *)
Definition nul_name : string := String "a" (String "000" ".pdf").

End ChildProcess.

(** * What a run of the runner shows of each invocation *)

Module RunnerViews.

Import Runner.

(** What the child of invocation [k] wrote on its standard output during a
    list of events, chunk after chunk. *)
Fixpoint stdout_written (k : nat) (evs : list event) : string :=
  match evs with
  | [] => ""
  | StdoutData j data :: evs' =>
      if decide (j = k) then data +:+ stdout_written k evs'
      else stdout_written k evs'
  | _ :: evs' => stdout_written k evs'
  end.

Fixpoint stderr_written (k : nat) (evs : list event) : string :=
  match evs with
  | [] => ""
  | StderrData j data :: evs' =>
      if decide (j = k) then data +:+ stderr_written k evs'
      else stderr_written k evs'
  | _ :: evs' => stderr_written k evs'
  end.

(** The events whose listeners settle the promise of invocation [k]. *)
Definition ends (k : nat) (e : event) : bool :=
  match e with
  | Close j _ | Error j _ => bool_decide (j = k)
  | _ => false
  end.


Section Spawn.

Variable basename : string -> string.
Variable extname : string -> string.
Variable toLowerCase : string -> string.

(** A child is the interpreter run on a path with the extension [.py], and
    the invocation is filed under the base name of that path. *)
Definition python_child (inv : invocation) : Prop :=
  forall c, child inv = Some c ->
    spawnfile c = "python" /\
    exists scriptPath args,
      spawnargs c = scriptPath :: args /\
      toLowerCase (extname scriptPath) = ".py" /\
      scriptName inv = basename scriptPath.

End Spawn.

(** No key inherited from [Object.prototype] is ever written in
    [runningScripts], and no child runs under such a name. *)
Definition inherited_untouched (st : state) : Prop :=
  (forall name, name ∈ object_prototype_keys ->
     runningScripts st !! name = None) /\
  (forall k inv, invocations st !! k = Some inv -> is_Some (child inv) ->
     scriptName inv ∉ object_prototype_keys).

End RunnerViews.

(** * The history of processed files (utils/history.js) *)

Module History.

(** One line of the history.  [timestamp] is the text written by
    [toISOString]; [errorMessage] and [errorDetail] are a string or
    [null]. *)
Record entry : Type := {
  id : string;
  filename : string;
  cliente : string;
  status : string;
  timestamp : string;
  errorMessage : option string;
  errorDetail : option string;
  processedBy : string
}.

Record data : Type := {
  entries : list entry;
  lastCleanup : string
}.

(** The file [history.json], which only this module writes: it holds a
    value of the shape of [data], or it cannot be read or parsed ([None]).
    [initialData] is the one object of the module that [read] hands out
    when the file fails: what a caller does to it stays in it. *)
Record store : Type := {
  file : option data;
  initialData : data
}.

Definition boot (now : string) : store :=
  {| file := None;
     initialData := {| entries := []; lastCleanup := now |} |}.

(** Where the object returned by [read] comes from: parsed afresh from the
    file, or the shared [initialData]. *)
Inductive origin : Type :=
  | Parsed
  | Shared.

(** [[
    function read() {
        try { return JSON.parse(fs.readFileSync(HISTORY_FILE, 'utf8')); }
        catch { return initialData; }
    }
    ]] *)
Definition read (s : store) : data * origin :=
  match file s with
  | Some d => (d, Parsed)
  | None => (initialData s, Shared)
  end.

(** What an assignment to the object returned by [read] does to the
    store. *)
Definition assign (o : origin) (d : data) (s : store) : store :=
  match o with
  | Parsed => s
  | Shared => {| file := file s; initialData := d |}
  end.

(** What [fs.writeFileSync] did.  It opens the file with flag ['w'], which
    empties it, and then writes the text: it wrote the whole text; or it
    threw before the file was opened, and the file is as it was; or it threw
    after the open, and the file holds nothing or a beginning of the text,
    which [JSON.parse] refuses (the text of an object ends with its closing
    brace). *)
Inductive write_outcome : Type :=
  | Written
  | NotOpened
  | Truncated.

(** [[
    function write(data) {
        try { fs.writeFileSync(HISTORY_FILE, JSON.stringify(data, null, 2)); }
        catch {}
    }
    ]]
    [w] tells what the file system did with the write. *)
Definition write (d : data) (w : write_outcome) (s : store) : store :=
  match w with
  | Written => {| file := Some d; initialData := initialData s |}
  | NotOpened => s
  | Truncated => {| file := None; initialData := initialData s |}
  end.

(** The argument of [addEntry]; a field left out takes its default. *)
Record request : Type := {
  req_filename : string;
  req_cliente : string;
  req_status : string;
  req_errorMessage : option string;
  req_errorDetail : option string;
  req_processedBy : option string
}.

(** [[
    async function addEntry({ filename, cliente, status, errorMessage = null,
                              errorDetail = null, processedBy = 'unknown' }) {
        const data = read();
        const entry = { id: uuidv4(), filename, cliente, status,
                        timestamp: new Date().toISOString(),
                        errorMessage, errorDetail, processedBy };
        data.entries.push(entry);
        write(data);
        return entry;
    }
    ]]
    [new_id] is what [uuidv4] returns and [now] the time of the call. *)
Definition make_entry (req : request) (new_id now : string) : entry :=
  {| id := new_id;
     filename := req_filename req;
     cliente := req_cliente req;
     status := req_status req;
     timestamp := now;
     errorMessage := req_errorMessage req;
     errorDetail := req_errorDetail req;
     processedBy := default "unknown" (req_processedBy req) |}.

Definition addEntry (req : request) (new_id now : string) (wrote : write_outcome)
    (s : store) : store * entry :=
  let '(d, o) := read s in
  let entry := make_entry req new_id now in
  let d' := {| entries := entries d ++ [entry];
               lastCleanup := lastCleanup d |} in
  (write d' wrote (assign o d' s), entry).

(** [async function getEntries() { return read().entries; }] *)
Definition getEntries (s : store) : list entry :=
  entries (fst (read s)).

Section Cleanup.

(** [new Date(text)] as milliseconds, [None] for an invalid date. *)
Variable parse : string -> option Z.

(** [new Date(e.timestamp) > cutoff]: false for an invalid date. *)
Definition newer (cutoff : Z) (e : entry) : bool :=
  match parse (timestamp e) with
  | Some t => (cutoff <? t)%Z
  | None => false
  end.

(** [[
    function cleanup() {
        const data = read();
        const cutoff = new Date();
        cutoff.setDate(cutoff.getDate() - RETENTION_DAYS);
        const before = data.entries.length;
        data.entries = data.entries.filter(e => new Date(e.timestamp) > cutoff);
        if (data.entries.length < before) {
            data.lastCleanup = new Date().toISOString();
            write(data);
        }
    }
    ]]
    [cutoff] is the date thirty days before the call, as the calendar of
    the platform gives it, and [now] the time of the call. *)
Definition cleanup (cutoff : Z) (now : string) (wrote : write_outcome) (s : store)
  : store :=
  let '(d, o) := read s in
  let kept := filter (fun e => newer cutoff e = true) (entries d) in
  if (length kept <? length (entries d))%nat then
    let d' := {| entries := kept; lastCleanup := now |} in
    write d' wrote (assign o d' s)
  else
    assign o {| entries := kept; lastCleanup := lastCleanup d |} s.

End Cleanup.

(** A run of calls of [addEntry], each with what the platform gave it. *)
Record add_call : Type := {
  call_request : request;
  call_id : string;
  call_now : string;
  call_wrote : write_outcome
}.

Fixpoint add_all (calls : list add_call) (s : store) : store * list entry :=
  match calls with
  | [] => (s, [])
  | c :: calls' =>
      let '(s1, e) :=
        addEntry (call_request c) (call_id c) (call_now c) (call_wrote c) s in
      let '(s2, es) := add_all calls' s1 in
      (s2, e :: es)
  end.

(** A reading of timestamps for the examples: two dates of November
    2025, in milliseconds, and no date for any other text. *)
Definition example_parse (text : string) : option Z :=
  if decide (text = "2025-11-25T10:30:44.000Z") then Some 1764066644000%Z
  else if decide (text = "2025-10-01T08:00:00.000Z") then Some 1759305600000%Z
  else None.

Definition example_entry (name time : string) : entry :=
  {| id := name; filename := name; cliente := "nipongases";
     status := "success"; timestamp := time;
     errorMessage := None; errorDetail := None; processedBy := "manual" |}.

End History.

(** * The history endpoint (controllers/history.controller.js) *)

Module HistoryView.

Import History.

Local Open Scope Z_scope.

(** [l.slice(start, stop)]: an index below zero counts from the end, and
    both are brought back into the bounds of the array. *)
Definition relative_index {A} (l : list A) (i : Z) : Z :=
  if i <? 0 then Z.max (Z.of_nat (length l) + i) 0
  else Z.min i (Z.of_nat (length l)).

Definition js_slice {A} (start stop : Z) (l : list A) : list A :=
  let k := relative_index l start in
  let final := relative_index l stop in
  take (Z.to_nat (final - k)) (drop (Z.to_nat k) l).

(** [const perPage = 30;] *)
Definition perPage : Z := 30.

(** [Math.ceil(n / perPage)] for a length [n]. *)
Definition page_count (n : nat) : Z := (Z.of_nat n + perPage - 1) / perPage.

(** The query: [date] and [client] are absent or a text; [page] is the
    integer the parameter reads as, [1] when it is absent. *)
Record query : Type := {
  date : option string;
  client : option string;
  page : Z
}.

Record response : Type := {
  resp_entries : list entry;
  currentPage : Z;
  totalPages : Z;
  totalEntries : nat;
  stats_success : nat;
  stats_errors : nat;
  stats_total : nat
}.

Section GetHistory.

(** [new Date(text)] in milliseconds ([None] for an invalid date), the
    text [new Date(e.timestamp).toDateString()] and, for a query
    [DD-MM-YYYY], the text [new Date(year, month - 1, day).toDateString()]:
    the calendar of the platform. *)
Variable parse : string -> option Z.
Variable day_of_timestamp : string -> string.
Variable day_of_query : string -> string.

(** [if (date)]: a filter by day, for a date that is not empty. *)
Definition date_filter (q : query) : option string :=
  match date q with
  | Some d => if bool_decide (d = "") then None else Some d
  | None => None
  end.

(** [if (client && client !== 'all')] *)
Definition client_filter (q : query) : option string :=
  match client q with
  | Some c => if bool_decide (c = "" \/ c = "all") then None else Some c
  | None => None
  end.

Definition by_date (q : query) (es : list entry) : list entry :=
  match date_filter q with
  | Some d =>
      filter (fun e => day_of_timestamp (timestamp e) = day_of_query d) es
  | None => es
  end.

Definition by_client (q : query) (es : list entry) : list entry :=
  match client_filter q with
  | Some c => filter (fun e => cliente e = c) es
  | None => es
  end.

(** The comparator [(a, b) => new Date(b.timestamp) - new Date(a.timestamp)]
    is positive, so that [a] goes after [b], when [b] is the later of two
    valid dates; with an invalid date it is [NaN], which [sort] reads as
    zero. *)
Definition goes_after (a b : entry) : bool :=
  match parse (timestamp a), parse (timestamp b) with
  | Some ta, Some tb => ta <? tb
  | _, _ => false
  end.

(** [Array.prototype.sort] is stable; on valid dates the comparator is a
    total preorder and the result is the one of any stable sort, here by
    insertion from the right. *)
Fixpoint insert_sorted (x : entry) (l : list entry) : list entry :=
  match l with
  | [] => [x]
  | y :: l' => if goes_after x y then y :: insert_sorted x l' else x :: l
  end.

Definition sort_newest_first (l : list entry) : list entry :=
  foldr insert_sorted [] l.

Definition count_status (s : string) (es : list entry) : nat :=
  length (filter (fun e => status e = s) es).

(** [getHistory], from the entries read to the JSON sent.  [sort] works in
    place: when no filter has made a new array and [read] has handed out
    the shared [initialData], it is the array of the store that is
    sorted. *)
Definition selected (q : query) (s : store) : list entry :=
  sort_newest_first (by_client q (by_date q (getEntries s))).

Definition getHistory (q : query) (s : store) : response * store :=
  let '(d, o) := read s in
  let sorted := selected q s in
  let start := (page q - 1) * perPage in
  let resp :=
    {| resp_entries := js_slice start (start + perPage) sorted;
       currentPage := page q;
       totalPages := page_count (length sorted);
       totalEntries := length sorted;
       stats_success := count_status "success" sorted;
       stats_errors := count_status "error" sorted;
       stats_total := length sorted |} in
  let s' :=
    match date_filter q, client_filter q with
    | None, None =>
        assign o {| entries := sorted; lastCleanup := lastCleanup d |} s
    | _, _ => s
    end in
  (resp, s').

(** The page [p] of a query. *)
Definition page_of (q : query) (p : Z) (s : store) : list entry :=
  resp_entries (fst (getHistory {| date := date q; client := client q;
                                   page := p |} s)).

(** Every entry has a timestamp that is a date. *)
Definition dated (l : list entry) : Prop :=
  Forall (fun e => is_Some (parse (timestamp e))) l.

Definition not_newer (a b : entry) : Prop :=
  forall ta tb,
    parse (timestamp a) = Some ta -> parse (timestamp b) = Some tb -> ta <= tb.

Fixpoint descending (l : list entry) : Prop :=
  match l with
  | [] => True
  | x :: l' => Forall (fun y => not_newer y x) l' /\ descending l'
  end.

(** The timestamps of newer entries come first. *)
Definition newest_first (l : list entry) : Prop :=
  forall i j a b ta tb,
    (i < j)%nat -> l !! i = Some a -> l !! j = Some b ->
    parse (timestamp a) = Some ta -> parse (timestamp b) = Some tb ->
    tb <= ta.

End GetHistory.

(** A calendar for the examples: the day of a timestamp is its first ten
    characters, and one query is known. *)
Definition example_day (text : string) : string := substring 0 10 text.

Definition example_day_of_query (text : string) : string :=
  if decide (text = "25-11-2025") then "2025-11-25" else "Invalid Date".

Definition example_history (es : list entry) : store :=
  {| file := Some {| entries := es; lastCleanup := "2025-11-01T00:00:00.000Z" |};
     initialData := {| entries := []; lastCleanup := "2025-11-01T00:00:00.000Z" |} |}.

Definition everything (p : Z) : query :=
  {| date := None; client := Some "all"; page := p |}.

End HistoryView.

(** * The units of work built by the handlers

    [runScript] and [enqueue] are called from three places only: the
    handler of [POST /run], the upload handler and [processFolder].  Each
    hands [enqueue] an [async] function that calls [runScript] once, waits
    for its promise, and (for the first two) writes one line of history:
    [[
    enqueue(async () => {
        try {
            const result = await runScript(absolutePath, args, jobId);
            const success = result.exitCode === 0;
            await history.addEntry({ filename, cliente: folder,
                status: success ? 'success' : 'error',
                errorMessage: success ? null : 'Error en script',
                errorDetail: success ? null : result.stderr,
                processedBy: 'power_automate' });
        } catch (err) {
            await history.addEntry({ filename, cliente: folder,
                status: 'error',
                errorMessage: 'Excepción durante procesamiento',
                errorDetail: err.message,
                processedBy: 'power_automate' });
        }
    });
    ]] *)

Module Jobs.

(** [err.message] of what the promise of [runScript] is rejected with.  A
    spawn error, thrown or emitted, is identified with its message. *)
Definition message (e : Runner.error) : string :=
  match e with
  | Runner.ScriptAlreadyRunning => "Script already running"
  | Runner.UnsupportedExtension ext =>
      "Extensión de script no soportada: " +:+ ext
  | Runner.SpawnThrew err => err
  | Runner.ChildError err => err
  end.

(** The variables of the handler that the closure keeps for its line of
    history. *)
Record report : Type := {
  filename : string;
  cliente : string;
  processedBy : string
}.

(** The closure: the arguments of its call of [runScript], and what it
    reports; [processFolder] reports nothing. *)
Record work : Type := {
  absolutePath : string;
  args : list string;
  jobId : string;
  reports : option report
}.

Definition dquote : string := String "034" "".

(** [JSON.stringify({ source: 'manual' })] *)
Definition manual_source : string :=
  "{" +:+ dquote +:+ "source" +:+ dquote +:+ ":" +:+
  dquote +:+ "manual" +:+ dquote +:+ "}".

(** The closure of [POST /run]; [metadata] is the text of
    [JSON.stringify(metadata || {})]. *)
Definition automation_job (folder file metadata absolutePath jobId : string)
  : work :=
  {| absolutePath := absolutePath;
     args := [folder; file; metadata];
     jobId := jobId;
     reports := Some {| filename := file; cliente := folder;
                        processedBy := "power_automate" |} |}.

(** The closure of the upload handler. *)
Definition upload_job (client file absoluteScriptPath jobId : string) : work :=
  {| absolutePath := absoluteScriptPath;
     args := [client; file; manual_source];
     jobId := jobId;
     reports := Some {| filename := file; cliente := client;
                        processedBy := "manual" |} |}.

(** The closure of [processFolder]. *)
Definition folder_job (absoluteScriptPath jobId : string) : work :=
  {| absolutePath := absoluteScriptPath;
     args := ["--watch"];
     jobId := jobId;
     reports := None |}.

(** The argument of [history.addEntry] once the promise of [runScript] has
    settled: the [try] branch for a result, the [catch] branch for a
    rejection.  While the promise is pending the closure waits. *)
Definition history_request (rep : report) (p : Runner.promise)
  : option History.request :=
  match p with
  | Runner.Pending => None
  | Runner.Resolved result =>
      let success := bool_decide (Runner.exitCode result = Some 0%Z) in
      Some {| History.req_filename := filename rep;
              History.req_cliente := cliente rep;
              History.req_status := if success then "success" else "error";
              History.req_errorMessage :=
                if success then None else Some "Error en script";
              History.req_errorDetail :=
                if success then None else Some (Runner.stderr result);
              History.req_processedBy := Some (processedBy rep) |}
  | Runner.RejectedWith err =>
      Some {| History.req_filename := filename rep;
              History.req_cliente := cliente rep;
              History.req_status := "error";
              History.req_errorMessage :=
                Some "Excepción durante procesamiento";
              History.req_errorDetail := Some (message err);
              History.req_processedBy := Some (processedBy rep) |}
  end.

End Jobs.

(** * Queue, runner and history together

    The queue starts a closure, the closure calls [runScript], and when the
    promise of [runScript] settles the closure writes its line of history
    and returns, which settles the promise the queue waits for.  The
    continuation of a closure, the callback of [finally] and the start of
    the next closure are all promise jobs: they run before the event loop
    delivers anything else. *)

Module Pipeline.

Record state : Type := {
  queue_state : Queue.state;
  runner_state : Runner.state;
  history_store : History.store;
  closures : list Jobs.work
}.

(** The server when it starts: nothing queued, nothing running, and the
    history as the file system has it, which is what an earlier run left
    or no file at all (the server does not call [history.init]). *)
Definition init (earlier : History.store) : state :=
  {| queue_state := Queue.init;
     runner_state := Runner.init;
     history_store := earlier;
     closures := [] |}.

Definition settled (p : Runner.promise) : bool :=
  match p with Runner.Pending => false | _ => true end.

(** A request of a handler that reaches [enqueue], or an event of a
    child. *)
Inductive event : Type :=
  | Submit (w : Jobs.work)
  | Child (e : Runner.event).

Section Pipeline.

Variable basename : string -> string.
Variable extname : string -> string.
Variable toLowerCase : string -> string.
Variable spawn_throws : nat -> string -> list string -> option string.
Variable cfg : Queue.config.

(** What [uuidv4], the clock and the file system give to the line of
    history of the [k]-th closure started. *)
Variable uuid : nat -> string.
Variable clock : nat -> string.
Variable wrote : nat -> History.write_outcome.

(** A closure is labelled with its rank among the closures admitted, which
    by the order of the queue is its rank among the closures started and
    so the rank of its call of [runScript]. *)
Definition start (jobFunc : Queue.job) (st : state) : state :=
  match closures st !! Queue.job_id jobFunc with
  | Some w =>
      {| queue_state := queue_state st;
         runner_state :=
           Runner.runScript basename extname toLowerCase spawn_throws
             (Jobs.absolutePath w) (Jobs.args w) (Jobs.jobId w)
             (runner_state st);
         history_store := history_store st;
         closures := closures st |}
  | None => st
  end.

(** The closures that [processQueue] invoked since [before] closures had
    been started run up to their [await]. *)
Definition launch (before : nat) (st : state) : state :=
  foldl (fun acc jobFunc => start jobFunc acc) st
    (drop before (Queue.started (queue_state st))).

Definition awaited (st : state) (jobFunc : Queue.job)
  : option Runner.promise :=
  Runner.returned <$>
    Runner.invocations (runner_state st) !! Queue.job_id jobFunc.

Definition resumable (st : state) (jobFunc : Queue.job) : bool :=
  match awaited st jobFunc with
  | Some p => settled p
  | None => false
  end.

(** The line of history of a closure whose promise has settled. *)
Definition record (jobFunc : Queue.job) (st : state) : History.store :=
  let k := Queue.job_id jobFunc in
  match closures st !! k, awaited st jobFunc with
  | Some w, Some p =>
      match Jobs.reports w with
      | Some rep =>
          match Jobs.history_request rep p with
          | Some req =>
              fst (History.addEntry req (uuid k) (clock k) (wrote k)
                     (history_store st))
          | None => history_store st
          end
      | None => history_store st
      end
  | _, _ => history_store st
  end.

(** The continuation of the [i]-th closure in flight: the line of history,
    then the closure returns, the callback of [finally] runs and the queue
    may start the next closure. *)
Definition resume (i : nat) (jobFunc : Queue.job) (st : state) : state :=
  match Queue.settle cfg i Queue.Fulfilled (queue_state st) with
  | Some (q', _) =>
      launch (length (Queue.started (queue_state st)))
        {| queue_state := q';
           runner_state := runner_state st;
           history_store := record jobFunc st;
           closures := closures st |}
  | None => st
  end.

(** The promise jobs: as long as a closure in flight waits for a promise
    that has settled, it is resumed. *)
Fixpoint microtasks (fuel : nat) (st : state) : state :=
  match fuel with
  | O => st
  | S fuel' =>
      match list_find (fun jobFunc => resumable st jobFunc = true)
              (Queue.inflight (queue_state st)) with
      | Some (i, jobFunc) => microtasks fuel' (resume i jobFunc st)
      | None => st
      end
  end.

(** Each resumption takes a closure out of those in flight and starts at
    most one from the queue. *)
Definition checkpoint (st : state) : state :=
  microtasks (length (Queue.inflight (queue_state st)) +
              length (Queue.queue (queue_state st))) st.

Definition step (e : event) (st : state) : option state :=
  match e with
  | Submit w =>
      let q := queue_state st in
      let jobFunc := Queue.unit_of_work (length (Queue.admitted q)) in
      match Queue.enqueue cfg jobFunc q with
      | (q', Normal true) =>
          Some (checkpoint
                  (launch (length (Queue.started q))
                     {| queue_state := q';
                        runner_state := runner_state st;
                        history_store := history_store st;
                        closures := closures st ++ [w] |}))
      | (q', _) =>
          Some {| queue_state := q';
                  runner_state := runner_state st;
                  history_store := history_store st;
                  closures := closures st |}
      end
  | Child (Runner.Call _ _ _) => None
  | Child e =>
      match Runner.step basename extname toLowerCase spawn_throws e
              (runner_state st) with
      | Some r' =>
          Some (checkpoint
                  {| queue_state := queue_state st;
                     runner_state := r';
                     history_store := history_store st;
                     closures := closures st |})
      | None => None
      end
  end.

Fixpoint run (evs : list event) (st : state) : option state :=
  match evs with
  | [] => Some st
  | e :: evs' =>
      match step e st with
      | Some st' => run evs' st'
      | None => None
      end
  end.

End Pipeline.

(** The call of rank [k] was rejected because [spawn] threw: its flag was
    set and nothing will clear it. *)
Definition spawn_threw (r : Runner.state) (k : nat) (name : string) : Prop :=
  exists inv err,
    Runner.invocations r !! k = Some inv /\
    Runner.scriptName inv = name /\
    Runner.returned inv = Runner.RejectedWith (Runner.SpawnThrew err).

(** A flag of [runningScripts] is set only for a live child, or after a
    call for which [spawn] threw. *)
Definition justified (r : Runner.state) : Prop :=
  forall name, Runner.runningScripts r !! name = Some true ->
    (exists k inv, Runner.invocations r !! k = Some inv /\
                   Runner.executing inv = true /\
                   Runner.scriptName inv = name) \/
    (exists k, spawn_threw r k name).

(** The calls refused with "Script already running" are calls for a name
    inherited from [Object.prototype], or for a name for which [spawn]
    threw in an earlier call. *)
Definition refusals_inherited (r : Runner.state) : Prop :=
  forall k inv, Runner.invocations r !! k = Some inv ->
    Runner.returned inv = Runner.RejectedWith Runner.ScriptAlreadyRunning ->
    Runner.scriptName inv ∈ Runner.object_prototype_keys \/
    (exists k', (k' < k)%nat /\ spawn_threw r k' (Runner.scriptName inv)).

(** How queue, runner and closures hang together.  The last field is what
    a limit of one closure at a time gives. *)
Record linked (cfg : Queue.config) (st : state) : Prop := {
  linked_capped : Queue.capped cfg (queue_state st);
  linked_fifo : Queue.fifo (queue_state st);
  linked_accounted : Queue.accounted (queue_state st);
  linked_async : Queue.async_only (queue_state st);
  linked_labels :
    forall i jobFunc, Queue.admitted (queue_state st) !! i = Some jobFunc ->
      jobFunc = Queue.unit_of_work i;
  linked_closures :
    length (closures st) = length (Queue.admitted (queue_state st));
  linked_calls :
    length (Runner.invocations (runner_state st)) =
    length (Queue.started (queue_state st));
  linked_healthy : Runner.healthy (runner_state st);
  linked_justified : justified (runner_state st);
  linked_inflight :
    forall k inv, Runner.invocations (runner_state st) !! k = Some inv ->
      Runner.executing inv = true ->
      Queue.unit_of_work k ∈ Queue.inflight (queue_state st);
  linked_refusals :
    (Queue.MAX_CONCURRENT cfg <= 1)%Z -> refusals_inherited (runner_state st);
  linked_begun :
    forall jobFunc, jobFunc ∈ Queue.inflight (queue_state st) ->
      jobFunc ∈ Queue.started (queue_state st)
}.

(** No closure in flight waits for a promise that has settled. *)
Definition quiet (st : state) : Prop :=
  forall jobFunc, jobFunc ∈ Queue.inflight (queue_state st) ->
    resumable st jobFunc = false.

Section Chronicle.

Variable uuid : nat -> string.
Variable clock : nat -> string.

(** The line of history of the closure of rank [k] once its promise has
    settled; none for a closure that reports nothing. *)
Definition line (st : state) (k : nat) : option History.entry :=
  w ← closures st !! k;
  rep ← Jobs.reports w;
  inv ← Runner.invocations (runner_state st) !! k;
  req ← Jobs.history_request rep (Runner.returned inv);
  Some (History.make_entry req (uuid k) (clock k)).

(** The number of closures that have returned. *)
Definition finished (st : state) : nat :=
  length (Queue.started (queue_state st)) -
  length (Queue.inflight (queue_state st)).

Definition lines (st : state) : list History.entry :=
  omap (line st) (seq 0 (finished st)).

(** With one closure at a time, the closure in flight is the last one
    started, and the history holds what it held when the server started,
    then the lines of the closures before that one. *)
Definition chronicle (earlier : History.store) (st : state) : Prop :=
  (forall jobFunc, jobFunc ∈ Queue.inflight (queue_state st) ->
     jobFunc =
       Queue.unit_of_work (pred (length (Queue.started (queue_state st))))) /\
  History.getEntries (history_store st) =
    History.getEntries earlier ++ lines st.

End Chronicle.

End Pipeline.

(** * The handlers that reach the queue

    [POST /run] (behind [validateApiKey]) and [POST /api/process-folder].
    The fields of the request body are strings or absent, and the values of
    [scripts-map.json] are strings. *)

Module Handlers.

Local Open Scope Z_scope.

(** [API_KEY: process.env.MONITOR_API_KEY || '12345'] *)
Definition API_KEY (MONITOR_API_KEY : option string) : string :=
  match MONITOR_API_KEY with
  | Some key => if bool_decide (key = "") then "12345" else key
  | None => "12345"
  end.

(** What a property access on the object of [scripts-map.json] gives: the
    value of an own key, something inherited from [Object.prototype]
    (a function or an object, never a string), or [undefined]. *)
Inductive property : Type :=
  | Undefined
  | Own (value : string)
  | Inherited.

Definition get (SCRIPTS_MAP : gmap string string) (key : string) : property :=
  match SCRIPTS_MAP !! key with
  | Some value => Own value
  | None =>
      if bool_decide (key ∈ Runner.object_prototype_keys) then Inherited
      else Undefined
  end.

(** [res.status(status).json({ ... })], the fields in the order of the
    source. *)
Record reply : Type := {
  status : Z;
  json : list (string * string)
}.

Section Handlers.

Variable MONITOR_API_KEY : option string.
Variable SCRIPTS_MAP : gmap string string.

(** [path.isAbsolute], and [path.join(__dirname, '../../', scriptPath)]. *)
Variable isAbsolute : string -> bool.
Variable from_root : string -> string.

(** The message of the [TypeError] of [path.isAbsolute] for an argument
    that is not a string. *)
Variable invalid_path : string.

Variable basename : string -> string.
Variable extname : string -> string.
Variable toLowerCase : string -> string.
Variable spawn_throws : nat -> string -> list string -> option string.
Variable cfg : Queue.config.
Variable uuid : nat -> string.
Variable clock : nat -> string.
Variable wrote : nat -> History.write_outcome.

(** [[
    function validateApiKey(req, res, next) {
        const key = req.header('x-api-key');
        if (key !== API_KEY) {
            return res.status(401).json({ error: 'Unauthorized' });
        }
        next();
    }
    ]] *)
Definition validateApiKey (key : option string) : option reply :=
  if bool_decide (key = Some (API_KEY MONITOR_API_KEY)) then None
  else Some {| status := 401; json := [("error", "Unauthorized")] |}.

Definition absolute (scriptPath : string) : string :=
  if isAbsolute scriptPath then scriptPath else from_root scriptPath.

(** [enqueue(async () => { ... })]: what [enqueue] returns, and the server
    after it. *)
Definition submit (w : Jobs.work) (st : Pipeline.state)
  : bool * Pipeline.state :=
  let q := Pipeline.queue_state st in
  let jobFunc := Queue.unit_of_work (length (Queue.admitted q)) in
  match snd (Queue.enqueue cfg jobFunc q),
        Pipeline.step basename extname toLowerCase spawn_throws cfg uuid clock wrote
          (Pipeline.Submit w) st with
  | Normal true, Some st' => (true, st')
  | _, _ => (false, st)
  end.

Definition blank (field : option string) : bool :=
  match field with
  | Some text => bool_decide (text = "")
  | None => true
  end.

(** [[
    router.post('/run', validateApiKey, (req, res) => {
        const { folder, filename, metadata } = req.body || {};
        if (!folder || !filename)
            return res.status(400).json({ error: 'folder and filename required' });
        const scriptPath = SCRIPTS_MAP[folder];
        if (!scriptPath)
            return res.status(400).json({ error: 'No script assigned for this folder' });
        const absolutePath = path.isAbsolute(scriptPath)
            ? scriptPath : path.join(__dirname, '../../', scriptPath);
        const jobId = uuidv4();
        const enqueued = enqueue(async () => { ... });
        if (!enqueued)
            return res.status(429).json({ status: 'error',
                message: 'Queue full, try later', jobId });
        res.status(202).json({ status: 'queued', jobId });
    });
    ]]
    An exception of the handler goes to [errorHandler], which answers 500
    with its message.  [metadata] is the text of
    [JSON.stringify(metadata || {})]. *)
Definition post_run (key folder filename : option string)
    (metadata jobId : string) (st : Pipeline.state)
  : reply * Pipeline.state :=
  match validateApiKey key with
  | Some refusal => (refusal, st)
  | None =>
      if blank folder || blank filename then
        ({| status := 400;
            json := [("error", "folder and filename required")] |}, st)
      else
        let folder := default "" folder in
        let filename := default "" filename in
        match get SCRIPTS_MAP folder with
        | Undefined =>
            ({| status := 400;
                json := [("error", "No script assigned for this folder")] |},
             st)
        | Inherited =>
            ({| status := 500; json := [("error", invalid_path)] |}, st)
        | Own scriptPath =>
            if bool_decide (scriptPath = "") then
              ({| status := 400;
                  json := [("error", "No script assigned for this folder")] |},
               st)
            else
              let w := Jobs.automation_job folder filename metadata
                         (absolute scriptPath) jobId in
              match submit w st with
              | (true, st') =>
                  ({| status := 202;
                      json := [("status", "queued"); ("jobId", jobId)] |},
                   st')
              | (false, _) =>
                  ({| status := 429;
                      json := [("status", "error");
                               ("message", "Queue full, try later");
                               ("jobId", jobId)] |}, st)
              end
        end
  end.

(** [[
    async function processFolder(req, res) {
        try {
            const { client } = req.body;
            if (!client || !SCRIPTS_MAP[client])
                return res.status(400).json({ error: 'Cliente inválido' });
            const scriptPath = SCRIPTS_MAP[client];
            const absoluteScriptPath = path.isAbsolute(scriptPath)
                ? scriptPath : path.join(__dirname, '../../', scriptPath);
            const jobId = uuidv4();
            const enqueued = enqueue(async () => { ... });
            if (!enqueued)
                return res.status(429).json({ error: 'Cola llena, intenta más tarde' });
            res.json({ status: 'queued', jobId });
        } catch (err) {
            res.status(500).json({ error: err.message });
        }
    }
    ]] *)
Definition processFolder (client : option string) (jobId : string)
    (st : Pipeline.state) : reply * Pipeline.state :=
  let invalid := {| status := 400; json := [("error", "Cliente inválido")] |} in
  if blank client then (invalid, st)
  else
    match get SCRIPTS_MAP (default "" client) with
    | Undefined => (invalid, st)
    | Inherited =>
        ({| status := 500; json := [("error", invalid_path)] |}, st)
    | Own scriptPath =>
        if bool_decide (scriptPath = "") then (invalid, st)
        else
          let w := Jobs.folder_job (absolute scriptPath) jobId in
          match submit w st with
          | (true, st') =>
              ({| status := 200;
                  json := [("status", "queued"); ("jobId", jobId)] |}, st')
          | (false, _) =>
              ({| status := 429;
                  json := [("error", "Cola llena, intenta más tarde")] |}, st)
          end
    end.

End Handlers.

End Handlers.

(** * The pages in the browser *)

Module Text.

(** [text.split(sep)] for a separator of one character: the pieces between
    the separators, of which there is always one at least. *)
Fixpoint split (sep : ascii) (text : string) : list string :=
  match text with
  | EmptyString => [EmptyString]
  | String c rest =>
      if Ascii.eqb c sep then EmptyString :: split sep rest
      else
        match split sep rest with
        | piece :: pieces => String c piece :: pieces
        | [] => [String c EmptyString]
        end
  end.

Fixpoint contains (c : ascii) (text : string) : bool :=
  match text with
  | EmptyString => false
  | String c' rest => Ascii.eqb c' c || contains c rest
  end.

(** An element of a destructured array inside a template literal: a
    missing one reads [undefined]. *)
Definition interpolate (piece : option string) : string :=
  default "undefined" piece.

End Text.

Module API.

(** [[
    getHistory: (date, client, page) => {
        const [year, month, day] = date.split('-');
        const formattedDate = `${day}-${month}-${year}`;
        return API.call(`/api/history?date=${formattedDate}&...`);
    }
    ]] *)
Definition formattedDate (date : string) : string :=
  let pieces := Text.split "-" date in
  Text.interpolate (pieces !! 2%nat) +:+ "-" +:+
  Text.interpolate (pieces !! 1%nat) +:+ "-" +:+
  Text.interpolate (pieces !! 0%nat).

(** The other end, in [getHistory] of the server:
    [const [day, month, year] = date.split('-');] *)
Record day_month_year : Type := {
  day : option string;
  month : option string;
  year : option string
}.

Definition requested_day (date : string) : day_month_year :=
  let pieces := Text.split "-" date in
  {| day := pieces !! 0%nat; month := pieces !! 1%nat; year := pieces !! 2%nat |}.

End API.

Module Monitor.

Local Open Scope Z_scope.

(** What the page reads of a [File]. *)
Record file : Type := {
  name : string;
  size : Z
}.

(** [const maxSize = 10 * 1024 * 1024;] *)
Definition maxSize : Z := 10 * 1024 * 1024.

(** What [addFiles] leaves: [AppState.files], the toasts shown, and whether
    [renderFileList] was called. *)
Record outcome : Type := {
  files : list file;
  toasts : list string;
  rendered : bool
}.

Definition dquote : string := String "034" "".

Section AddFiles.

Variable toLowerCase : string -> string.

(** [file.name.toLowerCase().split('.').pop()] *)
Definition extension (f : file) : string :=
  default "" (last (Text.split "." (toLowerCase (name f)))).

(** The tests of one turn of the loop, after the test of the length: the
    toast of the first test that fails. *)
Definition refusal (selectedClient : option string) (queued : list file)
    (f : file) : option string :=
  if size f >? maxSize then Some (name f +:+ ": Supera el límite de 10MB")
  else if bool_decide (selectedClient = Some "airliquide_portugal") &&
          negb (bool_decide (extension f = "txt"))
  then Some "Portugal solo acepta archivos TXT"
  else if negb (bool_decide (selectedClient = Some "airliquide_portugal")) &&
          negb (bool_decide (extension f = "pdf"))
  then Some "Solo se permiten archivos PDF"
  else if bool_decide (name f ∈ name <$> queued)
  then Some (dquote +:+ name f +:+ dquote +:+ " ya está en la cola")
  else None.

(** [[
    addFiles(newFiles) {
        for (const file of newFiles) {
            if (AppState.files.length >= 10) {
                UI.showToast('Máximo 10 archivos por sesión', 'error');
                return;
            }
            const maxSize = 10 * 1024 * 1024;
            if (file.size > maxSize) { UI.showToast(...); continue; }
            const ext = file.name.toLowerCase().split('.').pop();
            if (AppState.selectedClient === 'airliquide_portugal' && ext !== 'txt') {
                UI.showToast('Portugal solo acepta archivos TXT', 'error'); continue; }
            if (AppState.selectedClient !== 'airliquide_portugal' && ext !== 'pdf') {
                UI.showToast('Solo se permiten archivos PDF', 'error'); continue; }
            if (AppState.files.some(f => f.name === file.name)) {
                UI.showToast(...); continue; }
            AppState.files.push(file);
        }
        this.renderFileList();
    }
    ]] *)
Fixpoint addFiles (selectedClient : option string) (newFiles : list file)
    (queued : list file) (shown : list string) : outcome :=
  match newFiles with
  | [] => {| files := queued; toasts := shown; rendered := true |}
  | f :: rest =>
      if 10 <=? Z.of_nat (length queued) then
        {| files := queued;
           toasts := shown ++ ["Máximo 10 archivos por sesión"];
           rendered := false |}
      else
        match refusal selectedClient queued f with
        | Some toast => addFiles selectedClient rest queued (shown ++ [toast])
        | None => addFiles selectedClient rest (queued ++ [f]) shown
        end
  end.

End AddFiles.

End Monitor.

Module Historial.

Local Open Scope Z_scope.

(** The pieces of the bar, in place of their markup: the button [<] and
    the button [>] with the page they lead to, a numbered button, which
    leads to its number and may be the active one, and the dots. *)
Inductive element : Type :=
  | Previous (page : Z)
  | Numbered (page : Z) (active : bool)
  | Ellipsis
  | Next (page : Z).

(** One turn of the loop over the pages. *)
Definition numbered (currentPage totalPages i : Z) : option element :=
  if bool_decide (i = 1 \/ i = totalPages \/
                  (currentPage - 2 <= i /\ i <= currentPage + 2))
  then Some (Numbered i (bool_decide (i = currentPage)))
  else if bool_decide (i = currentPage - 3 \/ i = currentPage + 3)
  then Some Ellipsis
  else None.

(** [[
    renderPagination(pagination) {
        if (pagination.totalPages <= 1) { innerHTML = ''; return; }
        const { currentPage, totalPages } = pagination;
        let html = '';
        if (currentPage > 1) html += previous(currentPage - 1);
        for (let i = 1; i <= totalPages; i++) {
            if (i === 1 || i === totalPages ||
                (i >= currentPage - 2 && i <= currentPage + 2)) {
                html += button(i, i === currentPage);
            } else if (i === currentPage - 3 || i === currentPage + 3) {
                html += dots;
            }
        }
        if (currentPage < totalPages) html += next(currentPage + 1);
        innerHTML = html;
    }
    ]]
    The two numbers are integers. *)
Definition renderPagination (currentPage totalPages : Z) : list element :=
  if totalPages <=? 1 then []
  else
    (if currentPage >? 1 then [Previous (currentPage - 1)] else []) ++
    omap (numbered currentPage totalPages) (seqZ 1 totalPages) ++
    (if currentPage <? totalPages then [Next (currentPage + 1)] else []).

(** The page a click on an element asks for:
    [this.loadHistory(parseInt(btn.dataset.page))]. *)
Definition target (e : element) : option Z :=
  match e with
  | Previous page | Next page | Numbered page _ => Some page
  | Ellipsis => None
  end.

Definition is_active (e : element) : bool :=
  match e with
  | Numbered _ active => active
  | _ => false
  end.

End Historial.

Module PosixPathExamples.

Import PosixPath.

Example basename_of_script :
  basename "/opt/monitor/scripts/airliquide_portugal.py" =
    "airliquide_portugal.py".
Proof. reflexivity. Qed.

Example basename_trailing_slash : basename "scripts/nipongases.py/" = "nipongases.py".
Proof. reflexivity. Qed.

Example extname_upper : toLowerCase (extname "/opt/AIRLIQUIDE.PY") = ".py".
Proof. reflexivity. Qed.

Example extname_hidden : extname "/home/monitor/.profile" = "".
Proof. reflexivity. Qed.

Example extname_none : extname "/usr/bin/constructor" = "".
Proof. reflexivity. Qed.

End PosixPathExamples.

(** * Properties of the admission queue *)

Module QueueFacts.

Import Queue.
Local Open Scope Z_scope.

Lemma processQueue_spec cfg s : drain_step cfg s (processQueue cfg s).
Proof.
  unfold processQueue.
  destruct (Z.geb_spec (running s) (MAX_CONCURRENT cfg)) as [Hge | Hlt].
  - now constructor.
  - destruct (queue s) as [| jobFunc rest] eqn:Hq.
    + now apply drain_empty.
    + destruct (job_call jobFunc) eqn:Hcall; cbn.
      * apply drain_start; auto. unfold returns_promise. now rewrite Hcall.
      * apply drain_throw; auto. unfold returns_promise. now rewrite Hcall.
Qed.

Ltac drain_cases cfg s :=
  destruct (processQueue_spec cfg s)
    as [Hbusy | Hidle Hq | next rest Hidle Hq Hcall | next rest Hidle Hq Hcall].

Lemma enqueue_full cfg jobFunc s :
  MAX_QUEUE_SIZE cfg <= Z.of_nat (length (queue s)) ->
  enqueue cfg jobFunc s = (s, Normal false).
Proof.
  intros Hfull. unfold enqueue.
  destruct (Z.geb_spec (Z.of_nat (length (queue s))) (MAX_QUEUE_SIZE cfg)); [done | lia].
Qed.

Lemma enqueue_room cfg jobFunc s :
  Z.of_nat (length (queue s)) < MAX_QUEUE_SIZE cfg ->
  enqueue cfg jobFunc s =
    match processQueue cfg (push jobFunc s) with
    | (s', Normal _) => (s', Normal true)
    | (s', Throw) => (s', Throw)
    end.
Proof.
  intros Hroom. unfold enqueue.
  destruct (Z.geb_spec (Z.of_nat (length (queue s))) (MAX_QUEUE_SIZE cfg)); [lia | done].
Qed.

Lemma enqueue_state cfg jobFunc s :
  (MAX_QUEUE_SIZE cfg <= Z.of_nat (length (queue s)) /\
   fst (enqueue cfg jobFunc s) = s) \/
  (Z.of_nat (length (queue s)) < MAX_QUEUE_SIZE cfg /\
   fst (enqueue cfg jobFunc s) = fst (processQueue cfg (push jobFunc s))).
Proof.
  unfold enqueue.
  destruct (Z.geb_spec (Z.of_nat (length (queue s))) (MAX_QUEUE_SIZE cfg));
    [by left | right].
  split; [done |].
  by destruct (processQueue cfg (push jobFunc s)) as [s' [[] |]].
Qed.

Lemma settle_state cfg i o s r :
  settle cfg i o s = Some r ->
  is_Some (inflight s !! i) /\ r = processQueue cfg (decrement (forget i s)).
Proof.
  unfold settle, on_settled. destruct (inflight s !! i) eqn:Hi; [| done].
  intros [= <-]. eauto.
Qed.

(** ** The bounds on [running] and on the pending sequence *)

Lemma processQueue_bounded cfg s :
  bounded cfg s -> bounded cfg (fst (processQueue cfg s)).
Proof.
  intros [Hr Hlen]. drain_cases cfg s; cbn; unfold bounded; cbn; try done.
  - rewrite Hq in Hlen. cbn in Hlen. lia.
  - rewrite Hq in Hlen. cbn in Hlen. lia.
Qed.

Lemma enqueue_bounded cfg jobFunc s :
  bounded cfg s -> bounded cfg (fst (enqueue cfg jobFunc s)).
Proof.
  intros Hb. destruct (enqueue_state cfg jobFunc s) as [[_ ->] | [Hroom ->]]; [done |].
  apply processQueue_bounded. destruct Hb as [Hr Hq].
  split; cbn; [done |]. rewrite length_app. cbn. lia.
Qed.

Lemma on_settled_bounded cfg s :
  bounded cfg s -> bounded cfg (fst (on_settled cfg s)).
Proof.
  intros [Hr Hq]. apply processQueue_bounded. split; cbn; [lia | done].
Qed.

Lemma step_bounded cfg e s s' :
  bounded cfg s -> step cfg e s = Some s' -> bounded cfg s'.
Proof.
  intros Hb. destruct e as [jobFunc | i o]; cbn.
  - intros [= <-]. by apply enqueue_bounded.
  - destruct (settle cfg i o s) as [r |] eqn:Hs; cbn; [| done].
    intros [= <-]. apply settle_state in Hs as [_ ->].
    apply (on_settled_bounded cfg (forget i s)). exact Hb.
Qed.

Lemma run_bounded cfg evs s s' :
  bounded cfg s -> run cfg evs s = Some s' -> bounded cfg s'.
Proof.
  revert s. induction evs as [| e evs IH]; intros s Hb; cbn.
  - by intros [= <-].
  - destruct (step cfg e s) as [s1 |] eqn:He; [| done].
    apply IH. eapply step_bounded; eauto.
Qed.

(** ** Work conservation, order and slot accounting *)

Lemma processQueue_capped cfg s :
  capped cfg s -> capped cfg (fst (processQueue cfg s)).
Proof.
  unfold capped. intros Hc. drain_cases cfg s; cbn; lia.
Qed.

Lemma processQueue_work_conserving cfg s :
  (running s < MAX_CONCURRENT cfg - 1 -> (length (queue s) <= 1)%nat) ->
  work_conserving cfg (fst (processQueue cfg s)).
Proof.
  unfold work_conserving. intros Hpre.
  drain_cases cfg s; cbn; intros Hlt; try done; try lia.
  - rewrite Hq in Hpre. cbn in Hpre.
    destruct rest; [done | cbn in Hpre; lia].
  - rewrite Hq in Hpre. cbn in Hpre.
    destruct rest; [done | cbn in Hpre; lia].
Qed.

Lemma processQueue_fifo cfg s :
  fifo s -> fifo (fst (processQueue cfg s)).
Proof.
  unfold fifo. intros Hf. drain_cases cfg s; cbn; try done.
  - rewrite <- Hf, Hq. by rewrite <- app_assoc.
  - rewrite <- Hf, Hq. by rewrite <- app_assoc.
Qed.

Lemma leaked_snoc s1 s2 jobFunc :
  started s2 = started s1 ++ [jobFunc] ->
  leaked s2 = leaked s1 + (if returns_promise jobFunc then 0 else 1).
Proof.
  unfold leaked. intros ->. rewrite filter_app, length_app.
  destruct (returns_promise jobFunc) eqn:Hj.
  - rewrite filter_cons_False, filter_nil by (rewrite Hj; done). cbn. lia.
  - rewrite filter_cons_True, filter_nil by done. cbn. lia.
Qed.

Lemma processQueue_accounted cfg s :
  accounted s -> accounted (fst (processQueue cfg s)).
Proof.
  unfold accounted. intros Ha. drain_cases cfg s; cbn; try done.
  - rewrite (leaked_snoc s _ next) by reflexivity.
    rewrite Hcall, length_app. cbn. lia.
  - rewrite (leaked_snoc s _ next) by reflexivity.
    rewrite Hcall. lia.
Qed.

Lemma enqueue_sound cfg jobFunc s :
  sound cfg s -> sound cfg (fst (enqueue cfg jobFunc s)).
Proof.
  intros Hs. destruct (enqueue_state cfg jobFunc s) as [[_ ->] | [Hroom ->]]; [done |].
  destruct Hs as (Hc & Hw & Hf & Ha). repeat split.
  - by apply processQueue_capped.
  - apply processQueue_work_conserving. cbn. intros Hlt.
    rewrite Hw by lia. cbn. lia.
  - apply processQueue_fifo. unfold fifo in *. cbn.
    by rewrite app_assoc, Hf.
  - by apply processQueue_accounted.
Qed.

Lemma settle_sound cfg i o s r :
  sound cfg s -> settle cfg i o s = Some r -> sound cfg (fst r).
Proof.
  intros (Hc & Hw & Hf & Ha) Hs. apply settle_state in Hs as [Hi ->].
  repeat split.
  - apply processQueue_capped. unfold capped in *. cbn. lia.
  - apply processQueue_work_conserving. cbn. intros Hlt.
    rewrite Hw by lia. cbn. lia.
  - by apply processQueue_fifo.
  - apply processQueue_accounted. unfold accounted, leaked in *. cbn.
    rewrite length_delete by done.
    destruct Hi as [j Hi]. apply lookup_lt_Some in Hi. lia.
Qed.

Lemma step_sound cfg e s s' :
  sound cfg s -> step cfg e s = Some s' -> sound cfg s'.
Proof.
  intros Hs. destruct e as [jobFunc | i o]; cbn.
  - intros [= <-]. by apply enqueue_sound.
  - destruct (settle cfg i o s) as [r |] eqn:Hr; cbn; [| done].
    intros [= <-]. by eapply settle_sound.
Qed.

Lemma run_sound cfg evs s s' :
  sound cfg s -> run cfg evs s = Some s' -> sound cfg s'.
Proof.
  revert s. induction evs as [| e evs IH]; intros s Hs; cbn.
  - by intros [= <-].
  - destruct (step cfg e s) as [s1 |] eqn:He; [| done].
    apply IH. eapply step_sound; eauto.
Qed.

Lemma init_sound cfg : sound cfg init.
Proof.
  repeat split; cbn; try done. unfold capped. cbn. lia.
Qed.

Lemma init_bounded cfg :
  0 <= MAX_CONCURRENT cfg -> 0 <= MAX_QUEUE_SIZE cfg -> bounded cfg init.
Proof. intros H1 H2. split; cbn; lia. Qed.

Lemma processQueue_admitted cfg s :
  admitted (fst (processQueue cfg s)) = admitted s.
Proof. by drain_cases cfg s. Qed.

Lemma step_admitted cfg e s s' :
  step cfg e s = Some s' ->
  admitted s' = admitted s \/
  (exists jobFunc, e = Enqueue jobFunc /\
     Z.of_nat (length (queue s)) < MAX_QUEUE_SIZE cfg /\
     admitted s' = admitted s ++ [jobFunc]).
Proof.
  destruct e as [jobFunc | i o]; cbn.
  - intros [= <-].
    destruct (enqueue_state cfg jobFunc s) as [[_ ->] | [Hroom ->]]; [by left |].
    right. exists jobFunc. by rewrite processQueue_admitted.
  - destruct (settle cfg i o s) as [r |] eqn:Hr; cbn; [| done].
    intros [= <-]. apply settle_state in Hr as [_ ->].
    left. by rewrite processQueue_admitted.
Qed.

Lemma run_admitted cfg evs s s' :
  never_at_capacity cfg evs s -> run cfg evs s = Some s' ->
  admitted s' = admitted s ++ submitted evs.
Proof.
  revert s. induction evs as [| e evs IH]; intros s; cbn.
  - intros _ [= <-]. by rewrite app_nil_r.
  - intros [Hroom Hrest]. destruct (step cfg e s) as [s1 |] eqn:He; [| done].
    intros Hrun. rewrite (IH s1 Hrest Hrun).
    destruct e as [jobFunc | i o].
    + cbn in He. injection He as <-. unfold submitted. cbn.
      destruct (enqueue_state cfg jobFunc s) as [[Hfull _] | [_ ->]]; [lia |].
      rewrite processQueue_admitted. cbn. by rewrite <- app_assoc.
    + destruct (step_admitted _ _ _ _ He) as [-> | (j & [=] & _)]. done.
Qed.

Lemma run_async_only cfg evs s s' :
  async_only s ->
  Forall (fun j => returns_promise j = true) (submitted evs) ->
  run cfg evs s = Some s' -> async_only s'.
Proof.
  revert s. induction evs as [| e evs IH]; intros s Ha; cbn.
  - by intros _ [= <-].
  - destruct (step cfg e s) as [s1 |] eqn:He; [| done].
    intros Hsub. apply IH.
    + unfold async_only in *.
      destruct (step_admitted _ _ _ _ He) as [-> | (j & -> & _ & ->)]; [done |].
      apply Forall_app. split; [done |].
      unfold submitted in Hsub. cbn in Hsub.
      apply Forall_cons in Hsub as [Hj _]. by constructor.
    + destruct e; unfold submitted in *; cbn in *; [| done].
      by apply Forall_cons in Hsub as [_ ?].
Qed.

Lemma async_no_leak s : fifo s -> async_only s -> leaked s = 0.
Proof.
  unfold fifo, async_only, leaked. intros Hf Ha.
  rewrite <- Hf in Ha. apply Forall_app in Ha as [Hs _]. clear Hf.
  induction Hs as [| j l Hj _ IH]; [done |].
  rewrite filter_cons_False by (rewrite Hj; done). exact IH.
Qed.

Lemma quiescent cfg s :
  0 < MAX_CONCURRENT cfg -> sound cfg s -> async_only s ->
  inflight s = [] -> queue s = [] /\ started s = admitted s.
Proof.
  intros Hpos (Hc & Hw & Hf & Ha) Hasync Hnone.
  unfold accounted in Ha. rewrite Hnone, (async_no_leak s Hf Hasync) in Ha.
  cbn in Ha. assert (Hq : queue s = []) by (apply Hw; lia).
  split; [done |]. unfold fifo in Hf. by rewrite Hq, app_nil_r in Hf.
Qed.

Lemma drain_quiesces cfg fuel s :
  0 < MAX_CONCURRENT cfg -> sound cfg s -> async_only s ->
  (length (inflight s) + length (queue s) <= fuel)%nat ->
  let s' := drain cfg fuel s in
  inflight s' = [] /\ sound cfg s' /\ async_only s' /\ admitted s' = admitted s.
Proof.
  intros Hpos. revert s.
  induction fuel as [| fuel IH]; intros s Hs Hasync Hfuel; cbn.
  - destruct (inflight s); [done | cbn in Hfuel; lia].
  - unfold settle. destruct (inflight s) as [| j l] eqn:Hin; cbn; [done |].
    set (d := decrement (forget 0 s)).
    assert (Hr : settle cfg 0 Fulfilled s = Some (processQueue cfg d)).
    { unfold settle. by rewrite Hin. }
    pose proof (settle_sound _ _ _ _ _ Hs Hr) as Hs1.
    assert (Hadm : admitted (fst (processQueue cfg d)) = admitted s)
      by (by rewrite processQueue_admitted).
    assert (Hasync1 : async_only (fst (processQueue cfg d)))
      by (unfold async_only; by rewrite Hadm).
    change (on_settled cfg (forget 0 s)) with (processQueue cfg d).
    destruct (IH (fst (processQueue cfg d)) Hs1 Hasync1) as (H1 & H2 & H3 & H4).
    + destruct Hs as (Hc & Hw & Hf & Ha).
      assert (Hd : inflight d = l) by (unfold d; cbn; by rewrite Hin).
      assert (Hdq : queue d = queue s) by done.
      drain_cases cfg d; cbn [fst inflight queue].
      * unfold d in Hbusy. cbn in Hbusy. unfold capped in Hc. lia.
      * rewrite Hd, Hq. rewrite <- Hdq, Hq in Hfuel. cbn in Hfuel. cbn. lia.
      * rewrite Hd, length_app. rewrite <- Hdq, Hq in Hfuel.
        cbn in *. lia.
      * exfalso. unfold async_only, fifo in *. rewrite <- Hf in Hasync.
        apply Forall_app in Hasync as [_ Hqs]. rewrite <- Hdq, Hq in Hqs.
        apply Forall_cons in Hqs as [Hj _]. congruence.
    + split; [done | split; [done | split; [done |]]]. by rewrite H4.
Qed.

(** ** Slots that are never given back *)

Lemma processQueue_unaccounted cfg s :
  unaccounted s <= unaccounted (fst (processQueue cfg s)).
Proof.
  unfold unaccounted. drain_cases cfg s; cbn; try lia.
  rewrite length_app. cbn. lia.
Qed.

Lemma step_unaccounted cfg e s s' :
  step cfg e s = Some s' -> unaccounted s <= unaccounted s'.
Proof.
  destruct e as [jobFunc | i o]; cbn.
  - intros [= <-].
    destruct (enqueue_state cfg jobFunc s) as [[_ ->] | [_ ->]]; [lia |].
    etrans; [| apply processQueue_unaccounted]. unfold unaccounted. cbn. lia.
  - destruct (settle cfg i o s) as [r |] eqn:Hr; cbn; [| done].
    intros [= <-]. apply settle_state in Hr as [[j Hi] ->].
    etrans; [| apply processQueue_unaccounted]. unfold unaccounted. cbn.
    rewrite length_delete by eauto. apply lookup_lt_Some in Hi. lia.
Qed.

Lemma run_unaccounted cfg evs s s' :
  run cfg evs s = Some s' -> unaccounted s <= unaccounted s'.
Proof.
  revert s. induction evs as [| e evs IH]; intros s; cbn.
  - intros [= <-]. lia.
  - destruct (step cfg e s) as [s1 |] eqn:He; [| done].
    intros Hrun. etrans; [by eapply step_unaccounted | by apply IH].
Qed.

Lemma run_exhausted cfg evs s s' :
  MAX_CONCURRENT cfg <= running s -> inflight s = [] ->
  run cfg evs s = Some s' ->
  started s' = started s /\ inflight s' = [] /\ running s' = running s.
Proof.
  revert s. induction evs as [| e evs IH]; intros s Hfull Hnone; cbn.
  - by intros [= <-].
  - destruct e as [jobFunc | i o]; cbn.
    + destruct (enqueue_state cfg jobFunc s) as [[_ ->] | [_ ->]].
      * by apply IH.
      * drain_cases cfg (push jobFunc s); cbn in *; try lia.
        intros Hrun. by apply (IH (push jobFunc s)) in Hrun.
    + unfold settle. by rewrite Hnone.
Qed.

(** ** Main results on the queue *)

(** C1. Queue-state invariant: [running <= MAX_CONCURRENT] and
    [len(pending) <= MAX_QUEUE_SIZE] hold in the initial state, are kept by
    [enqueue], by a drain step ([processQueue]) and by the completion
    callback, and so hold after every run; the units really in flight are
    no more than [running]. *)
Theorem C1_queue_state_invariant cfg :
  0 <= MAX_CONCURRENT cfg -> 0 <= MAX_QUEUE_SIZE cfg ->
  bounded cfg init /\
  (forall jobFunc s,
      bounded cfg s -> bounded cfg (fst (enqueue cfg jobFunc s))) /\
  (forall s, bounded cfg s -> bounded cfg (fst (processQueue cfg s))) /\
  (forall s, bounded cfg s -> bounded cfg (fst (on_settled cfg s))) /\
  (forall evs s, run cfg evs init = Some s ->
      running s <= MAX_CONCURRENT cfg /\
      Z.of_nat (length (queue s)) <= MAX_QUEUE_SIZE cfg /\
      Z.of_nat (length (inflight s)) <= running s).
Proof.
  intros Hc Hq.
  split; [by apply init_bounded |].
  split; [intros; by apply enqueue_bounded |].
  split; [intros; by apply processQueue_bounded |].
  split; [intros; by apply on_settled_bounded |].
  intros evs s Hrun.
  destruct (run_bounded cfg evs init s (init_bounded cfg Hc Hq) Hrun) as [Hr Hl].
  destruct (run_sound cfg evs init s (init_sound cfg) Hrun) as (_ & _ & _ & Ha).
  unfold accounted, leaked in Ha. lia.
Qed.

Lemma C1_queue_state_invariant_witness :
  0 <= MAX_CONCURRENT executor_config /\
  0 <= MAX_QUEUE_SIZE executor_config /\
  bounded executor_config
    (fst (enqueue executor_config (unit_of_work 2)
            (fst (enqueue executor_config (unit_of_work 1) init)))).
Proof.
  assert (H1 : 0 <= MAX_CONCURRENT executor_config) by (cbn; lia).
  assert (H2 : 0 <= MAX_QUEUE_SIZE executor_config) by (cbn; lia).
  split; [exact H1 | split; [exact H2 |]].
  destruct (C1_queue_state_invariant executor_config H1 H2)
    as (Hinit & Henq & _).
  apply Henq, Henq, Hinit.
Defined.

(** C3. Admission capacity: at capacity [enqueue] returns [false] and
    changes nothing; below capacity it appends the unit, which goes last in
    the order of service, and returns [true], the units on the queue being
    functions that return a promise; when no slot is free the new state is
    the old one with the unit pushed.  In a run of the queue it is enough
    that the unit submitted returns a promise, or that no slot is free,
    for [enqueue] to return [true].  With [MAX_CONCURRENT = 1] and
    [MAX_QUEUE_SIZE = 2], of four submissions in a row the first three are
    accepted (the first starts, two are pending) and the fourth is
    refused. *)
Theorem C3_admission_capacity :
  (forall cfg jobFunc s,
      MAX_QUEUE_SIZE cfg <= Z.of_nat (length (queue s)) ->
      enqueue cfg jobFunc s = (s, Normal false)) /\
  (forall cfg jobFunc s,
      Z.of_nat (length (queue s)) < MAX_QUEUE_SIZE cfg ->
      Forall (fun j => returns_promise j = true) (queue s ++ [jobFunc]) ->
      exists s',
        enqueue cfg jobFunc s = (s', Normal true) /\
        admitted s' = admitted s ++ [jobFunc] /\
        started s' ++ queue s' = started s ++ queue s ++ [jobFunc] /\
        (MAX_CONCURRENT cfg <= running s -> s' = push jobFunc s)) /\
  (forall cfg evs jobFunc s,
      run cfg evs init = Some s ->
      Z.of_nat (length (queue s)) < MAX_QUEUE_SIZE cfg ->
      returns_promise jobFunc = true \/ MAX_CONCURRENT cfg <= running s ->
      snd (enqueue cfg jobFunc s) = Normal true /\
      admitted (fst (enqueue cfg jobFunc s)) = admitted s ++ [jobFunc]) /\
  (let cfg := {| MAX_CONCURRENT := 1; MAX_QUEUE_SIZE := 2 |} in
   let submissions :=
     [Enqueue (unit_of_work 1); Enqueue (unit_of_work 2);
      Enqueue (unit_of_work 3); Enqueue (unit_of_work 4)] in
   answers cfg submissions init =
     [Normal true; Normal true; Normal true; Normal false] /\
   run cfg submissions init =
     Some {| running := 1;
             queue := [unit_of_work 2; unit_of_work 3];
             admitted := [unit_of_work 1; unit_of_work 2; unit_of_work 3];
             started := [unit_of_work 1];
             inflight := [unit_of_work 1] |}).
Proof.
  split; [intros; by apply enqueue_full |].
  split; [| split; [| by split]].
  - intros cfg jobFunc s Hroom Hasync.
    rewrite enqueue_room by done.
    drain_cases cfg (push jobFunc s); cbn in *.
    + by exists (push jobFunc s).
    + by destruct (queue s).
    + eexists. split; [done |]. cbn. rewrite <- app_assoc. cbn. rewrite <- Hq.
      repeat split; try done. lia.
    + exfalso. rewrite Hq in Hasync. apply Forall_cons in Hasync as [Hj _].
      congruence.
  - intros cfg evs jobFunc s Hrun Hroom Hok.
    destruct (run_sound cfg evs init s (init_sound cfg) Hrun) as (_ & Hw & _).
    rewrite enqueue_room by done.
    drain_cases cfg (push jobFunc s); cbn in *; try done.
    exfalso. rewrite (Hw Hidle) in Hq. injection Hq as <- _.
    destruct Hok as [Hok | Hok]; [congruence | lia].
Qed.

Lemma C3_admission_capacity_witness :
  let cfg := {| MAX_CONCURRENT := 1; MAX_QUEUE_SIZE := 2 |} in
  let full :=
    {| running := 1;
       queue := [unit_of_work 2; unit_of_work 3];
       admitted := [unit_of_work 1; unit_of_work 2; unit_of_work 3];
       started := [unit_of_work 1];
       inflight := [unit_of_work 1] |} in
  enqueue cfg (unit_of_work 4) full = (full, Normal false) /\
  exists s', enqueue cfg (unit_of_work 1) init = (s', Normal true) /\
             admitted s' = [unit_of_work 1].
Proof.
  cbv zeta. split.
  - apply (proj1 C3_admission_capacity). cbn. lia.
  - destruct (proj1 (proj2 C3_admission_capacity)
                {| MAX_CONCURRENT := 1; MAX_QUEUE_SIZE := 2 |}
                (unit_of_work 1) init) as (s' & He & Ha & _).
    + cbn. lia.
    + cbn. by repeat constructor.
    + exists s'. split; [exact He | exact Ha].
Defined.

(** C4. FIFO, exactly once: in a run of the queue in which no submission
    finds the queue at capacity and the units return promises, the units
    started followed by the units pending are the units submitted, in
    their order of submission; when nothing is in flight every unit has
    been started; and once the promises in flight and those started after
    them have settled every unit has been started, once, in that order. *)
Theorem C4_fifo_exactly_once cfg evs s :
  0 < MAX_CONCURRENT cfg ->
  Forall (fun j => returns_promise j = true) (submitted evs) ->
  never_at_capacity cfg evs init ->
  run cfg evs init = Some s ->
  started s ++ queue s = submitted evs /\
  (inflight s = [] -> started s = submitted evs /\ queue s = []) /\
  let s' := drain cfg (length (inflight s) + length (queue s)) s in
  started s' = submitted evs /\ queue s' = [] /\ inflight s' = [].
Proof.
  intros Hpos Hasync Hroom Hrun.
  pose proof (run_sound cfg evs init s (init_sound cfg) Hrun) as Hs.
  pose proof (run_admitted cfg evs init s Hroom Hrun) as Hadm. cbn in Hadm.
  assert (Ha : async_only s).
  { eapply run_async_only; [| exact Hasync | exact Hrun]. constructor. }
  split; [| split].
  - rewrite <- Hadm. apply Hs.
  - intros Hnone. destruct (quiescent cfg s Hpos Hs Ha Hnone) as [Hq Hst].
    by rewrite Hst, Hadm.
  - destruct (drain_quiesces cfg (length (inflight s) + length (queue s)) s
                Hpos Hs Ha) as (Hnone & Hs' & Ha' & Hadm'); [lia |].
    destruct (quiescent cfg _ Hpos Hs' Ha' Hnone) as [Hq Hst].
    cbv zeta. by rewrite Hst, Hadm', Hadm.
Qed.

Lemma C4_fifo_exactly_once_witness :
  let evs :=
    [Enqueue (unit_of_work 1); Enqueue (unit_of_work 2);
     Settle 0 Rejected; Enqueue (unit_of_work 3)] in
  exists s,
    run executor_config evs init = Some s /\
    started (drain executor_config
               (length (inflight s) + length (queue s)) s) =
      [unit_of_work 1; unit_of_work 2; unit_of_work 3].
Proof.
  cbv zeta. eexists. split; [reflexivity |].
  refine (proj1 (proj2 (proj2 (C4_fifo_exactly_once executor_config
    [Enqueue (unit_of_work 1); Enqueue (unit_of_work 2);
     Settle 0 Rejected; Enqueue (unit_of_work 3)] _ _ _ _ _)))).
  - cbn. lia.
  - cbn. by repeat constructor.
  - cbn. repeat (split; [lia |]). repeat (split; [done |]). done.
  - reflexivity.
Defined.

(** The unhandled rejections of a run that ends with a rejected promise. *)
Lemma unhandled_snoc cfg evs s0 s i jobFunc r :
  run cfg evs s0 = Some s ->
  inflight s !! i = Some jobFunc ->
  settle cfg i Rejected s = Some r ->
  unhandled cfg (evs ++ [Settle i Rejected]) s0 =
    unhandled cfg evs s0 ++ [jobFunc].
Proof.
  intros Hrun Hi Hr. revert s0 Hrun.
  induction evs as [| e evs IH]; intros s0; cbn [app run unhandled].
  - intros [= ->]. rewrite Hi, Hr. by destruct (snd r).
  - destruct e as [j | k o]; cbn [step].
    + apply IH.
    + destruct (settle cfg k o s0) as [r0 |] eqn:Hs0; cbn; [| done].
      destruct (settle_state _ _ _ _ _ Hs0) as [[x Hx] _]. rewrite Hx.
      intros Hrun. rewrite (IH _ Hrun).
      by destruct (finally_promise o (snd r0)).
Qed.

(** C5, as the code has it.  The pump does not stall on a failing job:
    when a promise in flight settles, the callback does the same whether
    it was fulfilled or rejected; it takes one off [running] and drains,
    so the head of the pending sequence, if there is one, is started in
    the slot just freed; afterwards there is no free slot beside a
    pending unit; and the callback returns normally when the pending
    units return promises.  But the queue does not take the error of the
    unit on itself: the promise that [finally] returns is rejected
    whenever the unit's promise was, nothing handles it, and the unit is
    among the unhandled rejections of the run. *)
Theorem C5_pump_never_stalls_error_unhandled cfg evs s i o r :
  run cfg evs init = Some s ->
  settle cfg i o s = Some r ->
  settle cfg i Fulfilled s = Some r /\
  settle cfg i Rejected s = Some r /\
  match queue s with
  | [] =>
      running (fst r) = running s - 1 /\
      started (fst r) = started s /\ queue (fst r) = []
  | head :: rest =>
      running (fst r) = running s /\
      started (fst r) = started s ++ [head] /\ queue (fst r) = rest
  end /\
  ~ (running (fst r) < MAX_CONCURRENT cfg /\ queue (fst r) <> []) /\
  (Forall (fun j => returns_promise j = true) (queue s) ->
   snd r = Normal tt /\ finally_promise o (snd r) = o) /\
  finally_promise Rejected (snd r) = Rejected /\
  exists jobFunc,
    inflight s !! i = Some jobFunc /\
    unhandled cfg (evs ++ [Settle i Rejected]) init =
      unhandled cfg evs init ++ [jobFunc].
Proof.
  intros Hrun Hr.
  pose proof (run_sound cfg evs init s (init_sound cfg) Hrun) as Hs.
  pose proof (settle_sound cfg i o s r Hs Hr) as (_ & Hw' & _).
  assert (Hrej : settle cfg i Rejected s = Some r) by exact Hr.
  split; [exact Hr | split; [exact Hr |]].
  apply settle_state in Hr as [[j Hi] ->].
  destruct Hs as (Hc & Hw & Hf & Ha).
  assert (Hslot : running s - 1 < MAX_CONCURRENT cfg).
  { apply lookup_lt_Some in Hi. unfold capped in Hc.
    unfold accounted, leaked in Ha. lia. }
  split; [| split; [| split; [| split]]].
  - drain_cases cfg (decrement (forget i s)); cbn in *;
      try lia; rewrite Hq; repeat split; lia.
  - intros [Hlt Hne]. apply Hne, Hw', Hlt.
  - intros Hasync.
    assert (Hn : snd (processQueue cfg (decrement (forget i s))) = Normal tt).
    { drain_cases cfg (decrement (forget i s)); cbn in *; try done.
      rewrite Hq in Hasync. apply Forall_cons in Hasync as [Hj _].
      congruence. }
    split; [exact Hn |]. by rewrite Hn.
  - by destruct (snd (processQueue cfg (decrement (forget i s)))).
  - exists j. split; [exact Hi |].
    by apply (unhandled_snoc cfg evs init s i j _ Hrun Hi Hrej).
Qed.

Lemma C5_pump_never_stalls_error_unhandled_witness :
  let evs := [Enqueue (unit_of_work 1); Enqueue (unit_of_work 2)] in
  exists s r,
    run executor_config evs init = Some s /\
    settle executor_config 0 Rejected s = Some r /\
    started (fst r) = [unit_of_work 1; unit_of_work 2] /\
    running (fst r) = 1 /\ snd r = Normal tt /\
    unhandled executor_config (evs ++ [Settle 0 Rejected]) init =
      [unit_of_work 1].
Proof.
  cbv zeta. eexists. eexists.
  split; [reflexivity |]. split; [reflexivity |].
  destruct (C5_pump_never_stalls_error_unhandled executor_config
              [Enqueue (unit_of_work 1); Enqueue (unit_of_work 2)]
              _ 0 Rejected _ eq_refl eq_refl)
    as (_ & _ & (Hrunning & Hstarted & _) & _ & Hnormal & _ & j & Hj & Hun).
  split; [exact Hstarted |]. split; [exact Hrunning |].
  split; [apply Hnormal; cbn; by repeat constructor |].
  injection Hj as <-. exact Hun.
Defined.

(** C5 as it is stated fails: a unit is started, its promise is rejected,
    and although the queue goes on, the rejection comes out of the queue
    as the unhandled rejection of the promise that [finally] returned. *)
Lemma C5_counterexample :
  let evs := [Enqueue (unit_of_work 1); Settle 0 Rejected] in
  run executor_config evs init =
    Some {| running := 0; queue := []; admitted := [unit_of_work 1];
            started := [unit_of_work 1]; inflight := [] |} /\
  unhandled executor_config evs init = [unit_of_work 1] /\
  ~ (forall cfg evs s, run cfg evs init = Some s -> unhandled cfg evs init = []).
Proof.
  cbv zeta. split; [reflexivity |]. split; [reflexivity |].
  intros Hnone.
  by specialize (Hnone executor_config
                   [Enqueue (unit_of_work 1); Settle 0 Rejected] _ eq_refl).
Qed.

(** C10. A unit that throws when it is called: the exception leaves
    [processQueue] and [enqueue]; [running] has been raised and no
    callback is registered, so nothing will lower it again: through every
    later run the slots counted by [running] that no promise in flight
    accounts for never go down.  In every run of the queue [running] is the
    promises in flight plus one for each unit that threw, so each such
    unit takes one slot for good, and once they hold every slot no unit is
    started any more. *)
Theorem C10_sync_throw_leaks_slot cfg jobFunc s :
  returns_promise jobFunc = false ->
  queue s = [] ->
  running s < MAX_CONCURRENT cfg ->
  0 < MAX_QUEUE_SIZE cfg ->
  let s' := {| running := running s + 1;
               queue := [];
               admitted := admitted s ++ [jobFunc];
               started := started s ++ [jobFunc];
               inflight := inflight s |} in
  processQueue cfg (push jobFunc s) = (s', Throw) /\
  enqueue cfg jobFunc s = (s', Throw) /\
  (forall evs s'', run cfg evs s' = Some s'' ->
      unaccounted s + 1 <= unaccounted s'') /\
  (forall evs t, run cfg evs init = Some t ->
      running t = Z.of_nat (length (inflight t)) + leaked t /\
      Z.of_nat (length (inflight t)) <= Z.max 0 (MAX_CONCURRENT cfg) - leaked t) /\
  (forall evs t t',
      MAX_CONCURRENT cfg <= running t -> inflight t = [] ->
      run cfg evs t = Some t' -> started t' = started t).
Proof.
  intros Hthrow Hq Hidle Hroom s'.
  assert (Hp : processQueue cfg (push jobFunc s) = (s', Throw)).
  { unfold processQueue. cbn. rewrite Hq. cbn.
    destruct (Z.geb_spec (running s) (MAX_CONCURRENT cfg)); [lia |].
    unfold returns_promise in Hthrow.
    by destruct (job_call jobFunc). }
  split; [exact Hp |]. split; [| split; [| split]].
  - rewrite enqueue_room by (rewrite Hq; cbn; lia). by rewrite Hp.
  - intros evs s'' Hrun. apply run_unaccounted in Hrun.
    unfold unaccounted in *. cbn in Hrun. lia.
  - intros evs t Hrun.
    destruct (run_sound cfg evs init t (init_sound cfg) Hrun)
      as (Hc & _ & _ & Ha).
    unfold accounted, capped in *. lia.
  - intros evs t t' Hfull Hnone Hrun.
    by destruct (run_exhausted cfg evs t t' Hfull Hnone Hrun).
Qed.

Lemma C10_sync_throw_leaks_slot_witness :
  enqueue executor_config (faulty_unit 1) init =
    ({| running := 1; queue := []; admitted := [faulty_unit 1];
        started := [faulty_unit 1]; inflight := [] |}, Throw) /\
  forall evs t',
    run executor_config evs
      {| running := 1; queue := []; admitted := [faulty_unit 1];
         started := [faulty_unit 1]; inflight := [] |} = Some t' ->
    started t' = [faulty_unit 1].
Proof.
  destruct (C10_sync_throw_leaks_slot executor_config (faulty_unit 1) init)
    as (_ & Henq & _ & _ & Hstuck).
  - reflexivity.
  - reflexivity.
  - cbn. lia.
  - cbn. lia.
  - split; [exact Henq |].
    intros evs t' Hrun.
    apply (Hstuck evs
             {| running := 1; queue := []; admitted := [faulty_unit 1];
                started := [faulty_unit 1]; inflight := [] |} t');
      [cbn; lia | reflexivity | exact Hrun].
Defined.

End QueueFacts.

(** * Properties of the process runner *)

Module RunnerFacts.

Import Runner.

(** ** Strings *)

Lemma length_string_take n s :
  String.length (string_take n s) = Nat.min n (String.length s).
Proof.
  revert s. induction n as [| n IH]; intros [| c s]; cbn; try done.
  by rewrite IH.
Qed.

Lemma append_cons c s1 s2 : String c s1 +:+ s2 = String c (s1 +:+ s2).
Proof. reflexivity. Qed.

Lemma string_take_drop n s : string_take n s +:+ string_drop n s = s.
Proof.
  revert s. induction n as [| n IH]; intros [| c s]; cbn; try done.
  by rewrite append_cons, IH.
Qed.

Lemma length_append s1 s2 :
  String.length (s1 +:+ s2) = String.length s1 + String.length s2.
Proof.
  induction s1 as [| c s1 IH]; [done |].
  rewrite append_cons. cbn. by rewrite IH.
Qed.

Lemma length_flood n : String.length (flood n) = n.
Proof. induction n as [| n IH]; cbn; [done | by rewrite IH]. Qed.

Lemma truncate_spec s :
  String.length (truncate s) =
    Nat.min (Z.to_nat OUTPUT_LIMIT) (String.length s) /\
  exists dropped, s = truncate s +:+ dropped.
Proof.
  unfold truncate, slice. rewrite Nat.sub_0_r. split.
  - apply length_string_take.
  - exists (string_drop (Z.to_nat OUTPUT_LIMIT) s).
    symmetry. apply (string_take_drop (Z.to_nat OUTPUT_LIMIT) s).
Qed.

Lemma truncate_capped s :
  (Z.of_nat (String.length (truncate s)) <= OUTPUT_LIMIT)%Z.
Proof.
  destruct (truncate_spec s) as [-> _].
  assert (0 <= OUTPUT_LIMIT)%Z by done. lia.
Qed.

(** ** One invocation *)

Lemma coherent_refused jobId name e : coherent (refused jobId name e).
Proof. repeat split; done. Qed.

Lemma executing_emitting inv : executing inv = true -> emitting inv = true.
Proof.
  unfold executing, emitting, live, open.
  destruct (child inv) as [c |]; [| done]. by destruct (listeners c).
Qed.

Lemma coherent_data_stdout data inv :
  emitting inv = true -> coherent inv -> coherent (on_stdout_data data inv).
Proof.
  intros Hopen (Hlive & Hgone & Hres).
  split; [| split]; [exact Hlive | exact Hgone |].
  intros r Hr. destruct (Hres r Hr) as [_ Hclosed]. congruence.
Qed.

Lemma coherent_data_stderr data inv :
  emitting inv = true -> coherent inv -> coherent (on_stderr_data data inv).
Proof.
  intros Hopen (Hlive & Hgone & Hres).
  split; [| split]; [exact Hlive | exact Hgone |].
  intros r Hr. destruct (Hres r Hr) as [_ Hclosed]. congruence.
Qed.

Lemma armed_executing inv : coherent inv -> armed inv = true -> executing inv = true.
Proof.
  intros (_ & Hdead & _) Ha. destruct (executing inv) eqn:Hx; [done |].
  destruct (Hdead eq_refl) as [_ Hna]. congruence.
Qed.

Lemma executing_timeout inv : executing (on_timeout inv) = executing inv.
Proof. unfold executing. cbn. by destruct (child inv). Qed.

Lemma emitting_timeout inv : emitting (on_timeout inv) = emitting inv.
Proof. unfold emitting. cbn. by destruct (child inv). Qed.

Lemma coherent_timeout inv :
  armed inv = true -> coherent inv -> coherent (on_timeout inv).
Proof.
  intros Ha Hc. pose proof (armed_executing inv Hc Ha) as Hx.
  destruct Hc as (Hlive & _ & _). destruct (Hlive Hx) as [Hp Ht].
  split; [| split]; rewrite ?executing_timeout; cbn.
  - eauto.
  - congruence.
  - intros r. rewrite Hp. done.
Qed.

Lemma executing_close code inv : executing (on_close code inv) = false.
Proof. unfold executing. cbn. by destruct (child inv). Qed.

Lemma emitting_close code inv : emitting (on_close code inv) = false.
Proof. unfold emitting. cbn. by destruct (child inv). Qed.

Lemma executing_error err inv : executing (on_error err inv) = false.
Proof. unfold executing. cbn. by destruct (child inv). Qed.

Lemma emitting_error err inv :
  emitting inv = true -> emitting (on_error err inv) = true.
Proof.
  unfold emitting. cbn. destruct (child inv) as [c |]; [| done]. cbn.
  unfold open. cbn. done.
Qed.

Lemma armed_cleared (t : option timer) :
  match clearTimeout <$> t with Some (Armed _) => true | _ => false end = false.
Proof. by destruct t as [[] |]. Qed.

(** The listeners are not guarded, but a promise settles once: on a child
    that is no longer live they leave the promise as it is. *)
Lemma coherent_close code inv :
  emitting inv = true -> coherent inv -> coherent (on_close code inv).
Proof.
  intros Hopen (Hlive & Hgone & Hres).
  split; [| split]; rewrite ?executing_close.
  - done.
  - intros _. cbn. split; [by destruct (returned inv) | apply armed_cleared].
  - intros r. cbn. rewrite emitting_close.
    destruct (returned inv) as [| r0 | e] eqn:Hp; cbn; [| | done].
    + by intros [= <-].
    + destruct (Hres r0 eq_refl) as [_ Hclosed]. congruence.
Qed.

Lemma coherent_error err inv :
  emitting inv = true -> coherent inv -> coherent (on_error err inv).
Proof.
  intros Hopen (Hlive & Hgone & Hres).
  split; [| split]; rewrite ?executing_error.
  - done.
  - intros _. cbn. split; [by destruct (returned inv) | apply armed_cleared].
  - intros r. cbn.
    destruct (returned inv) as [| r0 | e] eqn:Hp; cbn; [done | | done].
    destruct (Hres r0 eq_refl) as [_ Hclosed]. congruence.
Qed.

(** ** The table of flags *)

Lemma marked_running_flag (flags : gmap string bool) name :
  flags !! name = Some true -> marked_running flags name = true.
Proof. unfold marked_running. by intros ->. Qed.

Lemma marked_running_released (flags : gmap string bool) name :
  marked_running (<[name := false]> flags) name = false.
Proof. unfold marked_running. by rewrite lookup_insert_eq. Qed.

Lemma coherent_spawned jobId name scriptPath args timeout :
  coherent (spawned jobId name scriptPath args timeout).
Proof. repeat split; cbn; eauto; done. Qed.

Lemma append_assoc (s1 s2 s3 : string) :
  (s1 +:+ s2) +:+ s3 = s1 +:+ (s2 +:+ s3).
Proof.
  induction s1 as [| c s1 IH]; [done |].
  by rewrite !append_cons, IH.
Qed.

Lemma append_empty_r (s : string) : s +:+ "" = s.
Proof.
  induction s as [| c s IH]; [done |].
  by rewrite append_cons, IH.
Qed.

Section Runs.

Variable basename : string -> string.
Variable extname : string -> string.
Variable toLowerCase : string -> string.
Variable spawn_throws : nat -> string -> list string -> option string.

Local Abbreviation runScript :=
  (Runner.runScript basename extname toLowerCase spawn_throws).
Local Abbreviation step :=
  (Runner.step basename extname toLowerCase spawn_throws).
Local Abbreviation run :=
  (Runner.run basename extname toLowerCase spawn_throws).

(** The four ways through [runScript]. *)
Lemma runScript_cases scriptPath args jobId st :
  let name := basename scriptPath in
  let ext := toLowerCase (extname scriptPath) in
  (marked_running (runningScripts st) name = true /\
   runScript scriptPath args jobId st =
     {| runningScripts := runningScripts st;
        invocations :=
          invocations st ++ [refused jobId name ScriptAlreadyRunning] |}) \/
  (marked_running (runningScripts st) name = false /\ ext <> ".py" /\
   runScript scriptPath args jobId st =
     {| runningScripts := <[name := false]> (<[name := true]> (runningScripts st));
        invocations :=
          invocations st ++ [refused jobId name (UnsupportedExtension ext)] |}) \/
  (marked_running (runningScripts st) name = false /\ ext = ".py" /\
   (exists err,
      spawn_throws (length (invocations st)) scriptPath args = Some err /\
      runScript scriptPath args jobId st =
        {| runningScripts := <[name := true]> (runningScripts st);
           invocations :=
             invocations st ++ [refused jobId name (SpawnThrew err)] |})) \/
  (marked_running (runningScripts st) name = false /\ ext = ".py" /\
   spawn_throws (length (invocations st)) scriptPath args = None /\
   runScript scriptPath args jobId st =
     {| runningScripts := <[name := true]> (runningScripts st);
        invocations :=
          invocations st ++
          [spawned jobId name scriptPath args (timeout_of name)] |}).
Proof.
  cbv zeta. unfold Runner.runScript.
  destruct (marked_running (runningScripts st) (basename scriptPath)); [by left |].
  right. case_bool_decide as Hext; [by left | right].
  assert (Hpy : toLowerCase (extname scriptPath) = ".py").
  { by destruct (decide (toLowerCase (extname scriptPath) = ".py")). }
  destruct (spawn_throws (length (invocations st)) scriptPath args)
    as [err |] eqn:Hspawn.
  - left. split; [done |]. split; [done |]. by exists err.
  - by right.
Qed.

(** Every call adds one invocation, with empty buffers, and touches no
    other. *)
Lemma runScript_adds scriptPath args jobId st :
  exists inv,
    invocations (runScript scriptPath args jobId st) = invocations st ++ [inv] /\
    inv_jobId inv = jobId /\ scriptName inv = basename scriptPath /\
    stdout_buf inv = "" /\ stderr_buf inv = "" /\ coherent inv.
Proof.
  destruct (runScript_cases scriptPath args jobId st)
    as [[_ ->] | [(_ & _ & ->) | [(_ & _ & err & _ & ->) | (_ & _ & _ & ->)]]];
    cbn; eexists; (split; [reflexivity |]); repeat split; done || eauto.
Qed.

(** What an event of a child does: one invocation is replaced. *)
Lemma step_event e st st' :
  step e st = Some st' ->
  match e with
  | Call scriptPath args jobId => st' = runScript scriptPath args jobId st
  | StdoutData k data =>
      exists inv, invocations st !! k = Some inv /\ emitting inv = true /\
                  st' = update k (on_stdout_data data inv) st
  | StderrData k data =>
      exists inv, invocations st !! k = Some inv /\ emitting inv = true /\
                  st' = update k (on_stderr_data data inv) st
  | TimerFires k =>
      exists inv, invocations st !! k = Some inv /\ armed inv = true /\
                  st' = update k (on_timeout inv) st
  | Close k code =>
      exists inv, invocations st !! k = Some inv /\ emitting inv = true /\
                  st' = release k (on_close code inv) st
  | Error k err =>
      exists inv, invocations st !! k = Some inv /\ emitting inv = true /\
                  st' = release k (on_error err inv) st
  end.
Proof.
  destruct e as [scriptPath args jobId | k data | k data | k | k code | k err];
    cbn; [by intros [= <-] | | | | |];
    (destruct (invocations st !! k) as [inv |] eqn:Hk; cbn; [| done]).
  - destruct (emitting inv) eqn:Hg; [| done]. intros [= <-]. eauto.
  - destruct (emitting inv) eqn:Hg; [| done]. intros [= <-]. eauto.
  - destruct (armed inv) eqn:Hg; [| done]. intros [= <-]. eauto.
  - destruct (emitting inv) eqn:Hg; [| done]. intros [= <-]. eauto.
  - destruct (emitting inv) eqn:Hg; [| done]. intros [= <-]. eauto.
Qed.

(** An event of a child replaces one invocation by one with the same job
    identifier and program name; a promise that had settled stays as it
    was, a child that was not live is not live, and the buffers change by
    the chunk of a data event only. *)
Lemma step_touch e st st' :
  step e st = Some st' ->
  (forall scriptPath args jobId, e <> Call scriptPath args jobId) ->
  exists k inv inv',
    invocations st !! k = Some inv /\
    invocations st' = <[k := inv']> (invocations st) /\
    inv_jobId inv' = inv_jobId inv /\
    scriptName inv' = scriptName inv /\
    (returned inv <> Pending -> returned inv' = returned inv) /\
    (executing inv' = true -> executing inv = true) /\
    (coherent inv -> coherent inv') /\
    (forall w, stdout_buf inv' +:+ RunnerViews.stdout_written k w =
               stdout_buf inv +:+ RunnerViews.stdout_written k (e :: w)) /\
    (forall w, stderr_buf inv' +:+ RunnerViews.stderr_written k w =
               stderr_buf inv +:+ RunnerViews.stderr_written k (e :: w)) /\
    (forall k0 w, k0 <> k ->
       RunnerViews.stdout_written k0 (e :: w) = RunnerViews.stdout_written k0 w /\
       RunnerViews.stderr_written k0 (e :: w) = RunnerViews.stderr_written k0 w) /\
    (is_Some (child inv') -> is_Some (child inv)) /\
    (runningScripts st' = runningScripts st \/
     is_Some (child inv) /\
     runningScripts st' = <[scriptName inv := false]> (runningScripts st)).
Proof.
  intros He Hcall. apply step_event in He.
  assert (Hchild : forall inv, emitting inv = true -> is_Some (child inv)).
  { intros inv. unfold emitting. by destruct (child inv). }
  destruct e as [scriptPath args jobId | k data | k data | k | k code | k err];
    [by destruct (Hcall scriptPath args jobId) | | | | |];
    destruct He as (inv & Hk & Hg & ->); exists k, inv; eexists;
    (split; [exact Hk |]); (split; [reflexivity |]);
    (split; [reflexivity |]); (split; [reflexivity |]).
  - split; [done |]. split; [done |].
    split; [by apply coherent_data_stdout |].
    split; [| split; [| split; [| split]]]; cbn.
    + intros w. rewrite decide_True by done. apply append_assoc.
    + done.
    + intros k0 w Hne. by rewrite decide_False by congruence.
    + done.
    + by left.
  - split; [done |]. split; [done |].
    split; [by apply coherent_data_stderr |].
    split; [| split; [| split; [| split]]]; cbn.
    + done.
    + intros w. rewrite decide_True by done. apply append_assoc.
    + intros k0 w Hne. by rewrite decide_False by congruence.
    + done.
    + by left.
  - split; [done |]. split; [by rewrite executing_timeout |].
    split; [by apply coherent_timeout |].
    do 3 (split; [done |]).
    split; [cbn; by destruct (child inv) | by left].
  - split; [cbn; by destruct (returned inv) |].
    split; [by rewrite executing_close |].
    split; [by apply coherent_close |].
    do 3 (split; [done |]).
    split; [cbn; by destruct (child inv) |]. right. split; [auto | done].
  - split; [cbn; by destruct (returned inv) |].
    split; [by rewrite executing_error |].
    split; [by apply coherent_error |].
    do 3 (split; [done |]).
    split; [cbn; by destruct (child inv) |]. right. split; [auto | done].
Qed.

Lemma call_or_child (e : event) :
  (exists scriptPath args jobId, e = Call scriptPath args jobId) \/
  (forall scriptPath args jobId, e <> Call scriptPath args jobId).
Proof. destruct e; [left; eauto | right .. ]; done. Qed.

Lemma runScript_healthy scriptPath args jobId st :
  healthy st -> healthy (runScript scriptPath args jobId st).
Proof.
  intros Hc. unfold healthy.
  destruct (runScript_adds scriptPath args jobId st)
    as (inv & -> & _ & _ & _ & _ & Hinv).
  apply Forall_app. split; [done |]. by constructor.
Qed.

Lemma step_healthy e st st' :
  healthy st -> step e st = Some st' -> healthy st'.
Proof.
  intros Hh He.
  destruct (call_or_child e) as [(scriptPath & args & jobId & ->) | Hne].
  - injection He as <-. by apply runScript_healthy.
  - destruct (step_touch e st st' He Hne)
      as (k & inv & inv' & Hk & Hinvs & _ & _ & _ & _ & Hkeep & _).
    unfold healthy. rewrite Hinvs. apply Forall_insert; [done |].
    apply Hkeep. by apply (Forall_lookup_1 _ _ _ _ Hh Hk).
Qed.

Lemma init_healthy : healthy init.
Proof. constructor. Qed.

Lemma run_healthy evs st st' :
  healthy st -> run evs st = Some st' -> healthy st'.
Proof.
  revert st. induction evs as [| e evs IH]; intros st Hh; cbn.
  - by intros [= <-].
  - destruct (step e st) as [st1 |] eqn:He; [| done].
    apply IH. by eapply step_healthy.
Qed.

Lemma lookup_updated (l : list invocation) k inv inv' :
  l !! k = Some inv -> <[k := inv']> l !! k = Some inv'.
Proof. intros Hk. apply list_lookup_insert_eq. by eapply lookup_lt_Some. Qed.

Lemma step_settled e st st' k inv :
  step e st = Some st' ->
  invocations st !! k = Some inv -> returned inv <> Pending ->
  exists inv', invocations st' !! k = Some inv' /\ returned inv' = returned inv.
Proof.
  intros He Hk Hp.
  destruct (call_or_child e) as [(scriptPath & args & jobId & ->) | Hne].
  - injection He as <-. exists inv. split; [| done].
    destruct (runScript_adds scriptPath args jobId st) as (new & -> & _).
    by apply lookup_app_l_Some.
  - destruct (step_touch e st st' He Hne)
      as (j & x & x' & Hj & -> & _ & _ & Hkeep & _).
    destruct (decide (j = k)) as [-> | Hjk].
    + exists x'. split; [by eapply lookup_updated |].
      rewrite Hk in Hj. injection Hj as <-. by apply Hkeep.
    + exists inv. by rewrite list_lookup_insert_ne.
Qed.

Lemma run_settled evs st st' k inv :
  run evs st = Some st' ->
  invocations st !! k = Some inv -> returned inv <> Pending ->
  exists inv', invocations st' !! k = Some inv' /\ returned inv' = returned inv.
Proof.
  revert st inv. induction evs as [| e evs IH]; intros st inv; cbn.
  - intros [= <-]. eauto.
  - destruct (step e st) as [st1 |] eqn:He; [| done].
    intros Hrun Hk Hp.
    destruct (step_settled e st st1 k inv He Hk Hp) as (inv1 & Hk1 & Hr1).
    destruct (IH st1 inv1 Hrun Hk1) as (inv' & Hk' & Hr'); [congruence |].
    exists inv'. split; [done | congruence].
Qed.

(** Every invocation keeps the job identifier and the program name of its
    call. *)
Lemma step_labels e st st' :
  step e st = Some st' ->
  labels st' =
    labels st ++ ((fun c => (c.1, basename c.2)) <$> calls [e]).
Proof.
  intros He.
  destruct (call_or_child e) as [(scriptPath & args & jobId & ->) | Hne].
  - injection He as <-. unfold labels, calls. cbn.
    destruct (runScript_adds scriptPath args jobId st)
      as (new & -> & Hid & Hname & _).
    rewrite fmap_app. cbn. by rewrite Hid, Hname.
  - destruct (step_touch e st st' He Hne)
      as (j & x & x' & Hj & Heq & Hid & Hname & _).
    assert (Hnone : calls [e] = []).
    { unfold calls. destruct e as [scriptPath args jobId | | | | |]; try done.
      by destruct (Hne scriptPath args jobId). }
    rewrite Hnone, app_nil_r. unfold labels.
    rewrite Heq, list_fmap_insert. apply list_insert_id.
    rewrite list_lookup_fmap, Hj. cbn. congruence.
Qed.

Lemma run_labels evs st st' :
  run evs st = Some st' ->
  labels st' = labels st ++ ((fun c => (c.1, basename c.2)) <$> calls evs).
Proof.
  revert st. induction evs as [| e evs IH]; intros st; cbn.
  - intros [= <-]. by rewrite app_nil_r.
  - destruct (step e st) as [st1 |] eqn:He; [| done].
    intros Hrun. rewrite (IH st1 Hrun), (step_labels e st st1 He).
    rewrite <- app_assoc, <- fmap_app. do 2 f_equal.
    unfold calls. cbn. by destruct e.
Qed.

Lemma close_resolves st k inv code :
  invocations st !! k = Some inv -> executing inv = true ->
  returned inv = Pending ->
  step (Close k code) st = Some (release k (on_close code inv) st) /\
  invocations (release k (on_close code inv) st) !! k =
    Some (on_close code inv) /\
  returned (on_close code inv) = Resolved (close_result code inv).
Proof.
  intros Hk Hx Hp. cbn. rewrite Hk. cbn.
  rewrite (executing_emitting inv Hx), Hp.
  split; [done |]. split; [by eapply lookup_updated | done].
Qed.

Lemma refused_when_marked st scriptPath args jobId :
  marked_running (runningScripts st) (basename scriptPath) = true ->
  runScript scriptPath args jobId st =
    {| runningScripts := runningScripts st;
       invocations :=
         invocations st ++
         [refused jobId (basename scriptPath) ScriptAlreadyRunning] |}.
Proof.
  intros Hm.
  destruct (runScript_cases scriptPath args jobId st)
    as [[_ ->] | [(Hf & _) | [(Hf & _) | (Hf & _)]]]; [done | | |];
    cbv zeta in Hf; congruence.
Qed.

Lemma spawned_when_free st scriptPath args jobId :
  marked_running (runningScripts st) (basename scriptPath) = false ->
  toLowerCase (extname scriptPath) = ".py" ->
  spawn_throws (length (invocations st)) scriptPath args = None ->
  runScript scriptPath args jobId st =
    {| runningScripts := <[basename scriptPath := true]> (runningScripts st);
       invocations :=
         invocations st ++
         [spawned jobId (basename scriptPath) scriptPath args
            (timeout_of (basename scriptPath))] |}.
Proof.
  intros Hm Hext Hspawn.
  destruct (runScript_cases scriptPath args jobId st)
    as [[Hf _] | [(_ & Hne & _) | [(_ & _ & err & Hthrow & _) | (_ & _ & _ & ->)]]];
    [| | | done]; cbv zeta in *; congruence.
Qed.

(** When [spawn] throws, the executor of the promise throws: the promise
    is rejected with what was thrown, there is neither child nor timer,
    and the flag, set just before, stays set. *)
Lemma rejected_when_spawn_throws st scriptPath args jobId err :
  marked_running (runningScripts st) (basename scriptPath) = false ->
  toLowerCase (extname scriptPath) = ".py" ->
  spawn_throws (length (invocations st)) scriptPath args = Some err ->
  runScript scriptPath args jobId st =
    {| runningScripts := <[basename scriptPath := true]> (runningScripts st);
       invocations :=
         invocations st ++
         [refused jobId (basename scriptPath) (SpawnThrew err)] |}.
Proof.
  intros Hm Hext Hspawn.
  destruct (runScript_cases scriptPath args jobId st)
    as [[Hf _] | [(_ & Hne & _) | [(_ & _ & err' & Hthrow & ->) | (_ & _ & Hret & _)]]];
    cbv zeta in *; [congruence | congruence | | congruence].
  rewrite Hspawn in Hthrow. by injection Hthrow as <-.
Qed.

(** ** What is written and what is kept *)

Lemma step_written e st st1 k inv :
  step e st = Some st1 -> invocations st !! k = Some inv ->
  exists inv1,
    invocations st1 !! k = Some inv1 /\
    (forall w, stdout_buf inv1 +:+ RunnerViews.stdout_written k w =
               stdout_buf inv +:+ RunnerViews.stdout_written k (e :: w)) /\
    (forall w, stderr_buf inv1 +:+ RunnerViews.stderr_written k w =
               stderr_buf inv +:+ RunnerViews.stderr_written k (e :: w)).
Proof.
  intros He Hk.
  destruct (call_or_child e) as [(scriptPath & args & jobId & ->) | Hne].
  - injection He as <-. exists inv. split; [| done].
    destruct (runScript_adds scriptPath args jobId st) as (new & -> & _).
    by apply lookup_app_l_Some.
  - destruct (step_touch e st st1 He Hne)
      as (j & x & x' & Hj & Heq & _ & _ & _ & _ & _ & Ho & Herr & Hoth & _).
    rewrite Heq. destruct (decide (j = k)) as [-> | Hjk].
    + exists x'. rewrite Hk in Hj. injection Hj as <-.
      split; [by eapply lookup_updated | done].
    + exists inv. rewrite list_lookup_insert_ne by done.
      split; [done |].
      split; intros w;
        destruct (Hoth k w ltac:(congruence)) as [Ho1 He1]; congruence.
Qed.

Lemma run_written_from evs st st' k inv :
  run evs st = Some st' -> invocations st !! k = Some inv ->
  exists inv',
    invocations st' !! k = Some inv' /\
    stdout_buf inv' = stdout_buf inv +:+ RunnerViews.stdout_written k evs /\
    stderr_buf inv' = stderr_buf inv +:+ RunnerViews.stderr_written k evs.
Proof.
  revert st inv. induction evs as [| e evs IH]; intros st inv; cbn [Runner.run].
  - intros [= <-] Hk. exists inv. cbn. by rewrite !append_empty_r.
  - destruct (step e st) as [st1 |] eqn:He; [| done]. intros Hrun Hk.
    destruct (step_written e st st1 k inv He Hk) as (inv1 & Hk1 & Ho & Herr).
    destruct (IH st1 inv1 Hrun Hk1) as (inv' & Hk' & Ho' & Herr').
    exists inv'. split; [done |]. by rewrite Ho', Herr', Ho, Herr.
Qed.

Lemma step_invocations_length e st st1 :
  step e st = Some st1 ->
  match e with
  | Call scriptPath _ jobId =>
      exists inv,
        invocations st1 = invocations st ++ [inv] /\
        stdout_buf inv = "" /\ stderr_buf inv = ""
  | StdoutData j _ | StderrData j _ | TimerFires j | Close j _ | Error j _ =>
      (j < length (invocations st))%nat /\
      length (invocations st1) = length (invocations st)
  end.
Proof.
  intros He. apply step_event in He.
  destruct e as [scriptPath args jobId | j data | j data | j | j code | j err].
  - subst st1.
    destruct (runScript_adds scriptPath args jobId st)
      as (new & -> & _ & _ & Ho & Herr & _).
    eauto.
  - destruct He as (x & Hj & _ & ->). cbn. rewrite length_insert.
    split; [by eapply lookup_lt_Some | done].
  - destruct He as (x & Hj & _ & ->). cbn. rewrite length_insert.
    split; [by eapply lookup_lt_Some | done].
  - destruct He as (x & Hj & _ & ->). cbn. rewrite length_insert.
    split; [by eapply lookup_lt_Some | done].
  - destruct He as (x & Hj & _ & ->). cbn. rewrite length_insert.
    split; [by eapply lookup_lt_Some | done].
  - destruct He as (x & Hj & _ & ->). cbn. rewrite length_insert.
    split; [by eapply lookup_lt_Some | done].
Qed.

Lemma run_written_new evs st st' k inv :
  run evs st = Some st' ->
  (length (invocations st) <= k)%nat ->
  invocations st' !! k = Some inv ->
  stdout_buf inv = RunnerViews.stdout_written k evs /\
  stderr_buf inv = RunnerViews.stderr_written k evs.
Proof.
  revert st. induction evs as [| e evs IH]; intros st; cbn [Runner.run].
  - intros [= <-] Hlen Hk. apply lookup_lt_Some in Hk. lia.
  - destruct (step e st) as [st1 |] eqn:He; [| done]. intros Hrun Hlen Hk.
    pose proof (step_invocations_length e st st1 He) as Hshape.
    destruct e as [scriptPath args jobId | j data | j data | j | j code | j err].
    + destruct Hshape as (new & Heq & Ho & Herr).
      destruct (decide (k = length (invocations st))) as [-> | Hne].
      * assert (Hnew : invocations st1 !! length (invocations st) = Some new).
        { rewrite Heq. by apply list_lookup_middle. }
        destruct (run_written_from evs st1 st' _ new Hrun Hnew)
          as (inv' & Hk' & Ho' & Herr').
        rewrite Hk in Hk'. injection Hk' as <-.
        rewrite Ho', Herr', Ho, Herr. done.
      * apply (IH st1 Hrun); [| done]. rewrite Heq, length_app. cbn. lia.
    + destruct Hshape as [Hj Hl]. cbn.
      destruct (decide (j = k)) as [-> | _]; [lia |].
      apply (IH st1 Hrun); [lia | done].
    + destruct Hshape as [Hj Hl]. cbn.
      destruct (decide (j = k)) as [-> | _]; [lia |].
      apply (IH st1 Hrun); [lia | done].
    + destruct Hshape as [Hj Hl]. cbn. apply (IH st1 Hrun); [lia | done].
    + destruct Hshape as [Hj Hl]. cbn. apply (IH st1 Hrun); [lia | done].
    + destruct Hshape as [Hj Hl]. cbn. apply (IH st1 Hrun); [lia | done].
Qed.

(** A live child stays live until its [close] or [error] listener runs. *)
Lemma step_stays_live e st st' k inv :
  step e st = Some st' ->
  invocations st !! k = Some inv -> executing inv = true ->
  RunnerViews.ends k e = false ->
  exists inv',
    invocations st' !! k = Some inv' /\ executing inv' = true /\
    inv_jobId inv' = inv_jobId inv /\ scriptName inv' = scriptName inv.
Proof.
  intros He Hk Hx Hends. apply step_event in He.
  assert (Hother : forall j x flags, j <> k ->
            exists inv',
              invocations {| runningScripts := flags;
                             invocations := <[j := x]> (invocations st) |} !! k
                = Some inv' /\ executing inv' = true /\
              inv_jobId inv' = inv_jobId inv /\
              scriptName inv' = scriptName inv).
  { intros j x flags Hjk. exists inv. cbn.
    by rewrite list_lookup_insert_ne. }
  assert (Hsame : forall x flags,
            executing x = true -> inv_jobId x = inv_jobId inv ->
            scriptName x = scriptName inv ->
            exists inv',
              invocations {| runningScripts := flags;
                             invocations := <[k := x]> (invocations st) |} !! k
                = Some inv' /\ executing inv' = true /\
              inv_jobId inv' = inv_jobId inv /\
              scriptName inv' = scriptName inv).
  { intros x flags Hlive Hid Hname. exists x. cbn.
    split; [by eapply lookup_updated | done]. }
  destruct e as [scriptPath args jobId | j data | j data | j | j code | j err].
  - subst st'. exists inv. split; [| done].
    destruct (runScript_adds scriptPath args jobId st) as (new & -> & _).
    by apply lookup_app_l_Some.
  - destruct He as (x & Hj & _ & ->).
    destruct (decide (j = k)) as [-> | Hjk]; [| by apply Hother].
    rewrite Hk in Hj. injection Hj as <-. by apply Hsame.
  - destruct He as (x & Hj & _ & ->).
    destruct (decide (j = k)) as [-> | Hjk]; [| by apply Hother].
    rewrite Hk in Hj. injection Hj as <-. by apply Hsame.
  - destruct He as (x & Hj & _ & ->).
    destruct (decide (j = k)) as [-> | Hjk]; [| by apply Hother].
    rewrite Hk in Hj. injection Hj as <-.
    apply Hsame; [by rewrite executing_timeout | done | done].
  - destruct He as (x & Hj & _ & ->). cbn in Hends.
    case_bool_decide; [done |]. by apply Hother.
  - destruct He as (x & Hj & _ & ->). cbn in Hends.
    case_bool_decide; [done |]. by apply Hother.
Qed.

Lemma run_stays_live evs st st' k inv :
  run evs st = Some st' ->
  invocations st !! k = Some inv -> executing inv = true ->
  forallb (fun e => negb (RunnerViews.ends k e)) evs = true ->
  exists inv',
    invocations st' !! k = Some inv' /\ executing inv' = true /\
    inv_jobId inv' = inv_jobId inv /\ scriptName inv' = scriptName inv.
Proof.
  revert st inv. induction evs as [| e evs IH]; intros st inv; cbn.
  - intros [= <-]. eauto.
  - destruct (step e st) as [st1 |] eqn:He; [| done].
    intros Hrun Hk Hx Hall. apply andb_prop in Hall as [Hends Hall].
    apply negb_true_iff in Hends.
    destruct (step_stays_live e st st1 k inv He Hk Hx Hends)
      as (inv1 & Hk1 & Hx1 & Hid1 & Hname1).
    destruct (IH st1 inv1 Hrun Hk1 Hx1 Hall) as (inv' & Hk' & Hx' & Hid & Hname).
    exists inv'. repeat split; congruence.
Qed.

Lemma run_concat evs1 evs2 st :
  run (evs1 ++ evs2) st = run evs1 st ≫= run evs2.
Proof.
  revert st. induction evs1 as [| e evs1 IH]; intros st; cbn; [done |].
  destruct (step e st) as [st1 |]; [apply IH | done].
Qed.

Lemma step_stuck name e st st' :
  stuck name st -> step e st = Some st' -> stuck name st'.
Proof.
  intros [Hflag Hnone] He.
  destruct (call_or_child e) as [(scriptPath & args & jobId & ->) | Hne].
  - injection He as <-.
    destruct (decide (basename scriptPath = name)) as [Hname | Hname].
    + rewrite refused_when_marked
        by (rewrite Hname; by apply marked_running_flag).
      split; [done |]. cbn. intros k inv Hk Hc.
      apply lookup_app_Some in Hk as [Hk | [_ Hk]]; [by eapply Hnone |].
      apply list_lookup_singleton_Some in Hk as [_ <-].
      by destruct Hc.
    + destruct (runScript_cases scriptPath args jobId st)
        as [[_ ->] | [(_ & _ & ->) | [(_ & _ & err & _ & ->) | (_ & _ & _ & ->)]]];
        (split; [cbn; by rewrite ?lookup_insert_ne by done |]);
        cbn; intros k inv Hk Hc;
        (apply lookup_app_Some in Hk as [Hk | [_ Hk]]; [by eapply Hnone |]);
        apply list_lookup_singleton_Some in Hk as [_ <-]; cbn; congruence.
  - destruct (step_touch e st st' He Hne)
      as (j & x & x' & Hj & Heq & _ & Hname & _ & _ & _ & _ & _ & _ & Hc & Hflags).
    split.
    + destruct Hflags as [-> | [Hcx ->]]; [done |].
      rewrite lookup_insert_ne; [done |]. by apply (Hnone j x).
    + intros k inv. rewrite Heq. destruct (decide (j = k)) as [-> | Hjk].
      * rewrite (lookup_updated _ _ _ _ Hj). intros [= <-] Hcx.
        rewrite Hname. apply (Hnone k x Hj). by apply Hc.
      * rewrite list_lookup_insert_ne by done. apply Hnone.
Qed.

Lemma run_stuck name evs st st' :
  stuck name st -> run evs st = Some st' -> stuck name st'.
Proof.
  revert st. induction evs as [| e evs IH]; intros st Hs; cbn.
  - by intros [= <-].
  - destruct (step e st) as [st1 |] eqn:He; [| done].
    apply IH. by eapply step_stuck.
Qed.

(** ** Main results on the runner *)

(** C7. Result output cap: in every run, the [stdout] and [stderr] of a
    result are at most 20000 characters long, being the first 20000
    characters of what the child wrote, and the result carries the job
    identifier and the base name of the path given to the call; the
    [close] listener of a live child resolves the promise with the exit
    code it is given, unchanged. *)
Theorem C7_result_output_cap :
  (forall evs st k inv r,
      run evs init = Some st ->
      invocations st !! k = Some inv -> returned inv = Resolved r ->
      (Z.of_nat (String.length (stdout r)) <= OUTPUT_LIMIT)%Z /\
      (Z.of_nat (String.length (stderr r)) <= OUTPUT_LIMIT)%Z /\
      (exists dropped, stdout_buf inv = stdout r +:+ dropped) /\
      (exists dropped, stderr_buf inv = stderr r +:+ dropped) /\
      (exists scriptPath,
          calls evs !! k = Some (jobId r, scriptPath) /\
          script r = basename scriptPath)) /\
  (forall evs st k inv code,
      run evs init = Some st ->
      invocations st !! k = Some inv -> executing inv = true ->
      exists st' inv',
        step (Close k code) st = Some st' /\
        invocations st' !! k = Some inv' /\
        returned inv' =
          Resolved {| jobId := inv_jobId inv;
                      script := scriptName inv;
                      exitCode := code;
                      stdout := truncate (stdout_buf inv);
                      stderr := truncate (stderr_buf inv) |}).
Proof.
  split.
  - intros evs st k inv r Hrun Hk Hr.
    pose proof (run_healthy evs init st init_healthy Hrun) as Hc.
    destruct (Forall_lookup_1 _ _ _ _ Hc Hk) as (_ & _ & Hres).
    destruct (Hres r Hr) as [Hshape _].
    assert (Hout : stdout r = truncate (stdout_buf inv)) by (by rewrite Hshape).
    assert (Herr : stderr r = truncate (stderr_buf inv)) by (by rewrite Hshape).
    assert (Hid : jobId r = inv_jobId inv) by (by rewrite Hshape).
    assert (Hname : script r = scriptName inv) by (by rewrite Hshape).
    rewrite Hout, Herr.
    split; [apply truncate_capped |]. split; [apply truncate_capped |].
    split; [apply truncate_spec |]. split; [apply truncate_spec |].
    pose proof (run_labels evs init st Hrun) as Hl. cbn in Hl.
    assert (Hlk : labels st !! k = Some (inv_jobId inv, scriptName inv)).
    { unfold labels. by rewrite list_lookup_fmap, Hk. }
    rewrite Hl, list_lookup_fmap in Hlk.
    destruct (calls evs !! k) as [[jid path] |] eqn:Hcall; [| done].
    cbn in Hlk. injection Hlk as Hj Hn.
    exists path. split; congruence.
  - intros evs st k inv code Hrun Hk Hx.
    pose proof (run_healthy evs init st init_healthy Hrun) as Hc.
    destruct (Forall_lookup_1 _ _ _ _ Hc Hk) as (Hlive & _ & _).
    destruct (Hlive Hx) as [Hp _].
    destruct (close_resolves st k inv code Hk Hx Hp) as (Hs & Hk' & Hr').
    eauto.
Qed.

(** C8, as the code has it: while the child runs every chunk is appended
    whole to its buffer, which grows by the length of the chunk, whatever
    its length was; nothing is dropped on arrival.  The cap is applied
    when the [close] listener builds the result, whose [stdout] and
    [stderr] are the first 20000 characters of the buffers. *)
Theorem C8_buffers_capped_at_close_only :
  (forall st k inv data,
      invocations st !! k = Some inv -> executing inv = true ->
      exists st' inv',
        step (StdoutData k data) st = Some st' /\
        invocations st' !! k = Some inv' /\
        stdout_buf inv' = stdout_buf inv +:+ data /\
        String.length (stdout_buf inv') =
          String.length (stdout_buf inv) + String.length data /\
        stderr_buf inv' = stderr_buf inv) /\
  (forall st k inv data,
      invocations st !! k = Some inv -> executing inv = true ->
      exists st' inv',
        step (StderrData k data) st = Some st' /\
        invocations st' !! k = Some inv' /\
        stderr_buf inv' = stderr_buf inv +:+ data /\
        String.length (stderr_buf inv') =
          String.length (stderr_buf inv) + String.length data /\
        stdout_buf inv' = stdout_buf inv) /\
  (forall st k inv code,
      invocations st !! k = Some inv -> executing inv = true ->
      returned inv = Pending ->
      exists st' inv' r,
        step (Close k code) st = Some st' /\
        invocations st' !! k = Some inv' /\
        returned inv' = Resolved r /\
        stdout r = string_take (Z.to_nat OUTPUT_LIMIT) (stdout_buf inv) /\
        stderr r = string_take (Z.to_nat OUTPUT_LIMIT) (stderr_buf inv) /\
        (Z.of_nat (String.length (stdout r)) <= OUTPUT_LIMIT)%Z /\
        (Z.of_nat (String.length (stderr r)) <= OUTPUT_LIMIT)%Z).
Proof.
  split; [| split].
  - intros st k inv data Hk Hx.
    exists (update k (on_stdout_data data inv) st), (on_stdout_data data inv).
    cbn. rewrite Hk. cbn. rewrite (executing_emitting inv Hx).
    split; [done |]. split; [by eapply lookup_updated |].
    split; [done |]. split; [apply length_append | done].
  - intros st k inv data Hk Hx.
    exists (update k (on_stderr_data data inv) st), (on_stderr_data data inv).
    cbn. rewrite Hk. cbn. rewrite (executing_emitting inv Hx).
    split; [done |]. split; [by eapply lookup_updated |].
    split; [done |]. split; [apply length_append | done].
  - intros st k inv code Hk Hx Hp.
    destruct (close_resolves st k inv code Hk Hx Hp) as (Hs & Hk' & Hr').
    exists (release k (on_close code inv) st), (on_close code inv),
      (close_result code inv).
    split; [done |]. split; [done |]. split; [done |]. cbn.
    split; [done |]. split; [done |].
    split; apply truncate_capped.
Qed.

(** The [error] listener, for a child that has emitted neither [error]
    nor [close]: it rejects the promise with the error, leaves no timer
    armed and sets the flag of the program name to false; the promise
    stays rejected whatever happens later; and the next call for that
    program name for which [spawn] returns gets a child. *)
Lemma error_listener_releases evs st k inv err :
  run evs init = Some st ->
  invocations st !! k = Some inv -> executing inv = true ->
  exists st' inv',
    step (Error k err) st = Some st' /\
    invocations st' !! k = Some inv' /\
    returned inv' = RejectedWith (ChildError err) /\
    armed inv' = false /\
    (armed inv = true -> killTimer inv' = Some Cleared) /\
    executing inv' = false /\
    runningScripts st' !! scriptName inv = Some false /\
    (forall evs' st'',
        run evs' st' = Some st'' ->
        exists inv'',
          invocations st'' !! k = Some inv'' /\
          returned inv'' = RejectedWith (ChildError err)) /\
    (forall scriptPath args jobId,
        basename scriptPath = scriptName inv ->
        toLowerCase (extname scriptPath) = ".py" ->
        spawn_throws (length (invocations st')) scriptPath args = None ->
        runScript scriptPath args jobId st' =
          {| runningScripts := <[scriptName inv := true]> (runningScripts st');
             invocations :=
               invocations st' ++
               [spawned jobId (scriptName inv) scriptPath args
                  (timeout_of (scriptName inv))] |}).
Proof.
  intros Hrun Hk Hx.
  pose proof (run_healthy evs init st init_healthy Hrun) as Hc.
  destruct (Forall_lookup_1 _ _ _ _ Hc Hk) as (Hlive & _ & _).
  destruct (Hlive Hx) as [Hp _].
  exists (release k (on_error err inv) st), (on_error err inv).
  assert (Hk' : invocations (release k (on_error err inv) st) !! k =
                Some (on_error err inv)) by (by eapply lookup_updated).
  assert (Hr' : returned (on_error err inv) = RejectedWith (ChildError err))
    by (cbn; by rewrite Hp).
  split; [cbn; rewrite Hk; cbn; by rewrite (executing_emitting inv Hx) |].
  split; [done |]. split; [done |].
  split; [apply armed_cleared |].
  split.
  { unfold armed. cbn. by destruct (killTimer inv) as [[] |]. }
  split; [apply executing_error |].
  split; [cbn; apply lookup_insert_eq |].
  split.
  - intros evs' st'' Hrun'.
    destruct (run_settled evs' _ st'' k _ Hrun' Hk') as (inv'' & Hk'' & Hr'');
      [by rewrite Hr' |].
    exists inv''. split; [done | congruence].
  - intros scriptPath args jobId Hname Hext Hspawn.
    rewrite spawned_when_free; [by rewrite Hname | | done | done].
    rewrite Hname. cbn. apply marked_running_released.
Qed.

(** The only listener that rejects a pending promise is the [error]
    listener of its own child. *)
Lemma rejected_by_error_only e st st' k inv inv' x :
  step e st = Some st' ->
  invocations st !! k = Some inv -> invocations st' !! k = Some inv' ->
  returned inv = Pending -> returned inv' = RejectedWith x ->
  exists err, e = Error k err /\ x = ChildError err.
Proof.
  intros He Hk Hk' Hp Hx. apply step_event in He.
  assert (Hother : forall j y flags, j <> k ->
            invocations {| runningScripts := flags;
                           invocations := <[j := y]> (invocations st) |} !! k
              = Some inv' -> False).
  { intros j y flags Hjk. cbn. rewrite list_lookup_insert_ne by done.
    rewrite Hk. intros [= <-]. congruence. }
  destruct e as [scriptPath args jobId | j data | j data | j | j code | j err].
  - subst st'.
    destruct (runScript_adds scriptPath args jobId st) as (new & Heq & _).
    rewrite Heq, (lookup_app_l_Some _ _ _ _ Hk) in Hk'. congruence.
  - destruct He as (y & Hj & _ & ->).
    destruct (decide (j = k)) as [-> | Hjk]; [| by destruct (Hother j _ _ Hjk Hk')].
    cbn in Hk'. rewrite (lookup_updated _ _ _ _ Hk) in Hk'. injection Hk' as <-.
    rewrite Hk in Hj. injection Hj as <-. cbn in Hx. congruence.
  - destruct He as (y & Hj & _ & ->).
    destruct (decide (j = k)) as [-> | Hjk]; [| by destruct (Hother j _ _ Hjk Hk')].
    cbn in Hk'. rewrite (lookup_updated _ _ _ _ Hk) in Hk'. injection Hk' as <-.
    rewrite Hk in Hj. injection Hj as <-. cbn in Hx. congruence.
  - destruct He as (y & Hj & _ & ->).
    destruct (decide (j = k)) as [-> | Hjk]; [| by destruct (Hother j _ _ Hjk Hk')].
    cbn in Hk'. rewrite (lookup_updated _ _ _ _ Hk) in Hk'. injection Hk' as <-.
    rewrite Hk in Hj. injection Hj as <-. cbn in Hx. congruence.
  - destruct He as (y & Hj & _ & ->).
    destruct (decide (j = k)) as [-> | Hjk]; [| by destruct (Hother j _ _ Hjk Hk')].
    cbn in Hk'. rewrite (lookup_updated _ _ _ _ Hk) in Hk'. injection Hk' as <-.
    rewrite Hk in Hj. injection Hj as <-. cbn in Hx. rewrite Hp in Hx. done.
  - destruct He as (y & Hj & _ & ->).
    destruct (decide (j = k)) as [-> | Hjk]; [| by destruct (Hother j _ _ Hjk Hk')].
    cbn in Hk'. rewrite (lookup_updated _ _ _ _ Hk) in Hk'. injection Hk' as <-.
    rewrite Hk in Hj. injection Hj as <-. cbn in Hx. rewrite Hp in Hx.
    exists err. split; [done |]. cbn in Hx. congruence.
Qed.

(** C6, as the code has it.  The delay is the entry of [TIMEOUTS] for the
    base name of the program (three minutes for airliquide.py and
    nipongases.py, one for airliquide_portugal.py) and three minutes for a
    name without entry; it is the delay of the timer set by [runScript]
    once [spawn] has returned.  When the timer fires the child, still
    live, is sent SIGTERM; the promise stays pending and the flags and
    buffers are as they were.  When the child then closes, after whatever
    else happens but no [error] of this child, the promise resolves with
    the exit code of the [close] event and the first 20000 characters of
    all the child wrote on each stream, before and after the signal.  The
    callback of the timer changes the promise of no invocation; the only
    event that rejects a pending promise is the [error] event of its own
    child, which a signal that cannot be delivered emits. *)
Theorem C6_timeout_resolves_unless_error :
  timeout_of "airliquide.py" = (3 * 60 * 1000)%Z /\
  timeout_of "nipongases.py" = (3 * 60 * 1000)%Z /\
  timeout_of "airliquide_portugal.py" = (1 * 60 * 1000)%Z /\
  (forall name, TIMEOUTS !! name = None ->
     timeout_of name = (3 * 60 * 1000)%Z) /\
  (forall st scriptPath args jobId,
      marked_running (runningScripts st) (basename scriptPath) = false ->
      toLowerCase (extname scriptPath) = ".py" ->
      spawn_throws (length (invocations st)) scriptPath args = None ->
      exists inv,
        invocations (runScript scriptPath args jobId st)
          !! length (invocations st) = Some inv /\
        killTimer inv = Some (Armed (timeout_of (basename scriptPath))) /\
        executing inv = true /\ returned inv = Pending) /\
  (forall evs st k inv,
      run evs init = Some st ->
      invocations st !! k = Some inv -> armed inv = true ->
      exists st1 inv1 c,
        step (TimerFires k) st = Some st1 /\
        invocations st1 !! k = Some inv1 /\
        child inv = Some c /\ live c = true /\
        child inv1 = Some (kill SIGTERM c) /\
        signals (kill SIGTERM c) = signals c ++ [SIGTERM] /\
        returned inv1 = Pending /\
        runningScripts st1 = runningScripts st /\
        stdout_buf inv1 = stdout_buf inv /\
        stderr_buf inv1 = stderr_buf inv /\
        forall later st2 code,
          run later st1 = Some st2 ->
          forallb (fun e => negb (RunnerViews.ends k e)) later = true ->
          exists st3 inv3,
            step (Close k code) st2 = Some st3 /\
            invocations st3 !! k = Some inv3 /\
            returned inv3 =
              Resolved
                {| jobId := inv_jobId inv;
                   script := scriptName inv;
                   exitCode := code;
                   stdout :=
                     truncate (RunnerViews.stdout_written k
                                 (evs ++ TimerFires k :: later));
                   stderr :=
                     truncate (RunnerViews.stderr_written k
                                 (evs ++ TimerFires k :: later)) |}) /\
  (forall st st' k j inv inv',
      step (TimerFires k) st = Some st' ->
      invocations st !! j = Some inv ->
      invocations st' !! j = Some inv' ->
      returned inv' = returned inv) /\
  (forall e st st' k inv inv' x,
      step e st = Some st' ->
      invocations st !! k = Some inv ->
      invocations st' !! k = Some inv' ->
      returned inv = Pending -> returned inv' = RejectedWith x ->
      exists err, e = Error k err /\ x = ChildError err).
Proof.
  split; [done |]. split; [done |]. split; [done |].
  split; [| split; [| split; [| split]]].
  - intros name Hnone. unfold timeout_of. by rewrite Hnone.
  - intros st scriptPath args jobId Hm Hext Hspawn.
    rewrite spawned_when_free by done. cbn.
    eexists. split; [apply list_lookup_middle; done |]. done.
  - intros evs st k inv Hrun Hk Ha.
    pose proof (run_healthy evs init st init_healthy Hrun) as Hc.
    pose proof (Forall_lookup_1 _ _ _ _ Hc Hk) as Hinv.
    pose proof (armed_executing inv Hinv Ha) as Hx.
    destruct Hinv as (Hlive & _ & _). destruct (Hlive Hx) as [Hp _].
    assert (Hx0 := Hx).
    unfold executing in Hx. destruct (child inv) as [c |] eqn:Hchild; [| done].
    exists (update k (on_timeout inv) st), (on_timeout inv), c.
    assert (Hk1 : invocations (update k (on_timeout inv) st) !! k =
                  Some (on_timeout inv)) by (by eapply lookup_updated).
    assert (Hstep : step (TimerFires k) st =
                    Some (update k (on_timeout inv) st)).
    { cbn. rewrite Hk. cbn. by rewrite Ha. }
    split; [done |].
    split; [done |]. split; [done |]. split; [done |].
    split; [cbn; by rewrite Hchild |].
    do 5 (split; [done |]).
    intros later st2 code Hlater Hquiet.
    assert (Hx1 : executing (on_timeout inv) = true)
      by (by rewrite executing_timeout).
    destruct (run_stays_live later _ st2 k _ Hlater Hk1 Hx1 Hquiet)
      as (inv2 & Hk2 & Hx2 & Hid & Hname).
    assert (Hwhole : run (evs ++ TimerFires k :: later) init = Some st2).
    { rewrite run_concat, Hrun. cbn [mbind option_bind Runner.run].
      change (Runner.step basename extname toLowerCase spawn_throws
                (TimerFires k) st) with (step (TimerFires k) st).
      by rewrite Hstep. }
    pose proof (run_healthy _ init st2 init_healthy Hwhole) as Hc2.
    destruct (Forall_lookup_1 _ _ _ _ Hc2 Hk2) as (Hlive2 & _ & _).
    destruct (Hlive2 Hx2) as [Hp2 _].
    destruct (run_written_new _ init st2 k inv2 Hwhole) as [Ho He];
      [cbn; lia | done |].
    destruct (close_resolves st2 k inv2 code Hk2 Hx2 Hp2) as (Hs & Hk3 & Hr3).
    exists (release k (on_close code inv2) st2), (on_close code inv2).
    split; [done |]. split; [done |].
    rewrite Hr3. unfold close_result. by rewrite Hid, Hname, Ho, He.
  - intros st st' k j inv inv'. cbn.
    destruct (invocations st !! k) as [x |] eqn:Hk; cbn; [| done].
    destruct (armed x); [| done]. intros [= <-] Hj. cbn.
    destruct (decide (k = j)) as [-> | Hne].
    + rewrite (lookup_updated _ _ _ _ Hk). intros [= <-].
      rewrite Hk in Hj. by injection Hj as <-.
    + rewrite list_lookup_insert_ne by done. rewrite Hj. by intros [= <-].
  - apply rejected_by_error_only.
Qed.

End Runs.

(** ** Concrete runs, with the POSIX path functions *)

Local Abbreviation posix_run :=
  (Runner.run PosixPath.basename PosixPath.extname PosixPath.toLowerCase
     ChildProcess.spawn_throws).
Local Abbreviation posix_step :=
  (Runner.step PosixPath.basename PosixPath.extname PosixPath.toLowerCase
     ChildProcess.spawn_throws).
Local Abbreviation posix_runScript :=
  (Runner.runScript PosixPath.basename PosixPath.extname PosixPath.toLowerCase
     ChildProcess.spawn_throws).

(** C2, where the code fails it.  The first child of airliquide.py cannot
    be started and emits [error], which clears the flag; a second call
    gets a child; the [close] of the first child, emitted when its streams
    are closed, then runs the unguarded [close] listener, which clears the
    flag under the second child; a third call is therefore not refused,
    and two children of airliquide.py are live at once. *)
Theorem C2_failing_run :
  exists st inv1 inv2,
    posix_run
      [Call "/opt/scripts/airliquide.py" ["galicia"; "a.pdf"; "{}"] "job-1";
       Error 0 "spawn python EAGAIN";
       Call "/opt/scripts/airliquide.py" ["galicia"; "b.pdf"; "{}"] "job-2";
       Close 0 (Some (-11)%Z);
       Call "/opt/scripts/airliquide.py" ["galicia"; "c.pdf"; "{}"] "job-3"]
      init = Some st /\
    invocations st !! 1%nat = Some inv1 /\
    invocations st !! 2%nat = Some inv2 /\
    scriptName inv1 = "airliquide.py" /\ scriptName inv2 = "airliquide.py" /\
    executing inv1 = true /\ executing inv2 = true /\
    returned inv1 = Pending /\ returned inv2 = Pending /\
    ~ exclusive st.
Proof.
  eexists. eexists. eexists.
  split; [vm_compute; reflexivity |].
  do 8 (split; [reflexivity |]).
  intros [Hone _].
  by pose proof (Hone 1%nat 2%nat _ _ eq_refl eq_refl eq_refl eq_refl eq_refl).
Qed.

(** C9, where the code fails it.  A file name with a NUL character makes
    [spawn] throw inside the executor of the promise: the promise is
    rejected with what was thrown, and there is neither child nor timer,
    but the flag of airliquide.py, set just before, is left set.  No
    listener exists to clear it: in every later state of the runner the
    flag is set, and every later call for airliquide.py is refused as
    already running. *)
Theorem C9_failing_run :
  let thrown :=
    posix_runScript "/opt/scripts/airliquide.py"
      ["galicia"; ChildProcess.nul_name; "{}"] "job-1" init in
  invocations thrown =
    [refused "job-1" "airliquide.py" (SpawnThrew "ERR_INVALID_ARG_VALUE")] /\
  runningScripts thrown !! "airliquide.py" = Some true /\
  forall evs st args jobId,
    posix_run evs thrown = Some st ->
    runningScripts st !! "airliquide.py" = Some true /\
    posix_runScript "/opt/scripts/airliquide.py" args jobId st =
      {| runningScripts := runningScripts st;
         invocations :=
           invocations st ++
           [refused jobId "airliquide.py" ScriptAlreadyRunning] |}.
Proof.
  cbv zeta. split; [reflexivity |]. split; [reflexivity |].
  intros evs st args jobId Hrun.
  assert (Hstuck : stuck "airliquide.py" st).
  { refine (run_stuck PosixPath.basename PosixPath.extname
              PosixPath.toLowerCase ChildProcess.spawn_throws
              "airliquide.py" evs _ st _ Hrun).
    split; [reflexivity |]. intros k inv Hk Hc.
    destruct k as [| k]; [| done]. injection Hk as <-. by destruct Hc. }
  destruct Hstuck as [Hflag _]. split; [done |].
  apply (refused_when_marked PosixPath.basename PosixPath.extname
           PosixPath.toLowerCase ChildProcess.spawn_throws st
           "/opt/scripts/airliquide.py" args jobId).
  by apply marked_running_flag.
Qed.

Lemma C6_timeout_resolves_unless_error_witness :
  let evs :=
    [Call "/opt/scripts/airliquide_portugal.py" ["--watch"] "job-7";
     StdoutData 0 "partial"] in
  let later := [StderrData 0 "Terminated"] in
  exists st st1 st2 st3 inv3,
    posix_run evs init = Some st /\
    posix_step (TimerFires 0) st = Some st1 /\
    posix_run later st1 = Some st2 /\
    posix_step (Close 0 None) st2 = Some st3 /\
    invocations st3 !! 0%nat = Some inv3 /\
    returned inv3 =
      Resolved {| jobId := "job-7";
                  script := "airliquide_portugal.py";
                  exitCode := None;
                  stdout := "partial";
                  stderr := "Terminated" |}.
Proof.
  cbv zeta. eexists.
  destruct (proj1 (proj2 (proj2 (proj2 (proj2 (proj2 (C6_timeout_resolves_unless_error
    PosixPath.basename PosixPath.extname PosixPath.toLowerCase
    ChildProcess.spawn_throws))))))
    [Call "/opt/scripts/airliquide_portugal.py" ["--watch"] "job-7";
     StdoutData 0 "partial"]
    _ 0%nat
    (on_stdout_data "partial"
       (spawned "job-7" "airliquide_portugal.py"
          "/opt/scripts/airliquide_portugal.py" ["--watch"] 60000))
    eq_refl eq_refl eq_refl)
    as (st1 & inv1 & c & Hstep & _ & _ & _ & _ & _ & _ & _ & _ & _ & Hclose).
  assert (Hst1 := Hstep). vm_compute in Hst1. injection Hst1 as Hst1.
  destruct (Hclose [StderrData 0 "Terminated"] _ None
              ltac:(rewrite <- Hst1; vm_compute; reflexivity) eq_refl)
    as (st3 & inv3 & Hstep3 & Hk3 & Hr3).
  exists st1. eexists. exists st3, inv3.
  split; [reflexivity |]. split; [exact Hstep |].
  split; [rewrite <- Hst1; vm_compute; reflexivity |].
  split; [exact Hstep3 |]. split; [exact Hk3 |]. exact Hr3.
Defined.

(** C6 as it is stated fails: the timer of a child fires, the signal
    cannot be delivered, the child emits [error], and the invocation is
    rejected. *)
Lemma C6_counterexample :
  exists st inv c,
    posix_run
      [Call "/opt/scripts/airliquide_portugal.py" ["--watch"] "job-7";
       TimerFires 0; Error 0 "kill EPERM"] init = Some st /\
    invocations st !! 0%nat = Some inv /\
    killTimer inv = Some Fired /\
    child inv = Some c /\ signals c = [SIGTERM] /\
    returned inv = RejectedWith (ChildError "kill EPERM") /\
    (forall r, returned inv <> Resolved r) /\
    ~ (forall evs st' k inv' e,
         posix_run evs init = Some st' ->
         invocations st' !! k = Some inv' ->
         killTimer inv' = Some Fired ->
         returned inv' <> RejectedWith e).
Proof.
  eexists. eexists. eexists.
  split; [vm_compute; reflexivity |].
  do 5 (split; [reflexivity |]). split; [done |].
  intros Hnever.
  by apply (Hnever
    [Call "/opt/scripts/airliquide_portugal.py" ["--watch"] "job-7";
     TimerFires 0; Error 0 "kill EPERM"] _ 0%nat _
    (ChildError "kill EPERM") eq_refl eq_refl eq_refl).
Qed.

Lemma C7_result_output_cap_witness :
  let evs :=
    [Call "/opt/scripts/nipongases.py" ["nipon"; "albaran.pdf"; "{}"] "job-3";
     StdoutData 0 "procesado"; StderrData 0 "aviso"; Close 0 (Some 0%Z)] in
  let r := {| jobId := "job-3"; script := "nipongases.py";
              exitCode := Some 0%Z;
              stdout := "procesado"; stderr := "aviso" |} in
  exists st inv,
    posix_run evs init = Some st /\
    invocations st !! 0 = Some inv /\
    returned inv = Resolved r /\
    (Z.of_nat (String.length (stdout r)) <= OUTPUT_LIMIT)%Z /\
    (Z.of_nat (String.length (stderr r)) <= OUTPUT_LIMIT)%Z.
Proof.
  cbv zeta. eexists. eexists.
  split; [vm_compute; reflexivity |].
  split; [reflexivity |]. split; [reflexivity |].
  destruct (proj1 (C7_result_output_cap
    PosixPath.basename PosixPath.extname PosixPath.toLowerCase
    ChildProcess.spawn_throws)
    [Call "/opt/scripts/nipongases.py" ["nipon"; "albaran.pdf"; "{}"] "job-3";
     StdoutData 0 "procesado"; StderrData 0 "aviso"; Close 0 (Some 0%Z)]
    _ 0 _
    {| jobId := "job-3"; script := "nipongases.py"; exitCode := Some 0%Z;
       stdout := "procesado"; stderr := "aviso" |}
    ltac:(vm_compute; reflexivity) eq_refl eq_refl)
    as (Hout & Herr & _).
  split; [exact Hout | exact Herr].
Defined.

Lemma C8_buffers_capped_at_close_only_witness :
  let st := posix_runScript "/opt/scripts/airliquide.py" [] "job-1" init in
  exists st' inv',
    posix_step (StdoutData 0 "linea") st = Some st' /\
    invocations st' !! 0 = Some inv' /\
    stdout_buf inv' = "linea".
Proof.
  cbv zeta.
  destruct (proj1 (C8_buffers_capped_at_close_only
    PosixPath.basename PosixPath.extname PosixPath.toLowerCase
    ChildProcess.spawn_throws)
    (posix_runScript "/opt/scripts/airliquide.py" [] "job-1" init) 0
    (spawned "job-1" "airliquide.py" "/opt/scripts/airliquide.py" [] 180000)
    "linea" eq_refl eq_refl)
    as (st' & inv' & Hstep & Hk & Hbuf & _).
  exists st', inv'. split; [exact Hstep |]. split; [exact Hk | exact Hbuf].
Defined.

Lemma run_one_chunk data :
  posix_run
    [Call "/opt/scripts/airliquide.py" [] "job-1"; StdoutData 0 data] init =
    Some {| runningScripts := <["airliquide.py" := true]> ∅;
            invocations :=
              [on_stdout_data data
                 (spawned "job-1" "airliquide.py"
                    "/opt/scripts/airliquide.py" [] 180000)] |}.
Proof. vm_compute. reflexivity. Qed.

(** C8 as it is stated fails: a child that is still running and has
    written 20001 characters in one chunk has a buffer of 20001
    characters, above the cap. *)
Lemma C8_counterexample :
  let flooded :=
    on_stdout_data (flood (Z.to_nat 20001))
      (spawned "job-1" "airliquide.py" "/opt/scripts/airliquide.py" []
         180000) in
  posix_run
    [Call "/opt/scripts/airliquide.py" [] "job-1";
     StdoutData 0 (flood (Z.to_nat 20001))] init =
    Some {| runningScripts := <["airliquide.py" := true]> ∅;
            invocations := [flooded] |} /\
  executing flooded = true /\
  returned flooded = Pending /\
  (OUTPUT_LIMIT < Z.of_nat (String.length (stdout_buf flooded)))%Z.
Proof.
  cbv zeta. split; [apply run_one_chunk |].
  split; [reflexivity |]. split; [reflexivity |].
  cbn [stdout_buf on_stdout_data spawned].
  rewrite length_append, length_flood. unfold OUTPUT_LIMIT. cbn [String.length].
  lia.
Qed.

End RunnerFacts.
(** * Further properties of the executor *)

Module ExecutorExtras.

Import Runner.

Local Open Scope Z_scope.

(** The delay of every timer is one of the two values of the table: one
    minute or three, whatever the program name. *)
Theorem timeout_of_bounds name :
  (timeout_of name = 60000 \/ timeout_of name = 180000) /\
  0 < timeout_of name <= 180000.
Proof.
  assert (H : timeout_of name = 60000 \/ timeout_of name = 180000).
  { unfold timeout_of, TIMEOUTS.
    destruct (decide (name = "airliquide.py")) as [-> | H1];
      [rewrite lookup_insert_eq; by right |].
    rewrite lookup_insert_ne by done.
    destruct (decide (name = "nipongases.py")) as [-> | H2];
      [rewrite lookup_insert_eq; by right |].
    rewrite lookup_insert_ne by done.
    destruct (decide (name = "airliquide_portugal.py")) as [-> | H3];
      [rewrite lookup_insert_eq; by left |].
    rewrite lookup_insert_ne by done. rewrite lookup_empty. by right. }
  split; [exact H |]. destruct H as [-> | ->]; lia.
Qed.

Import RunnerViews.

(** ** A property kept by every listener holds of every invocation *)

Section PerInvocation.

Variable basename : string -> string.
Variable extname : string -> string.
Variable toLowerCase : string -> string.
Variable spawn_throws : nat -> string -> list string -> option string.

Local Abbreviation runScript :=
  (Runner.runScript basename extname toLowerCase spawn_throws).
Local Abbreviation step :=
  (Runner.step basename extname toLowerCase spawn_throws).
Local Abbreviation run :=
  (Runner.run basename extname toLowerCase spawn_throws).

Variable P : invocation -> Prop.

Hypothesis P_refused : forall jobId name e, P (refused jobId name e).
Hypothesis P_spawned :
  forall jobId scriptPath args,
    toLowerCase (extname scriptPath) = ".py" ->
    P (spawned jobId (basename scriptPath) scriptPath args
         (timeout_of (basename scriptPath))).
Hypothesis P_stdout :
  forall data inv, emitting inv = true -> P inv -> P (on_stdout_data data inv).
Hypothesis P_stderr :
  forall data inv, emitting inv = true -> P inv -> P (on_stderr_data data inv).
Hypothesis P_timeout :
  forall inv, armed inv = true -> P inv -> P (on_timeout inv).
Hypothesis P_close :
  forall code inv, emitting inv = true -> P inv -> P (on_close code inv).
Hypothesis P_error :
  forall err inv, emitting inv = true -> P inv -> P (on_error err inv).

Lemma step_each e st st' :
  Forall P (invocations st) -> step e st = Some st' ->
  Forall P (invocations st').
Proof.
  intros HP He.
  apply (RunnerFacts.step_event basename extname toLowerCase spawn_throws)
    in He.
  destruct e as [scriptPath args jobId | k data | k data | k | k code | k err].
  - subst st'.
    destruct (RunnerFacts.runScript_cases basename extname toLowerCase
                spawn_throws scriptPath args jobId st)
      as [[_ ->] | [(_ & _ & ->) | [(_ & _ & err & _ & ->) | (_ & Hext & _ & ->)]]];
      cbn; apply Forall_app; (split; [done |]); constructor; auto.
  - destruct He as (inv & Hk & Hg & ->). cbn.
    apply Forall_insert; [done |]. apply P_stdout; [done |].
    by apply (Forall_lookup_1 _ _ _ _ HP Hk).
  - destruct He as (inv & Hk & Hg & ->). cbn.
    apply Forall_insert; [done |]. apply P_stderr; [done |].
    by apply (Forall_lookup_1 _ _ _ _ HP Hk).
  - destruct He as (inv & Hk & Hg & ->). cbn.
    apply Forall_insert; [done |]. apply P_timeout; [done |].
    by apply (Forall_lookup_1 _ _ _ _ HP Hk).
  - destruct He as (inv & Hk & Hg & ->). cbn.
    apply Forall_insert; [done |]. apply P_close; [done |].
    by apply (Forall_lookup_1 _ _ _ _ HP Hk).
  - destruct He as (inv & Hk & Hg & ->). cbn.
    apply Forall_insert; [done |]. apply P_error; [done |].
    by apply (Forall_lookup_1 _ _ _ _ HP Hk).
Qed.

Lemma run_each evs st st' :
  Forall P (invocations st) -> run evs st = Some st' ->
  Forall P (invocations st').
Proof.
  revert st. induction evs as [| e evs IH]; intros st HP; cbn.
  - by intros [= <-].
  - destruct (step e st) as [st1 |] eqn:He; [| done].
    apply IH. by eapply step_each.
Qed.

End PerInvocation.

Section Runs.

Variable basename : string -> string.
Variable extname : string -> string.
Variable toLowerCase : string -> string.
Variable spawn_throws : nat -> string -> list string -> option string.

Local Abbreviation runScript :=
  (Runner.runScript basename extname toLowerCase spawn_throws).
Local Abbreviation step :=
  (Runner.step basename extname toLowerCase spawn_throws).
Local Abbreviation run :=
  (Runner.run basename extname toLowerCase spawn_throws).

(** ** The buffers hold what was written *)

(** In every run the buffers of an invocation are, chunk after chunk, what
    its child wrote on each stream: nothing is lost, reordered or moved
    from one stream to the other; and a result holds the first 20000
    characters of each. *)
Theorem output_is_what_was_written evs st k inv :
  run evs init = Some st ->
  invocations st !! k = Some inv ->
  stdout_buf inv = stdout_written k evs /\
  stderr_buf inv = stderr_written k evs /\
  (forall r, returned inv = Resolved r ->
     stdout r = truncate (stdout_written k evs) /\
     stderr r = truncate (stderr_written k evs)).
Proof.
  intros Hrun Hk.
  destruct (RunnerFacts.run_written_new basename extname toLowerCase
              spawn_throws evs init st k inv Hrun) as [Ho He];
    [cbn; lia | done |].
  split; [done |]. split; [done |].
  intros r Hr.
  pose proof (RunnerFacts.run_healthy basename extname toLowerCase
                spawn_throws evs init st (RunnerFacts.init_healthy) Hrun)
    as Hc.
  destruct (Forall_lookup_1 _ _ _ _ Hc Hk) as (_ & _ & Hres).
  destruct (Hres r Hr) as [-> _]. cbn. by rewrite Ho, He.
Qed.

(** ** Signals *)


(** ** What is spawned *)

(** The runner only ever spawns the interpreter, on a path whose extension
    is [.py] once in lower case, and files the invocation under the base
    name of that path: a call with another extension never gets a
    child. *)
Theorem only_python_scripts_spawned evs st k inv c :
  run evs init = Some st ->
  invocations st !! k = Some inv ->
  child inv = Some c ->
  spawnfile c = "python" /\
  exists scriptPath args,
    spawnargs c = scriptPath :: args /\
    toLowerCase (extname scriptPath) = ".py" /\
    scriptName inv = basename scriptPath.
Proof.
  intros Hrun Hk Hc.
  assert (Hall : Forall (python_child basename extname toLowerCase)
                   (invocations st)).
  { apply (run_each basename extname toLowerCase spawn_throws
             (python_child basename extname toLowerCase))
      with (evs := evs) (st := init); [| | | | | | | constructor | done].
    - intros jobId name e c0. done.
    - intros jobId scriptPath args Hext c0. cbn. intros [= <-]. cbn.
      split; [done |]. by exists scriptPath, args.
    - intros data x _ Hx c0. apply Hx.
    - intros data x _ Hx c0. apply Hx.
    - intros x _ Hx c0. cbn.
      destruct (child x) as [c1 |] eqn:Hc1; cbn; [| done].
      intros [= <-]. cbn. by apply (Hx c1 Hc1).
    - intros code x _ Hx c0. cbn.
      destruct (child x) as [c1 |] eqn:Hc1; cbn; [| done].
      intros [= <-]. cbn. by apply (Hx c1 Hc1).
    - intros err x _ Hx c0. cbn.
      destruct (child x) as [c1 |] eqn:Hc1; cbn; [| done].
      intros [= <-]. cbn. by apply (Hx c1 Hc1). }
  exact (Forall_lookup_1 _ _ _ _ Hall Hk c Hc).
Qed.

(** ** The flag after a normal end *)

(** When a live child closes, whatever its exit code and whether or not
    its timer had fired, the flag of its program name is set to false and
    no timer stays armed, and the next call for that program name with a
    [.py] path is not refused as already running: it gets a child when
    [spawn] returns, and when [spawn] throws it is rejected with what was
    thrown and leaves the flag set. *)
Theorem close_releases_program evs st k inv code :
  run evs init = Some st ->
  invocations st !! k = Some inv -> executing inv = true ->
  exists st' inv',
    step (Close k code) st = Some st' /\
    invocations st' !! k = Some inv' /\
    executing inv' = false /\ armed inv' = false /\
    runningScripts st' !! scriptName inv = Some false /\
    (forall name, name <> scriptName inv ->
       runningScripts st' !! name = runningScripts st !! name) /\
    (forall scriptPath args jobId,
        basename scriptPath = scriptName inv ->
        toLowerCase (extname scriptPath) = ".py" ->
        runScript scriptPath args jobId st' =
          {| runningScripts := <[scriptName inv := true]> (runningScripts st');
             invocations :=
               invocations st' ++
               [match spawn_throws (length (invocations st')) scriptPath args
                with
                | None =>
                    spawned jobId (scriptName inv) scriptPath args
                      (timeout_of (scriptName inv))
                | Some err => refused jobId (scriptName inv) (SpawnThrew err)
                end] |}).
Proof.
  intros Hrun Hk Hx.
  exists (release k (on_close code inv) st), (on_close code inv).
  split; [cbn; rewrite Hk; cbn;
          by rewrite (RunnerFacts.executing_emitting inv Hx) |].
  split; [by eapply RunnerFacts.lookup_updated |].
  split; [apply RunnerFacts.executing_close |].
  split; [apply RunnerFacts.armed_cleared |].
  split; [cbn; apply lookup_insert_eq |].
  split; [intros name Hne; cbn; by rewrite lookup_insert_ne |].
  intros scriptPath args jobId Hname Hext.
  assert (Hfree : marked_running
                    (runningScripts (release k (on_close code inv) st))
                    (basename scriptPath) = false).
  { rewrite Hname. cbn. apply RunnerFacts.marked_running_released. }
  destruct (spawn_throws (length (invocations (release k (on_close code inv) st)))
              scriptPath args) as [err |] eqn:Hspawn.
  - rewrite (RunnerFacts.rejected_when_spawn_throws _ _ _ _ _ _ _ _ err)
      by done.
    by rewrite Hname.
  - rewrite RunnerFacts.spawned_when_free by done. by rewrite Hname.
Qed.

(** ** Names found on [Object.prototype] *)

Lemma step_inherited_untouched e st st' :
  inherited_untouched st -> step e st = Some st' -> inherited_untouched st'.
Proof.
  intros [Hflags Hnames] He.
  assert (Hfree : forall name,
            marked_running (runningScripts st) name = false ->
            name ∉ object_prototype_keys).
  { intros name Hm Hin. unfold marked_running in Hm.
    rewrite (Hflags name Hin) in Hm. by apply bool_decide_eq_false in Hm. }
  destruct (RunnerFacts.call_or_child e)
    as [(scriptPath & args & jobId & ->) | Hne].
  - injection He as <-.
    destruct (RunnerFacts.runScript_cases basename extname toLowerCase
                spawn_throws scriptPath args jobId st)
      as [[_ ->] | [(Hm & _ & ->) | [(Hm & _ & err & _ & ->) | (Hm & _ & _ & ->)]]];
      cbn in *.
    + split; [done |]. cbn. intros i y Hi Hy.
      apply lookup_snoc_Some in Hi as [[_ Hi] | [_ <-]];
        [by apply (Hnames i y) | by destruct Hy].
    + split; cbn.
      * intros name Hin. rewrite !lookup_insert_ne; [by apply Hflags | |];
          intros <-; by apply (Hfree _ Hm).
      * intros i y Hi Hy.
        apply lookup_snoc_Some in Hi as [[_ Hi] | [_ <-]];
          [by apply (Hnames i y) | by destruct Hy].
    + split; cbn.
      * intros name Hin. rewrite lookup_insert_ne; [by apply Hflags |].
        intros <-. by apply (Hfree _ Hm).
      * intros i y Hi Hy.
        apply lookup_snoc_Some in Hi as [[_ Hi] | [_ <-]];
          [by apply (Hnames i y) | by destruct Hy].
    + split; cbn.
      * intros name Hin. rewrite lookup_insert_ne; [by apply Hflags |].
        intros <-. by apply (Hfree _ Hm).
      * intros i y Hi Hy.
        apply lookup_snoc_Some in Hi as [[_ Hi] | [_ <-]];
          [by apply (Hnames i y) | by apply Hfree].
  - destruct (RunnerFacts.step_touch basename extname toLowerCase spawn_throws
                e st st' He Hne)
      as (j & x & x' & Hj & Heq & _ & Hname & _ & _ & _ & _ & _ & _ & Hc & Hfl).
    split.
    + intros name Hin. destruct Hfl as [-> | [Hcx ->]]; [by apply Hflags |].
      rewrite lookup_insert_ne; [by apply Hflags |].
      intros <-. by apply (Hnames j x Hj).
    + intros i y. rewrite Heq. intros Hi Hy.
      apply list_lookup_insert_Some in Hi as [(<- & <- & _) | (_ & Hi)].
      * rewrite Hname. apply (Hnames j x Hj). by apply Hc.
      * by apply (Hnames i y).
Qed.

Lemma run_inherited_untouched evs st st' :
  inherited_untouched st -> run evs st = Some st' -> inherited_untouched st'.
Proof.
  revert st. induction evs as [| e evs IH]; intros st Hi; cbn.
  - by intros [= <-].
  - destruct (step e st) as [st1 |] eqn:He; [| done].
    apply IH. by eapply step_inherited_untouched.
Qed.

(** [runningScripts] is an object literal, so a program whose base name is
    a property of [Object.prototype] ([constructor], [toString],
    [__proto__], ...) reads as running from the start: in every run such a
    call is rejected with "Script already running", nothing is spawned and
    the flags are left as they are, though no child of that name exists. *)
Theorem inherited_names_always_refused evs st scriptPath args jobId :
  run evs init = Some st ->
  basename scriptPath ∈ object_prototype_keys ->
  runScript scriptPath args jobId st =
    {| runningScripts := runningScripts st;
       invocations :=
         invocations st ++
         [refused jobId (basename scriptPath) ScriptAlreadyRunning] |} /\
  (forall k inv, invocations st !! k = Some inv ->
     scriptName inv = basename scriptPath -> executing inv = false).
Proof.
  intros Hrun Hin.
  assert (Hinit : inherited_untouched init).
  { split; [intros; apply lookup_empty |].
    intros k inv. cbn. by rewrite lookup_nil. }
  destruct (run_inherited_untouched evs init st Hinit Hrun) as [Hflags Hnames].
  split.
  - apply RunnerFacts.refused_when_marked. unfold marked_running.
    rewrite (Hflags _ Hin). by apply bool_decide_eq_true.
  - intros k inv Hk Hname. unfold executing.
    destruct (child inv) as [c |] eqn:Hc; [| done].
    exfalso. apply (Hnames k inv Hk); [eauto | by rewrite Hname].
Qed.

End Runs.

(** ** Concrete runs *)

Local Abbreviation posix_run :=
  (Runner.run PosixPath.basename PosixPath.extname PosixPath.toLowerCase
     ChildProcess.spawn_throws).
Local Abbreviation posix_step :=
  (Runner.step PosixPath.basename PosixPath.extname PosixPath.toLowerCase
     ChildProcess.spawn_throws).
Local Abbreviation posix_runScript :=
  (Runner.runScript PosixPath.basename PosixPath.extname PosixPath.toLowerCase
     ChildProcess.spawn_throws).

Lemma output_is_what_was_written_witness :
  let evs :=
    [Call "/opt/scripts/nipongases.py" ["nipon"; "a.pdf"; "{}"] "job-4";
     StdoutData 0 "uno "; StderrData 0 "aviso"; StdoutData 0 "dos"] in
  exists st inv,
    posix_run evs init = Some st /\
    invocations st !! 0%nat = Some inv /\
    stdout_buf inv = "uno dos" /\ stderr_buf inv = "aviso".
Proof.
  cbv zeta. eexists. eexists.
  split; [vm_compute; reflexivity |]. split; [reflexivity |].
  destruct (output_is_what_was_written
    PosixPath.basename PosixPath.extname PosixPath.toLowerCase
    ChildProcess.spawn_throws
    [Call "/opt/scripts/nipongases.py" ["nipon"; "a.pdf"; "{}"] "job-4";
     StdoutData 0 "uno "; StderrData 0 "aviso"; StdoutData 0 "dos"]
    _ 0%nat _ ltac:(vm_compute; reflexivity) eq_refl) as (Ho & He & _).
  split; [exact Ho | exact He].
Defined.


Lemma only_python_scripts_spawned_witness :
  let evs := [Call "/opt/scripts/AIRLIQUIDE.PY" ["galicia"] "job-6"] in
  exists st inv c,
    posix_run evs init = Some st /\
    invocations st !! 0%nat = Some inv /\
    child inv = Some c /\ spawnfile c = "python".
Proof.
  cbv zeta. eexists. eexists. eexists.
  split; [vm_compute; reflexivity |]. split; [reflexivity |].
  split; [reflexivity |].
  exact (proj1 (only_python_scripts_spawned
    PosixPath.basename PosixPath.extname PosixPath.toLowerCase
    ChildProcess.spawn_throws
    [Call "/opt/scripts/AIRLIQUIDE.PY" ["galicia"] "job-6"]
    _ 0%nat _ _ ltac:(vm_compute; reflexivity) eq_refl eq_refl)).
Defined.

Lemma close_releases_program_witness :
  let call := Call "/opt/scripts/airliquide.py" ["galicia"] "job-1" in
  exists st st',
    posix_run [call] init = Some st /\
    posix_step (Close 0 (Some 1)) st = Some st' /\
    runningScripts st' !! "airliquide.py" = Some false /\
    posix_runScript "/opt/scripts/airliquide.py" ["bilbao"] "job-2" st' =
      {| runningScripts := <["airliquide.py" := true]> (runningScripts st');
         invocations :=
           invocations st' ++
           [spawned "job-2" "airliquide.py" "/opt/scripts/airliquide.py"
              ["bilbao"] (timeout_of "airliquide.py")] |}.
Proof.
  cbv zeta. eexists.
  destruct (close_releases_program
    PosixPath.basename PosixPath.extname PosixPath.toLowerCase
    ChildProcess.spawn_throws
    [Call "/opt/scripts/airliquide.py" ["galicia"] "job-1"]
    _ 0%nat
    (spawned "job-1" "airliquide.py" "/opt/scripts/airliquide.py"
       ["galicia"] 180000)
    (Some 1) eq_refl eq_refl eq_refl)
    as (st' & inv' & Hstep & _ & _ & _ & Hflag & _ & Hnext).
  exists st'. split; [reflexivity |]. split; [exact Hstep |].
  split; [exact Hflag |].
  apply (Hnext "/opt/scripts/airliquide.py" ["bilbao"] "job-2"); reflexivity.
Defined.

Lemma inherited_names_always_refused_witness :
  let call := Call "/opt/scripts/airliquide.py" ["galicia"] "job-1" in
  exists st,
    posix_run [call] init = Some st /\
    posix_runScript "/opt/scripts/constructor" [] "job-2" st =
      {| runningScripts := runningScripts st;
         invocations :=
           invocations st ++
           [refused "job-2" "constructor" ScriptAlreadyRunning] |}.
Proof.
  cbv zeta. eexists. split; [reflexivity |].
  apply (inherited_names_always_refused
    PosixPath.basename PosixPath.extname PosixPath.toLowerCase
    ChildProcess.spawn_throws
    [Call "/opt/scripts/airliquide.py" ["galicia"] "job-1"]
    _ "/opt/scripts/constructor" [] "job-2" eq_refl).
  vm_compute. set_solver.
Defined.

End ExecutorExtras.

(** * Further properties of the admission queue *)

Module QueueExtras.

Import Queue.
Local Open Scope Z_scope.

Lemma run_app cfg evs1 evs2 s :
  run cfg (evs1 ++ evs2) s =
    match run cfg evs1 s with
    | Some s1 => run cfg evs2 s1
    | None => None
    end.
Proof.
  revert s. induction evs1 as [| e evs1 IH]; intros s; cbn; [done |].
  destruct (step cfg e s); [apply IH | done].
Qed.

Lemma answers_app cfg evs1 evs2 s s1 :
  run cfg evs1 s = Some s1 ->
  answers cfg (evs1 ++ evs2) s = answers cfg evs1 s ++ answers cfg evs2 s1.
Proof.
  revert s. induction evs1 as [| e evs1 IH]; intros s; cbn.
  - by intros [= <-].
  - destruct e as [jobFunc | i o]; cbn.
    + intros Hrun. f_equal. by apply IH.
    + destruct (settle cfg i o s) as [r |]; cbn; [| done]. apply IH.
Qed.

(** [processQueue] starts one unit at most each time it is called, and yet
    in every run no slot is left free while a unit is pending: whenever
    the pending sequence is not empty, [running] is [MAX_CONCURRENT]. *)
Theorem every_slot_busy_while_pending cfg evs s :
  0 <= MAX_CONCURRENT cfg ->
  run cfg evs init = Some s ->
  queue s <> [] ->
  running s = MAX_CONCURRENT cfg /\
  Z.of_nat (length (inflight s)) + leaked s = MAX_CONCURRENT cfg.
Proof.
  intros Hpos Hrun Hne.
  destruct (QueueFacts.run_sound cfg evs init s (QueueFacts.init_sound cfg) Hrun)
    as (Hc & Hw & _ & Ha).
  unfold capped, work_conserving, accounted in *.
  assert (running s = MAX_CONCURRENT cfg).
  { destruct (Z.lt_ge_cases (running s) (MAX_CONCURRENT cfg)) as [Hlt | Hge];
      [by destruct (Hne (Hw Hlt)) | lia]. }
  split; [assumption | lia].
Qed.

Lemma every_slot_busy_while_pending_witness :
  let evs := [Enqueue (unit_of_work 1); Enqueue (unit_of_work 2)] in
  exists s,
    run executor_config evs init = Some s /\ running s = 1.
Proof.
  cbv zeta. eexists. split; [reflexivity |].
  refine (proj1 (every_slot_busy_while_pending executor_config
    [Enqueue (unit_of_work 1); Enqueue (unit_of_work 2)] _ _ eq_refl _)).
  - cbn. lia.
  - cbn. discriminate.
Defined.

(** What the queue holds after a burst of submissions from the idle
    state. *)
Lemma run_burst (c q : nat) (units : list job) :
  (0 < q)%nat ->
  (length units <= c + q)%nat ->
  Forall (fun j => returns_promise j = true) units ->
  let cfg := {| MAX_CONCURRENT := Z.of_nat c; MAX_QUEUE_SIZE := Z.of_nat q |} in
  run cfg (Enqueue <$> units) init =
    Some {| running := Z.of_nat (length (take c units));
            queue := drop c units;
            admitted := units;
            started := take c units;
            inflight := take c units |} /\
  answers cfg (Enqueue <$> units) init =
    replicate (length units) (Normal true).
Proof.
  intros Hq. cbv zeta.
  induction units as [| u units IH] using rev_ind; intros Hlen Hasync.
  - cbn. by rewrite take_nil, drop_nil.
  - rewrite length_app in Hlen. cbn in Hlen.
    apply Forall_app in Hasync as [Hasync Hu].
    apply Forall_cons in Hu as [Hu _].
    destruct IH as [Hrun Hans]; [lia | done |].
    rewrite fmap_app, run_app, Hrun.
    rewrite (answers_app _ _ _ _ _ Hrun), Hans. cbn.
    set (s := {| running := Z.of_nat (length (take c units));
                 queue := drop c units; admitted := units;
                 started := take c units; inflight := take c units |}).
    assert (Hroom : Z.of_nat (length (queue s)) < Z.of_nat q).
    { cbn. rewrite length_drop. lia. }
    rewrite QueueFacts.enqueue_room by exact Hroom.
    rewrite length_app, replicate_add. cbn [length replicate].
    destruct (decide (length units < c)%nat) as [Hfree | Hbusy].
    + assert (Hdrop : drop c units = []) by (apply drop_ge; lia).
      assert (Htake : take c units = units) by (apply take_ge; lia).
      unfold processQueue. cbn. rewrite Hdrop, Htake. cbn.
      destruct (Z.geb_spec (Z.of_nat (length units)) (Z.of_nat c)); [lia |].
      unfold returns_promise in Hu.
      destruct (job_call u) eqn:Hcall; [| done]. cbn.
      rewrite take_ge by (rewrite length_app; cbn; lia).
      rewrite drop_ge by (rewrite length_app; cbn; lia).
      rewrite length_app. cbn.
      split; [| done]. do 2 f_equal. lia.
    + assert (Hlt : length (take c units) = c) by (rewrite length_take; lia).
      unfold processQueue. cbn. rewrite Hlt.
      destruct (Z.geb_spec (Z.of_nat c) (Z.of_nat c)); [| lia]. cbn.
      rewrite take_app_le, drop_app_le by lia.
      split; [| done]. unfold push, s. cbn. by rewrite Hlt.
Qed.

(** From the idle state, with a queue size of at least one, the queue
    accepts [MAX_CONCURRENT + MAX_QUEUE_SIZE] units in a row: the first
    [MAX_CONCURRENT] are started at once, in order, and the others wait,
    in order; one more submission is refused and changes nothing.  With the
    values of the executor that is twenty-one units. *)
Theorem burst_capacity (c q : nat) (units : list job) (extra : job) :
  (0 < q)%nat ->
  length units = (c + q)%nat ->
  Forall (fun j => returns_promise j = true) units ->
  let cfg := {| MAX_CONCURRENT := Z.of_nat c; MAX_QUEUE_SIZE := Z.of_nat q |} in
  exists s,
    run cfg (Enqueue <$> units) init = Some s /\
    answers cfg (Enqueue <$> units) init =
      replicate (c + q) (Normal true) /\
    started s = take c units /\
    queue s = drop c units /\
    running s = Z.of_nat c /\
    enqueue cfg extra s = (s, Normal false).
Proof.
  intros Hq Hlen Hasync. cbv zeta.
  destruct (run_burst c q units Hq) as [Hrun Hans]; [lia | done |].
  eexists. split; [exact Hrun |]. rewrite Hans, Hlen.
  split; [done |]. split; [done |]. split; [done |].
  split; [cbn; rewrite length_take; lia |].
  apply QueueFacts.enqueue_full. cbn. rewrite length_drop. lia.
Qed.

Lemma burst_capacity_witness :
  let cfg := {| MAX_CONCURRENT := 1; MAX_QUEUE_SIZE := 2 |} in
  let units := [unit_of_work 1; unit_of_work 2; unit_of_work 3] in
  exists s,
    run cfg (Enqueue <$> units) init = Some s /\
    started s = [unit_of_work 1] /\
    queue s = [unit_of_work 2; unit_of_work 3] /\
    enqueue cfg (unit_of_work 4) s = (s, Normal false).
Proof.
  cbv zeta.
  destruct (burst_capacity 1 2
              [unit_of_work 1; unit_of_work 2; unit_of_work 3]
              (unit_of_work 4))
    as (s & Hrun & _ & Hst & Hqu & _ & Hfull).
  - lia.
  - reflexivity.
  - by repeat constructor.
  - exists s. split; [exact Hrun |]. split; [exact Hst |].
    split; [exact Hqu | exact Hfull].
Defined.

(** A queue size that is not positive shuts the queue: every submission is
    refused, also when every slot is free. *)
Theorem zero_queue_size_refuses_all cfg evs s jobFunc :
  MAX_QUEUE_SIZE cfg <= 0 ->
  run cfg evs init = Some s ->
  s = init /\ enqueue cfg jobFunc s = (init, Normal false).
Proof.
  intros Hq. revert s.
  assert (Hstep : forall e s', step cfg e init = Some s' -> s' = init).
  { intros [j | i o] s'; cbn.
    - rewrite QueueFacts.enqueue_full by (cbn; lia). by intros [= <-].
    - done. }
  assert (Hrun : forall evs' s', run cfg evs' init = Some s' -> s' = init).
  { induction evs' as [| e evs' IH]; intros s'; cbn.
    - by intros [= <-].
    - destruct (step cfg e init) as [s1 |] eqn:He; [| done].
      rewrite (Hstep e s1 He). apply IH. }
  intros s Hs. rewrite (Hrun evs s Hs). split; [done |].
  apply QueueFacts.enqueue_full. cbn. lia.
Qed.

Lemma zero_queue_size_refuses_all_witness :
  let cfg := {| MAX_CONCURRENT := 4; MAX_QUEUE_SIZE := 0 |} in
  enqueue cfg (unit_of_work 1) init = (init, Normal false).
Proof.
  cbv zeta.
  apply (zero_queue_size_refuses_all
           {| MAX_CONCURRENT := 4; MAX_QUEUE_SIZE := 0 |}
           [Enqueue (unit_of_work 7)] init (unit_of_work 1)).
  - cbn. lia.
  - reflexivity.
Defined.

End QueueExtras.

(** * Properties of the history *)

Module HistoryFacts.

Import History.

Lemma filter_all_kept {A} (P : A -> Prop) `{!forall x, Decision (P x)}
    (l : list A) :
  length (filter P l) = length l -> filter P l = l.
Proof.
  induction l as [| x l IH]; [done |].
  destruct (decide (P x)) as [HP | HP].
  - rewrite filter_cons_True by done. cbn. intros [= Hl]. by rewrite IH.
  - rewrite filter_cons_False by done. cbn. intros Hl.
    pose proof (length_filter P l). lia.
Qed.

Lemma filter_filter_same {A} (P : A -> Prop) `{!forall x, Decision (P x)}
    (l : list A) :
  filter P (filter P l) = filter P l.
Proof.
  induction l as [| x l IH]; [done |].
  destruct (decide (P x)) as [HP | HP].
  - rewrite filter_cons_True by done. rewrite filter_cons_True by done.
    by rewrite IH.
  - by rewrite filter_cons_False by done.
Qed.

Lemma store_eta s : {| file := file s; initialData := initialData s |} = s.
Proof. by destruct s. Qed.

(** ** Adding and reading back *)

Lemma addEntry_returns req new_id now wrote s :
  snd (addEntry req new_id now wrote s) = make_entry req new_id now.
Proof. unfold addEntry. by destruct (read s). Qed.

Lemma addEntry_appends req new_id now wrote s :
  wrote = Written \/ file s = None ->
  getEntries (fst (addEntry req new_id now wrote s)) =
    getEntries s ++ [make_entry req new_id now].
Proof.
  unfold addEntry, getEntries, read.
  destruct (file s) as [d |] eqn:Hf; cbn.
  - by intros [-> | [=]].
  - intros _. destruct wrote; cbn; by rewrite ?Hf.
Qed.

(** [addEntry] returns the entry it built and appends it to what
    [getEntries] returns, when the write is taken or when the file could
    not be read (the entry then sits in the shared [initialData]).  When
    the file can be read but the write fails, the entry is lost without an
    error: if the file was not opened the store is left as it was; if the
    write failed after the open, which empties the file, the file can no
    longer be read, and [getEntries] gives the entries of [initialData]
    instead of those the file held. *)
Theorem added_entry_read_back req new_id now wrote s :
  snd (addEntry req new_id now wrote s) = make_entry req new_id now /\
  (wrote = Written \/ file s = None ->
     getEntries (fst (addEntry req new_id now wrote s)) =
       getEntries s ++ [make_entry req new_id now]) /\
  (is_Some (file s) -> wrote = NotOpened ->
     fst (addEntry req new_id now wrote s) = s) /\
  (is_Some (file s) -> wrote = Truncated ->
     file (fst (addEntry req new_id now wrote s)) = None /\
     initialData (fst (addEntry req new_id now wrote s)) = initialData s /\
     getEntries (fst (addEntry req new_id now wrote s)) =
       entries (initialData s)).
Proof.
  split; [apply addEntry_returns |]. split; [apply addEntry_appends |].
  unfold addEntry, getEntries, read.
  destruct (file s) as [d |] eqn:Hf; cbn.
  - split; [by intros _ -> | by intros _ ->].
  - split; by intros [? [=]].
Qed.

Lemma added_entry_read_back_witness :
  let req := {| req_filename := "pedido.pdf"; req_cliente := "nipongases";
                req_status := "success"; req_errorMessage := None;
                req_errorDetail := None; req_processedBy := None |} in
  getEntries (fst (addEntry req "id-1" "2025-11-25T10:30:44.000Z" Truncated
                     (boot "2025-11-01T00:00:00.000Z"))) =
    [make_entry req "id-1" "2025-11-25T10:30:44.000Z"].
Proof.
  cbv zeta.
  apply (proj1 (proj2 (added_entry_read_back
    {| req_filename := "pedido.pdf"; req_cliente := "nipongases";
       req_status := "success"; req_errorMessage := None;
       req_errorDetail := None; req_processedBy := None |}
    "id-1" "2025-11-25T10:30:44.000Z" Truncated
    (boot "2025-11-01T00:00:00.000Z")))).
  right. reflexivity.
Defined.

Lemma add_all_app calls1 calls2 s :
  add_all (calls1 ++ calls2) s =
    let '(s1, es1) := add_all calls1 s in
    let '(s2, es2) := add_all calls2 s1 in
    (s2, es1 ++ es2).
Proof.
  revert s. induction calls1 as [| c calls1 IH]; intros s; cbn.
  - by destruct (add_all calls2 s).
  - destruct (addEntry _ _ _ _ s) as [s1 e]. rewrite IH.
    destruct (add_all calls1 s1) as [s2 es1].
    by destruct (add_all calls2 s2).
Qed.

(** Entries come back in the order they were added: after any number of
    calls of [addEntry] whose writes are taken, [getEntries] is what it was
    followed by the entries returned, in order, and the file holds exactly
    that. *)
Theorem entries_kept_in_order calls s :
  Forall (fun c => call_wrote c = Written) calls ->
  snd (add_all calls s) =
    (fun c => make_entry (call_request c) (call_id c) (call_now c)) <$> calls /\
  getEntries (fst (add_all calls s)) = getEntries s ++ snd (add_all calls s) /\
  (calls <> [] ->
   exists d, file (fst (add_all calls s)) = Some d /\
             entries d = getEntries s ++ snd (add_all calls s)).
Proof.
  intros Hok. revert s.
  induction Hok as [| c calls Hc _ IH]; intros s; cbn.
  - rewrite app_nil_r. done.
  - destruct (addEntry _ _ _ _ s) as [s1 e] eqn:Hadd.
    pose proof (addEntry_returns (call_request c) (call_id c) (call_now c)
                  (call_wrote c) s) as He.
    pose proof (addEntry_appends (call_request c) (call_id c) (call_now c)
                  (call_wrote c) s (or_introl Hc)) as Hget.
    rewrite Hadd in He, Hget. cbn in He, Hget.
    destruct (IH s1) as (Hes & Hall & Hfile).
    destruct (add_all calls s1) as [s2 es] eqn:Hrest. cbn in *.
    split; [by rewrite He, Hes |].
    assert (Happ : getEntries s1 ++ es = getEntries s ++ e :: es).
    { rewrite Hget, <- app_assoc, He. done. }
    split; [by rewrite Hall |].
    intros _. destruct calls as [| c' calls'].
    + cbn in Hrest. injection Hrest as <- <-.
      unfold addEntry, read in Hadd. rewrite Hc in Hadd.
      destruct (file s) as [d |] eqn:Hf; injection Hadd as <- <-; cbn;
        eexists; (split; [done |]); cbn; unfold getEntries, read;
        by rewrite Hf.
    + destruct Hfile as (d & Hd & Hent); [done |].
      exists d. split; [done |]. by rewrite Hent.
Qed.

Lemma entries_kept_in_order_witness :
  let call n :=
    {| call_request :=
         {| req_filename := n; req_cliente := "nipongases";
            req_status := "success"; req_errorMessage := None;
            req_errorDetail := None; req_processedBy := Some "manual" |};
       call_id := n; call_now := "2025-11-25T10:30:44.000Z";
       call_wrote := Written |} in
  let calls := [call "a.pdf"; call "b.pdf"] in
  let s := boot "2025-11-01T00:00:00.000Z" in
  Forall (fun c => call_wrote c = Written) calls /\
  getEntries (fst (add_all calls s)) = getEntries s ++ snd (add_all calls s).
Proof.
  cbv zeta.
  assert (Hok : Forall (fun c => call_wrote c = Written)
    [ {| call_request :=
           {| req_filename := "a.pdf"; req_cliente := "nipongases";
              req_status := "success"; req_errorMessage := None;
              req_errorDetail := None; req_processedBy := Some "manual" |};
         call_id := "a.pdf"; call_now := "2025-11-25T10:30:44.000Z";
         call_wrote := Written |};
      {| call_request :=
           {| req_filename := "b.pdf"; req_cliente := "nipongases";
              req_status := "success"; req_errorMessage := None;
              req_errorDetail := None; req_processedBy := Some "manual" |};
         call_id := "b.pdf"; call_now := "2025-11-25T10:30:44.000Z";
         call_wrote := Written |} ]) by (by repeat constructor).
  split; [exact Hok |].
  exact (proj1 (proj2 (entries_kept_in_order _
    (boot "2025-11-01T00:00:00.000Z") Hok))).
Defined.

(** When the file cannot be read and no write is taken, whether the file
    is not opened or is left empty, nothing is lost all the same: the
    entries pile up, in order, in the shared [initialData], and the file
    stays unreadable. *)
Theorem entries_kept_in_memory calls s :
  file s = None ->
  Forall (fun c => call_wrote c <> Written) calls ->
  file (fst (add_all calls s)) = None /\
  getEntries (fst (add_all calls s)) = getEntries s ++ snd (add_all calls s) /\
  entries (initialData (fst (add_all calls s))) =
    entries (initialData s) ++ snd (add_all calls s).
Proof.
  intros Hf Hfail. revert s Hf.
  induction Hfail as [| c calls Hc _ IH]; intros s Hf; cbn.
  - by rewrite !app_nil_r.
  - unfold addEntry, read. rewrite Hf. cbn.
    set (d1 := {| entries := _; lastCleanup := _ |}).
    assert (Hw : write d1 (call_wrote c) {| file := file s; initialData := d1 |}
                 = {| file := None; initialData := d1 |}).
    { destruct (call_wrote c); cbn; [done | by rewrite Hf | done]. }
    rewrite Hw.
    set (s1 := {| file := None; initialData := d1 |}).
    destruct (IH s1) as (Hf1 & Hget & Hmem); [done |].
    destruct (add_all calls s1) as [s2 es]. cbn in *.
    split; [done |].
    split.
    + rewrite Hget. unfold getEntries, read. rewrite Hf. cbn.
      by rewrite <- app_assoc.
    + rewrite Hmem. by rewrite <- app_assoc.
Qed.

Lemma entries_kept_in_memory_witness :
  let call n :=
    {| call_request :=
         {| req_filename := n; req_cliente := "nipongases";
            req_status := "error"; req_errorMessage := Some "Error en script";
            req_errorDetail := Some "traza"; req_processedBy := Some "manual" |};
       call_id := n; call_now := "2025-11-25T10:30:44.000Z";
       call_wrote := if decide (n = "a.pdf") then NotOpened else Truncated |} in
  let calls := [call "a.pdf"; call "b.pdf"] in
  let s := boot "2025-11-01T00:00:00.000Z" in
  file s = None /\
  getEntries (fst (add_all calls s)) = getEntries s ++ snd (add_all calls s).
Proof.
  cbv zeta. split; [reflexivity |].
  refine (proj1 (proj2 (entries_kept_in_memory _
    (boot "2025-11-01T00:00:00.000Z") eq_refl _))).
  repeat constructor; done.
Defined.

(** ** Retention *)

Section Retention.

Variable parse : string -> option Z.

Local Abbreviation newer := (History.newer parse).
Local Abbreviation cleanup := (History.cleanup parse).

Lemma cleanup_cases cutoff now ok s :
  let d := fst (read s) in
  let o := snd (read s) in
  let kept := filter (fun e => newer cutoff e = true) (entries d) in
  (kept = entries d /\
   cleanup cutoff now ok s =
     assign o {| entries := kept; lastCleanup := lastCleanup d |} s) \/
  ((length kept < length (entries d))%nat /\
   cleanup cutoff now ok s =
     write {| entries := kept; lastCleanup := now |} ok
       (assign o {| entries := kept; lastCleanup := now |} s)).
Proof.
  cbv zeta. unfold History.cleanup. destruct (read s) as [d o].
  cbn [fst snd].
  destruct (length (filter (fun e => newer cutoff e = true) (entries d))
            <? length (entries d))%nat eqn:Hlt.
  - right. apply Nat.ltb_lt in Hlt. done.
  - left. split; [| done]. apply filter_all_kept.
    apply Nat.ltb_ge in Hlt.
    pose proof (length_filter (fun e => newer cutoff e = true) (entries d)).
    lia.
Qed.

Lemma filter_all_true {A} (P : A -> Prop) `{!forall x, Decision (P x)}
    (l : list A) :
  Forall P l -> filter P l = l.
Proof.
  induction 1 as [| x l Hx _ IH]; [done |].
  by rewrite filter_cons_True, IH.
Qed.

Lemma Forall_filter_same {A} (P : A -> Prop) `{!forall x, Decision (P x)}
    (l : list A) :
  Forall P (filter P l).
Proof.
  apply Forall_forall. intros x Hx. by apply list_elem_of_filter in Hx as [? _].
Qed.

Lemma cleanup_keeps cutoff now ok s :
  ok = Written \/ file s = None ->
  getEntries (cleanup cutoff now ok s) =
    filter (fun e => newer cutoff e = true) (getEntries s).
Proof.
  pose proof (cleanup_cases cutoff now ok s) as Hcases. cbv zeta in Hcases.
  unfold getEntries in *. unfold read in *.
  destruct (file s) as [d |] eqn:Hf; cbn in *.
  - intros [-> | [=]].
    destruct Hcases as [[Hk ->] | [_ ->]]; cbn; [by rewrite Hf, Hk | done].
  - intros _. destruct Hcases as [[Hk ->] | [_ ->]]; cbn.
    + by rewrite Hf.
    + destruct ok; cbn; by rewrite ?Hf.
Qed.

Lemma cleanup_nothing_to_drop cutoff now ok s :
  Forall (fun e => newer cutoff e = true) (getEntries s) ->
  cleanup cutoff now ok s = s.
Proof.
  pose proof (cleanup_cases cutoff now ok s) as Hcases. cbv zeta in Hcases.
  unfold getEntries in *. unfold read in *.
  destruct (file s) as [d |] eqn:Hf; cbn in *.
  - intros Hall. destruct Hcases as [[_ ->] | [Hlt _]]; [done |].
    rewrite (filter_all_true _ _ Hall) in Hlt. lia.
  - intros Hall. destruct Hcases as [[Hk ->] | [Hlt _]].
    + cbn. rewrite Hk. destruct s as [f [es lc]]. cbn in *. by subst.
    + rewrite (filter_all_true _ _ Hall) in Hlt. lia.
Qed.

(** [cleanup] keeps the entries whose timestamp is a valid date later than
    the cutoff, in their order, and drops the others, those with a
    timestamp that is no date among them: that is what [getEntries] gives
    afterwards when the write is taken or the file could not be read.  When
    no entry is to be dropped the file is not written and the store,
    [lastCleanup] included, is as before.  When the file can be read, an
    entry is to be dropped and the write fails, nothing is dropped: the
    store is as before if the file was not opened, and if the write failed
    after the open the file can no longer be read and [getEntries] gives
    the entries of [initialData]. *)
Theorem cleanup_retention cutoff now ok s :
  (ok = Written \/ file s = None ->
     getEntries (cleanup cutoff now ok s) =
       filter (fun e => newer cutoff e = true) (getEntries s)) /\
  (Forall (fun e => newer cutoff e = true) (getEntries s) ->
     cleanup cutoff now ok s = s) /\
  (is_Some (file s) -> ok = NotOpened -> cleanup cutoff now ok s = s) /\
  (is_Some (file s) -> ok = Truncated ->
     ~ Forall (fun e => newer cutoff e = true) (getEntries s) ->
     file (cleanup cutoff now ok s) = None /\
     initialData (cleanup cutoff now ok s) = initialData s /\
     getEntries (cleanup cutoff now ok s) = entries (initialData s)).
Proof.
  split; [apply cleanup_keeps |]. split; [apply cleanup_nothing_to_drop |].
  pose proof (cleanup_cases cutoff now ok s) as Hcases. cbv zeta in Hcases.
  unfold getEntries in *. unfold read in *.
  destruct (file s) as [d |] eqn:Hf; cbn in *.
  - split.
    + intros _ ->. by destruct Hcases as [[_ ->] | [_ ->]].
    + intros _ -> Hsome. destruct Hcases as [[Hk _] | [_ ->]]; [| done].
      destruct Hsome. rewrite <- Hk. apply Forall_filter_same.
  - split; by intros [? [=]].
Qed.

(** Cleaning twice with one cutoff is cleaning once: the second call finds
    nothing to drop, writes nothing and leaves [lastCleanup] at the time of
    the first. *)
Theorem cleanup_idempotent cutoff now1 now2 ok1 ok2 s :
  ok1 = Written \/ file s = None ->
  cleanup cutoff now2 ok2 (cleanup cutoff now1 ok1 s) =
    cleanup cutoff now1 ok1 s.
Proof.
  intros Hok.
  apply (cleanup_nothing_to_drop cutoff now2 ok2 (cleanup cutoff now1 ok1 s)).
  rewrite (cleanup_keeps cutoff now1 ok1 s Hok).
  apply Forall_filter_same.
Qed.

(** An entry added and then cleaned is kept when its timestamp is a date
    later than the cutoff and dropped otherwise, and the entries that were
    there are filtered the same way, the new entry staying last. *)
Theorem added_then_cleaned req new_id now cutoff now' s :
  let e := make_entry req new_id now in
  getEntries (cleanup cutoff now' Written
                (fst (addEntry req new_id now Written s))) =
    filter (fun e => newer cutoff e = true) (getEntries s) ++
    (if newer cutoff e then [e] else []).
Proof.
  cbv zeta.
  rewrite (cleanup_keeps cutoff now' Written _ (or_introl eq_refl)).
  rewrite (addEntry_appends req new_id now Written s (or_introl eq_refl)).
  rewrite filter_app. f_equal.
  destruct (newer cutoff (make_entry req new_id now)) eqn:Hn.
  - by rewrite filter_cons_True.
  - rewrite filter_cons_False; [done |]. by rewrite Hn.
Qed.

End Retention.

Lemma cleanup_retention_witness :
  let s :=
    {| file := Some {| entries :=
                         [example_entry "viejo.pdf" "2025-10-01T08:00:00.000Z";
                          example_entry "roto.pdf" "ayer";
                          example_entry "nuevo.pdf" "2025-11-25T10:30:44.000Z"];
                       lastCleanup := "2025-09-01T00:00:00.000Z" |};
       initialData := {| entries := []; lastCleanup := "" |} |} in
  getEntries (cleanup example_parse 1761475844000%Z
                "2025-11-25T10:30:45.000Z" Written s) =
    [example_entry "nuevo.pdf" "2025-11-25T10:30:44.000Z"].
Proof.
  cbv zeta.
  rewrite (proj1 (cleanup_retention example_parse 1761475844000%Z
                    "2025-11-25T10:30:45.000Z" Written _) (or_introl eq_refl)).
  reflexivity.
Defined.

Lemma cleanup_idempotent_witness :
  let s :=
    {| file := None;
       initialData :=
         {| entries := [example_entry "viejo.pdf" "2025-10-01T08:00:00.000Z"];
            lastCleanup := "2025-09-01T00:00:00.000Z" |} |} in
  cleanup example_parse 1761475844000%Z "t2" Written
    (cleanup example_parse 1761475844000%Z "t1" Truncated s) =
  cleanup example_parse 1761475844000%Z "t1" Truncated s.
Proof.
  cbv zeta.
  apply (cleanup_idempotent example_parse 1761475844000%Z "t1" "t2"
           Truncated Written).
  right. reflexivity.
Defined.

End HistoryFacts.

(** * Properties of the history endpoint *)

Module HistoryViewFacts.

Import History HistoryView.

Local Open Scope Z_scope.

(** ** Slices *)

Lemma js_slice_from {A} (a n : nat) (l : list A) :
  js_slice (Z.of_nat a) (Z.of_nat a + Z.of_nat n) l = take n (drop a l).
Proof.
  unfold js_slice, relative_index.
  destruct (Z.ltb_spec (Z.of_nat a) 0) as [? | _]; [lia |].
  destruct (Z.ltb_spec (Z.of_nat a + Z.of_nat n) 0) as [? | _]; [lia |].
  destruct (decide (a <= length l)%nat) as [Hin | Hout].
  - rewrite (Z.min_l (Z.of_nat a)) by lia. rewrite Nat2Z.id.
    destruct (decide (a + n <= length l)%nat) as [Hall | Hpart].
    + rewrite Z.min_l by lia. f_equal. lia.
    + rewrite Z.min_r by lia.
      rewrite (take_ge (drop a l) n) by (rewrite length_drop; lia).
      rewrite take_ge; [done |]. rewrite length_drop. lia.
  - rewrite !Z.min_r by lia. rewrite Z.sub_diag.
    rewrite !drop_ge by lia. by rewrite !take_nil.
Qed.

Lemma js_slice_length {A} (start : Z) (n : nat) (l : list A) :
  (length (js_slice start (start + Z.of_nat n) l) <= n)%nat.
Proof.
  unfold js_slice. rewrite length_take.
  assert (relative_index l (start + Z.of_nat n) - relative_index l start
          <= Z.of_nat n); [| lia].
  unfold relative_index.
  destruct (Z.ltb_spec start 0), (Z.ltb_spec (start + Z.of_nat n) 0); lia.
Qed.

Lemma js_slice_sublist {A} (start stop : Z) (l : list A) :
  js_slice start stop l `sublist_of` l.
Proof.
  unfold js_slice. etrans; [apply sublist_take | apply sublist_drop].
Qed.

Lemma chunks_concat {A} (n k : nat) (l : list A) :
  concat ((fun i => take n (drop (n * i) l)) <$> seq 0 k) = take (n * k) l.
Proof.
  induction k as [| k IH]; [by rewrite Nat.mul_0_r |].
  rewrite seq_S, fmap_app, concat_app, IH. cbn. rewrite app_nil_r.
  rewrite take_take_drop. f_equal. lia.
Qed.

Lemma page_count_bounds (n : nat) :
  0 <= page_count n /\
  Z.of_nat n <= perPage * page_count n /\
  ((0 < n)%nat -> perPage * (page_count n - 1) < Z.of_nat n) /\
  (n = 0%nat -> page_count n = 0).
Proof.
  unfold page_count, perPage.
  pose proof (Z.div_mod (Z.of_nat n + 30 - 1) 30 ltac:(lia)).
  pose proof (Z.mod_pos_bound (Z.of_nat n + 30 - 1) 30 ltac:(lia)).
  repeat split; lia.
Qed.

Section Listing.

Variable parse : string -> option Z.
Variable day_of_timestamp : string -> string.
Variable day_of_query : string -> string.

Local Abbreviation selected :=
  (HistoryView.selected parse day_of_timestamp day_of_query).
Local Abbreviation getHistory :=
  (HistoryView.getHistory parse day_of_timestamp day_of_query).
Local Abbreviation page_of :=
  (HistoryView.page_of parse day_of_timestamp day_of_query).
Local Abbreviation by_date := (HistoryView.by_date day_of_timestamp day_of_query).

Lemma getHistory_response q s :
  fst (getHistory q s) =
    {| resp_entries :=
         js_slice ((page q - 1) * perPage) ((page q - 1) * perPage + perPage)
           (selected q s);
       currentPage := page q;
       totalPages := page_count (length (selected q s));
       totalEntries := length (selected q s);
       stats_success := count_status "success" (selected q s);
       stats_errors := count_status "error" (selected q s);
       stats_total := length (selected q s) |}.
Proof. unfold HistoryView.getHistory. by destruct (read s). Qed.

Lemma page_of_slice q p s :
  page_of q p s =
    js_slice ((p - 1) * perPage) ((p - 1) * perPage + perPage) (selected q s).
Proof. unfold HistoryView.page_of. by rewrite getHistory_response. Qed.

Lemma page_of_positive q (i : nat) s :
  page_of q (Z.of_nat (S i)) s = take 30 (drop (30 * i) (selected q s)).
Proof.
  rewrite page_of_slice. unfold perPage.
  replace ((Z.of_nat (S i) - 1) * 30) with (Z.of_nat (30 * i)) by lia.
  apply (js_slice_from (30 * i) 30).
Qed.

(** ** Pages *)

(** The pages [1] to [totalPages] of a query, one after the other, are the
    selected entries, each once and in order; a page never has more than
    thirty entries, none of those pages is empty, and every page after the
    last is empty. *)
Theorem pages_partition q s :
  let all := selected q s in
  concat ((fun p => page_of q (Z.of_nat p) s)
            <$> seq 1 (Z.to_nat (page_count (length all)))) = all /\
  (forall p, (length (page_of q p s) <= 30)%nat) /\
  (forall p, 1 <= p <= page_count (length all) -> page_of q p s <> []) /\
  (forall p, page_count (length all) < p -> page_of q p s = []).
Proof.
  cbv zeta.
  destruct (page_count_bounds (length (selected q s)))
    as (Hpos & Hcover & Hlast & Hzero).
  unfold perPage in *.
  split; [| split; [| split]].
  - rewrite <- fmap_S_seq, <- list_fmap_compose.
    rewrite (list_fmap_ext _ (fun i => take 30 (drop (30 * i) (selected q s))));
      [| intros ? i _; apply page_of_positive].
    rewrite chunks_concat. apply take_ge. lia.
  - intros p. rewrite page_of_slice. apply (js_slice_length _ 30).
  - intros p [Hlo Hhi].
    assert (Hn : (0 < length (selected q s))%nat).
    { destruct (decide (length (selected q s) = 0%nat)) as [H0 | ?]; [| lia].
      specialize (Hzero H0). lia. }
    specialize (Hlast Hn).
    assert (Hp : p = Z.of_nat (S (Z.to_nat (p - 1)))) by lia.
    rewrite Hp, page_of_positive. intros Hnil.
    apply (f_equal length) in Hnil. rewrite length_take, length_drop in Hnil.
    cbn [length] in Hnil. lia.
  - intros p Hlt.
    assert (Hp : p = Z.of_nat (S (Z.to_nat (p - 1)))) by lia.
    rewrite Hp, page_of_positive, drop_ge; [by rewrite take_nil | lia].
Qed.

(** Page [0] is empty, and a page below zero counts from the end: page
    [-k] holds the thirty entries that end [30 * k] entries before the end
    of the list, when the list has that many. *)
Theorem pages_below_one q s (k : nat) :
  let all := selected q s in
  page_of q 0 s = [] /\
  ((30 * (k + 2) <= length all)%nat ->
   page_of q (- Z.of_nat (S k)) s =
     take 30 (drop (length all - 30 * (k + 2)) all)).
Proof.
  cbv zeta. rewrite !page_of_slice. unfold perPage, js_slice, relative_index.
  split.
  - destruct (Z.ltb_spec ((0 - 1) * 30) 0) as [_ | ?]; [| lia].
    destruct (Z.ltb_spec ((0 - 1) * 30 + 30) 0) as [? | _]; [lia |].
    replace (Z.to_nat _) with 0%nat by lia. done.
  - intros Hlen.
    destruct (Z.ltb_spec ((- Z.of_nat (S k) - 1) * 30) 0) as [_ | ?]; [| lia].
    destruct (Z.ltb_spec ((- Z.of_nat (S k) - 1) * 30 + 30) 0) as [_ | ?];
      [| lia].
    rewrite !Z.max_l by lia. f_equal; [lia |]. f_equal. lia.
Qed.

(** ** Order *)

Local Abbreviation insert_sorted := (HistoryView.insert_sorted parse).
Local Abbreviation sort_newest_first := (HistoryView.sort_newest_first parse).
Local Abbreviation goes_after := (HistoryView.goes_after parse).
Local Abbreviation descending := (HistoryView.descending parse).
Local Abbreviation not_newer := (HistoryView.not_newer parse).
Local Abbreviation dated := (HistoryView.dated parse).
Local Abbreviation newest_first := (HistoryView.newest_first parse).

Lemma insert_sorted_perm x l : insert_sorted x l ≡ₚ x :: l.
Proof.
  induction l as [| y l IH]; cbn; [done |].
  destruct (goes_after x y); [| done].
  rewrite IH. apply Permutation_swap.
Qed.

Lemma sort_perm l : sort_newest_first l ≡ₚ l.
Proof.
  induction l as [| x l IH]; [done |].
  change (insert_sorted x (sort_newest_first l) ≡ₚ x :: l).
  by rewrite insert_sorted_perm, IH.
Qed.

Lemma insert_sorted_descending x l :
  is_Some (parse (timestamp x)) -> dated l ->
  descending l -> descending (insert_sorted x l).
Proof.
  intros [tx Hx]. induction l as [| y l IH]; cbn; [done |].
  intros Hd [Hy Hl]. apply Forall_cons in Hd as [[ty Hty] Hd].
  unfold HistoryView.goes_after. rewrite Hx, Hty.
  destruct (Z.ltb_spec tx ty) as [Hlt | Hge]; cbn.
  - split; [| by apply IH].
    rewrite insert_sorted_perm. constructor; [| done].
    intros ta tb Ha Hb. rewrite Hx in Ha. rewrite Hty in Hb.
    injection Ha as <-. injection Hb as <-. lia.
  - split; [| done]. constructor.
    + intros ta tb Ha Hb. rewrite Hx in Hb. rewrite Hty in Ha.
      injection Ha as <-. injection Hb as <-. lia.
    + eapply Forall_impl; [exact Hy |]. intros z Hz ta tb Ha Hb.
      rewrite Hx in Hb. injection Hb as <-.
      specialize (Hz ta ty Ha Hty). lia.
Qed.

Lemma sort_descending l : dated l -> descending (sort_newest_first l).
Proof.
  induction l as [| x l IH]; [done |].
  intros Hd. apply Forall_cons in Hd as [Hx Hd].
  change (descending (insert_sorted x (sort_newest_first l))).
  apply insert_sorted_descending; [done | | by apply IH].
  unfold HistoryView.dated. by rewrite sort_perm.
Qed.

Lemma descending_newest_first l : descending l -> newest_first l.
Proof.
  induction l as [| x l IH]; intros Hl i j a b ta tb Hij Hi Hj Ha Hb.
  - by rewrite lookup_nil in Hi.
  - destruct Hl as [Hx Hl]. destruct j as [| j]; [lia |]. cbn in Hj.
    destruct i as [| i]; cbn in Hi.
    + injection Hi as <-.
      apply (Forall_lookup_1 _ _ _ _ Hx Hj tb ta Hb Ha).
    + apply (IH Hl i j a b ta tb); [lia | done..].
Qed.

Lemma insert_sorted_same_time x l (t : Z) :
  filter (fun e => parse (timestamp e) = Some t) (insert_sorted x l) =
  filter (fun e => parse (timestamp e) = Some t) (x :: l).
Proof.
  induction l as [| y l IH]; [done |].
  cbn [HistoryView.insert_sorted].
  destruct (goes_after x y) eqn:Hg; [| done].
  unfold HistoryView.goes_after in Hg.
  destruct (parse (timestamp x)) as [tx |] eqn:Hx; [| done].
  destruct (parse (timestamp y)) as [ty |] eqn:Hy; [| done].
  apply Z.ltb_lt in Hg.
  rewrite (filter_cons _ y), IH, !(filter_cons _ x), (filter_cons _ y).
  repeat case_decide; simplify_eq; try done; lia.
Qed.

Lemma sort_same_time l (t : Z) :
  filter (fun e => parse (timestamp e) = Some t) (sort_newest_first l) =
  filter (fun e => parse (timestamp e) = Some t) l.
Proof.
  induction l as [| x l IH]; [done |].
  change (sort_newest_first (x :: l))
    with (insert_sorted x (sort_newest_first l)).
  rewrite insert_sorted_same_time, !(filter_cons _ x), IH. done.
Qed.

(** The entries sent are those selected, each as many times as it is
    stored; when every timestamp is a date they are in order of time,
    the newest first, and entries with one and the same time keep the
    order they have in the history. *)
Theorem listing_newest_first q s :
  let chosen := by_client q (by_date q (getEntries s)) in
  selected q s ≡ₚ chosen /\
  (dated chosen -> newest_first (selected q s)) /\
  (forall t : Z,
     filter (fun e => parse (timestamp e) = Some t) (selected q s) =
     filter (fun e => parse (timestamp e) = Some t) chosen).
Proof.
  cbv zeta. unfold HistoryView.selected.
  split; [apply sort_perm |]. split.
  - intros Hd. by apply descending_newest_first, sort_descending.
  - intros t. apply sort_same_time.
Qed.

(** ** Filters and totals *)

(** Every entry of a page is an entry of the history that passes the
    filters of the query; the totals are those of all the entries
    selected, whatever the page asked for, and the successes and the
    errors together are no more than the total. *)
Theorem listing_matches_query q s :
  let r := fst (getHistory q s) in
  (forall e, e ∈ resp_entries r ->
     e ∈ getEntries s /\
     (forall c, client_filter q = Some c -> cliente e = c) /\
     (forall d, date_filter q = Some d ->
        day_of_timestamp (timestamp e) = day_of_query d)) /\
  totalEntries r = length (by_client q (by_date q (getEntries s))) /\
  stats_total r = totalEntries r /\
  (stats_success r + stats_errors r <= stats_total r)%nat /\
  (forall p,
     let r' := fst (getHistory {| date := date q; client := client q;
                                  page := p |} s) in
     totalEntries r' = totalEntries r /\ totalPages r' = totalPages r /\
     stats_success r' = stats_success r /\ stats_errors r' = stats_errors r).
Proof.
  cbv zeta. rewrite getHistory_response. cbn.
  split; [| split; [| split; [| split]]].
  - intros e He.
    apply (fun H => elem_of_sublist _ _ _ H (js_slice_sublist _ _ _)) in He.
    unfold HistoryView.selected in He. rewrite sort_perm in He.
    unfold HistoryView.by_client, HistoryView.by_date in He.
    destruct (client_filter q) as [c |], (date_filter q) as [d |];
      repeat (apply list_elem_of_filter in He as [? He]);
      split; try done; split; intros ? [= <-]; done.
  - unfold HistoryView.selected. by rewrite sort_perm.
  - done.
  - unfold count_status.
    induction (selected q s) as [| e l IH]; [cbn; lia |].
    rewrite !filter_cons.
    repeat case_decide; cbn [length]; first [lia | congruence].
  - intros p. by rewrite getHistory_response.
Qed.

(** ** What the endpoint leaves behind *)

(** Reading the history writes nothing: the file is as it was, so is
    [lastCleanup], and the entries stored are the same, each as many times.
    With a file that can be read, or with a filter in the query, the store
    is untouched; otherwise the shared array has been sorted in place. *)
Theorem listing_writes_nothing q s :
  let s' := snd (getHistory q s) in
  file s' = file s /\
  getEntries s' ≡ₚ getEntries s /\
  lastCleanup (fst (read s')) = lastCleanup (fst (read s)) /\
  (is_Some (file s) \/ is_Some (date_filter q) \/ is_Some (client_filter q) ->
   s' = s) /\
  (file s = None -> date_filter q = None -> client_filter q = None ->
   getEntries s' = sort_newest_first (getEntries s)).
Proof.
  cbv zeta. unfold HistoryView.getHistory, getEntries, read.
  destruct (file s) as [d |] eqn:Hf; cbn.
  - destruct (date_filter q), (client_filter q); cbn; rewrite ?Hf; cbn;
      repeat split; try done.
  - destruct (date_filter q) as [d |] eqn:Hd, (client_filter q) as [c |] eqn:Hc;
      cbn; rewrite ?Hf; cbn.
    1-3: repeat split; try done.
    split; [done |]. unfold HistoryView.selected, HistoryView.by_client,
      HistoryView.by_date, getEntries, read. rewrite Hd, Hc, Hf. cbn.
    split; [apply sort_perm |]. split; [done |]. split; [| done].
    intros [[? [=]] | [[? [=]] | [? [=]]]].
Qed.

End Listing.

(** ** Concrete queries *)

Local Abbreviation ex_selected :=
  (HistoryView.selected example_parse example_day example_day_of_query).
Local Abbreviation ex_getHistory :=
  (HistoryView.getHistory example_parse example_day example_day_of_query).
Local Abbreviation ex_page_of :=
  (HistoryView.page_of example_parse example_day example_day_of_query).

Lemma pages_partition_witness :
  let s := example_history
             [example_entry "viejo.pdf" "2025-10-01T08:00:00.000Z";
              example_entry "nuevo.pdf" "2025-11-25T10:30:44.000Z"] in
  1 <= 1 <= page_count (length (ex_selected (everything 1) s)) /\
  ex_page_of (everything 1) 1 s <> [].
Proof.
  cbv zeta.
  assert (H : 1 <= 1 <= page_count (length (ex_selected (everything 1)
    (example_history
       [example_entry "viejo.pdf" "2025-10-01T08:00:00.000Z";
        example_entry "nuevo.pdf" "2025-11-25T10:30:44.000Z"]))))
    by (vm_compute; split; discriminate).
  split; [exact H |].
  exact (proj1 (proj2 (proj2 (pages_partition example_parse example_day
    example_day_of_query (everything 1) _))) 1 H).
Defined.

Lemma pages_below_one_witness :
  let s := example_history
             (replicate 60 (example_entry "a.pdf" "2025-11-25T10:30:44.000Z")) in
  let all := ex_selected (everything 1) s in
  (30 * (0 + 2) <= length all)%nat /\
  ex_page_of (everything 1) (- Z.of_nat 1) s =
    take 30 (drop (length all - 30 * (0 + 2)) all).
Proof.
  cbv zeta.
  assert (H : (30 * (0 + 2) <= length (ex_selected (everything 1)
    (example_history
       (replicate 60 (example_entry "a.pdf" "2025-11-25T10:30:44.000Z")))))%nat)
    by (vm_compute; lia).
  split; [exact H |].
  exact (proj2 (pages_below_one example_parse example_day
    example_day_of_query (everything 1) _ 0) H).
Defined.

Lemma listing_newest_first_witness :
  let s := example_history
             [example_entry "viejo.pdf" "2025-10-01T08:00:00.000Z";
              example_entry "nuevo.pdf" "2025-11-25T10:30:44.000Z"] in
  HistoryView.newest_first example_parse (ex_selected (everything 1) s) /\
  filename <$> ex_selected (everything 1) s = ["nuevo.pdf"; "viejo.pdf"].
Proof.
  cbv zeta. split; [| reflexivity].
  apply (proj1 (proj2 (listing_newest_first example_parse example_day
    example_day_of_query (everything 1) _))).
  repeat constructor; cbn; eauto.
Defined.

Lemma listing_matches_query_witness :
  let nuevo := example_entry "nuevo.pdf" "2025-11-25T10:30:44.000Z" in
  let otro := {| id := "x"; filename := "otro.pdf"; cliente := "airliquide_bilbao";
                 status := "error"; timestamp := "2025-11-25T10:30:44.000Z";
                 errorMessage := Some "Error en script"; errorDetail := None;
                 processedBy := "manual" |} in
  let s := example_history [otro; nuevo] in
  let q := {| date := Some "25-11-2025"; client := Some "nipongases";
              page := 1 |} in
  nuevo ∈ resp_entries (fst (ex_getHistory q s)) /\
  cliente nuevo = "nipongases".
Proof.
  cbv zeta.
  assert (H : example_entry "nuevo.pdf" "2025-11-25T10:30:44.000Z" ∈
    resp_entries (fst (ex_getHistory
      {| date := Some "25-11-2025"; client := Some "nipongases"; page := 1 |}
      (example_history
         [ {| id := "x"; filename := "otro.pdf"; cliente := "airliquide_bilbao";
              status := "error"; timestamp := "2025-11-25T10:30:44.000Z";
              errorMessage := Some "Error en script"; errorDetail := None;
              processedBy := "manual" |};
           example_entry "nuevo.pdf" "2025-11-25T10:30:44.000Z"]))))
    by (vm_compute; constructor).
  split; [exact H |].
  exact (proj1 (proj2 (proj1 (listing_matches_query example_parse example_day
    example_day_of_query _ _) _ H)) "nipongases" eq_refl).
Defined.

Lemma listing_writes_nothing_witness :
  let s := example_history
             [example_entry "viejo.pdf" "2025-10-01T08:00:00.000Z";
              example_entry "nuevo.pdf" "2025-11-25T10:30:44.000Z"] in
  snd (ex_getHistory (everything 1) s) = s.
Proof.
  cbv zeta.
  apply (proj1 (proj2 (proj2 (proj2 (listing_writes_nothing example_parse
    example_day example_day_of_query (everything 1) _))))).
  left. cbn. eauto.
Defined.

End HistoryViewFacts.

(** * What a closure writes in the history *)

Module JobFacts.

Import Runner.


End JobFacts.

(** * Queue, runner and history together *)

Module PipelineFacts.

Import Pipeline.

Local Open Scope Z_scope.

Section Runs.

Variable basename : string -> string.
Variable extname : string -> string.
Variable toLowerCase : string -> string.
Variable spawn_throws : nat -> string -> list string -> option string.
Variable cfg : Queue.config.
Variable uuid : nat -> string.
Variable clock : nat -> string.
Variable wrote : nat -> History.write_outcome.

Local Abbreviation runScript :=
  (Runner.runScript basename extname toLowerCase spawn_throws).
Local Abbreviation start :=
  (Pipeline.start basename extname toLowerCase spawn_throws).
Local Abbreviation launch :=
  (Pipeline.launch basename extname toLowerCase spawn_throws).
Local Abbreviation resume :=
  (Pipeline.resume basename extname toLowerCase spawn_throws cfg uuid clock
     wrote).
Local Abbreviation microtasks :=
  (Pipeline.microtasks basename extname toLowerCase spawn_throws cfg uuid
     clock wrote).
Local Abbreviation checkpoint :=
  (Pipeline.checkpoint basename extname toLowerCase spawn_throws cfg uuid
     clock wrote).
Local Abbreviation step :=
  (Pipeline.step basename extname toLowerCase spawn_throws cfg uuid clock
     wrote).
Local Abbreviation run :=
  (Pipeline.run basename extname toLowerCase spawn_throws cfg uuid clock
     wrote).

(** ** The runner, one event of a child at a time *)

Lemma resolve_settled res p :
  p <> Runner.Pending -> Runner.resolve res p = p.
Proof. by destruct p. Qed.

Lemma reject_settled e p :
  p <> Runner.Pending -> Runner.reject e p = p.
Proof. by destruct p. Qed.

(** An event of a child changes one invocation.  Either the flags stay
    and the invocation keeps its promise, and its child is live as
    before, or the flag of its name is cleared, the child is not live
    and the promise has been through the listener of [close] or of
    [error]. *)
Lemma child_step_shape e r r' :
  Runner.step basename extname toLowerCase spawn_throws e r = Some r' ->
  (forall scriptPath args jobId, e <> Runner.Call scriptPath args jobId) ->
  exists k inv inv',
    Runner.invocations r !! k = Some inv /\
    Runner.invocations r' = <[k := inv']> (Runner.invocations r) /\
    Runner.scriptName inv' = Runner.scriptName inv /\
    ((Runner.runningScripts r' = Runner.runningScripts r /\
      Runner.executing inv' = Runner.executing inv /\
      Runner.returned inv' = Runner.returned inv) \/
     (Runner.runningScripts r' =
        <[Runner.scriptName inv := false]> (Runner.runningScripts r) /\
      Runner.executing inv' = false /\
      ((exists res, Runner.returned inv' =
                      Runner.resolve res (Runner.returned inv)) \/
       (exists err, Runner.returned inv' =
                      Runner.reject (Runner.ChildError err)
                        (Runner.returned inv))))).
Proof.
  intros Hstep Hcall. apply RunnerFacts.step_event in Hstep.
  destruct e as [scriptPath args jobId | k data | k data | k | k code | k err];
    [by destruct (Hcall scriptPath args jobId) | | | | |];
    destruct Hstep as (inv & Hk & Hg & ->); exists k, inv; eexists;
    (split; [exact Hk |]); (split; [reflexivity |]);
    (split; [reflexivity |]).
  - by left.
  - by left.
  - left. repeat split; try done. apply RunnerFacts.executing_timeout.
  - right. split; [done |]. split; [apply RunnerFacts.executing_close |].
    left. by eexists.
  - right. split; [done |]. split; [apply RunnerFacts.executing_error |].
    right. by eexists.
Qed.

(** A settled promise stays as it is. *)
Lemma child_step_settled e r r' k inv :
  Runner.step basename extname toLowerCase spawn_throws e r = Some r' ->
  (forall scriptPath args jobId, e <> Runner.Call scriptPath args jobId) ->
  Runner.invocations r !! k = Some inv ->
  Runner.returned inv <> Runner.Pending ->
  exists inv', Runner.invocations r' !! k = Some inv' /\
               Runner.scriptName inv' = Runner.scriptName inv /\
               Runner.returned inv' = Runner.returned inv.
Proof.
  intros Hstep Hcall Hk Hp.
  destruct (child_step_shape e r r' Hstep Hcall)
    as (k0 & inv0 & inv0' & Hk0 & Hinvs & Hname & Hcase).
  rewrite Hinvs. destruct (decide (k0 = k)) as [-> | Hne].
  - exists inv0'. rewrite (RunnerFacts.lookup_updated _ _ _ _ Hk0).
    simplify_eq. split; [done |]. split; [done |].
    destruct Hcase as [(_ & _ & Hsame) | (_ & _ & [[res ->] | [err ->]])];
      [done | by apply resolve_settled | by apply reject_settled].
  - exists inv. by rewrite list_lookup_insert_ne.
Qed.

Lemma child_step_spawn_threw e r r' k name :
  Runner.step basename extname toLowerCase spawn_throws e r = Some r' ->
  (forall scriptPath args jobId, e <> Runner.Call scriptPath args jobId) ->
  spawn_threw r k name -> spawn_threw r' k name.
Proof.
  intros Hstep Hcall (inv & err & Hk & Hname & Hrej).
  destruct (child_step_settled e r r' k inv Hstep Hcall Hk)
    as (inv' & Hk' & Hname' & Hrej'); [by rewrite Hrej |].
  exists inv', err. split; [done |]. split; congruence.
Qed.

Lemma child_step_justified e r r' :
  Runner.step basename extname toLowerCase spawn_throws e r = Some r' ->
  (forall scriptPath args jobId, e <> Runner.Call scriptPath args jobId) ->
  justified r -> justified r'.
Proof.
  intros Hstep Hcall Hj.
  destruct (child_step_shape e r r' Hstep Hcall)
    as (k & inv & inv' & Hk & Hinvs & Hname & Hcase).
  intros name Hflag.
  assert (Hold : Runner.runningScripts r !! name = Some true /\
                 (Runner.runningScripts r' = Runner.runningScripts r \/
                  name <> Runner.scriptName inv)).
  { destruct Hcase as [(Hf & _) | (Hf & _)]; rewrite Hf in Hflag.
    - split; [done | by left].
    - destruct (decide (name = Runner.scriptName inv)) as [-> | Hne].
      { by rewrite lookup_insert_eq in Hflag. }
      rewrite lookup_insert_ne in Hflag by done. split; [done | by right]. }
  destruct Hold as [Hflag0 Hwhy].
  destruct (Hj name Hflag0) as [(k0 & inv0 & Hk0 & Hx0 & Hn0) | [k0 Hthrew]].
  - left. rewrite Hinvs. destruct (decide (k0 = k)) as [-> | Hne].
    + simplify_eq.
      destruct Hcase as [(_ & Hx & _) | (Hf & _)].
      * exists k, inv'. rewrite (RunnerFacts.lookup_updated _ _ _ _ Hk).
        split; [done |]. split; congruence.
      * destruct Hwhy as [Hsame | Hne]; [| done].
        rewrite Hsame in Hf. rewrite Hf in Hflag0.
        by rewrite lookup_insert_eq in Hflag0.
    + exists k0, inv0. by rewrite list_lookup_insert_ne.
  - right. exists k0. by apply (child_step_spawn_threw e r r').
Qed.

Lemma child_step_live e r r' k inv' :
  Runner.step basename extname toLowerCase spawn_throws e r = Some r' ->
  (forall scriptPath args jobId, e <> Runner.Call scriptPath args jobId) ->
  Runner.invocations r' !! k = Some inv' ->
  Runner.executing inv' = true ->
  exists inv, Runner.invocations r !! k = Some inv /\
              Runner.executing inv = true.
Proof.
  intros Hstep Hcall Hk' Hx'.
  destruct (child_step_shape e r r' Hstep Hcall)
    as (k0 & inv0 & inv0' & Hk0 & Hinvs & Hname & Hcase).
  rewrite Hinvs in Hk'.
  apply list_lookup_insert_Some in Hk' as [(<- & <- & _) | (_ & Hk')];
    [| by eauto].
  exists inv0. split; [done |].
  destruct Hcase as [(_ & Hx & _) | (_ & Hgone & _)]; congruence.
Qed.

Lemma child_step_length e r r' :
  Runner.step basename extname toLowerCase spawn_throws e r = Some r' ->
  (forall scriptPath args jobId, e <> Runner.Call scriptPath args jobId) ->
  length (Runner.invocations r') = length (Runner.invocations r).
Proof.
  intros Hstep Hcall.
  destruct (child_step_shape e r r' Hstep Hcall)
    as (k0 & inv0 & inv0' & Hk0 & -> & _).
  apply length_insert.
Qed.

Lemma child_step_refusals e r r' :
  Runner.step basename extname toLowerCase spawn_throws e r = Some r' ->
  (forall scriptPath args jobId, e <> Runner.Call scriptPath args jobId) ->
  refusals_inherited r -> refusals_inherited r'.
Proof.
  intros Hstep Hcall Hr.
  destruct (child_step_shape e r r' Hstep Hcall)
    as (k0 & inv0 & inv0' & Hk0 & Hinvs & Hname & Hcase).
  assert (Hlift : forall k inv,
            Runner.invocations r !! k = Some inv ->
            Runner.returned inv =
              Runner.RejectedWith Runner.ScriptAlreadyRunning ->
            Runner.scriptName inv ∈ Runner.object_prototype_keys \/
            (exists k', (k' < k)%nat /\
                        spawn_threw r' k' (Runner.scriptName inv))).
  { intros k inv Hk Hrej.
    destruct (Hr k inv Hk Hrej) as [Hin | (k' & Hlt & Hthrew)];
      [by left | right].
    exists k'. split; [done |]. by apply (child_step_spawn_threw e r r'). }
  intros k inv Hk Hrej. rewrite Hinvs in Hk.
  apply list_lookup_insert_Some in Hk as [(<- & <- & _) | (_ & Hk)];
    [| by apply Hlift].
  rewrite Hname. apply (Hlift k0 inv0 Hk0).
  destruct Hcase as [(_ & _ & Hsame) | (_ & _ & Hsettle)]; [congruence |].
  destruct (Runner.returned inv0) eqn:Hp;
    destruct Hsettle as [[res Hs] | [err Hs]]; cbn in Hs; congruence.
Qed.

(** ** The runner, one call at a time *)

Lemma runScript_old scriptPath args jobId r :
  exists inv,
    Runner.invocations (runScript scriptPath args jobId r) =
    (Runner.invocations r ++ [inv])%list.
Proof.
  destruct (RunnerFacts.runScript_adds basename extname toLowerCase
              spawn_throws scriptPath args jobId r) as (inv & Hinv & _).
  eauto.
Qed.

Lemma runScript_length scriptPath args jobId r :
  length (Runner.invocations (runScript scriptPath args jobId r)) =
  S (length (Runner.invocations r)).
Proof.
  destruct (runScript_old scriptPath args jobId r) as [inv ->].
  rewrite length_app. cbn. lia.
Qed.

Lemma runScript_spawn_threw scriptPath args jobId r k name :
  spawn_threw r k name ->
  spawn_threw (runScript scriptPath args jobId r) k name.
Proof.
  intros (inv & err & Hk & Hname & Hrej).
  destruct (runScript_old scriptPath args jobId r) as [new Hnew].
  exists inv, err. rewrite Hnew. split; [by apply lookup_app_l_Some | done].
Qed.

Lemma runScript_justified scriptPath args jobId r :
  justified r -> justified (runScript scriptPath args jobId r).
Proof.
  intros Hj name.
  assert (Hkeep : Runner.runningScripts r !! name = Some true ->
            (exists k inv,
               Runner.invocations (runScript scriptPath args jobId r) !! k
                 = Some inv /\
               Runner.executing inv = true /\ Runner.scriptName inv = name) \/
            (exists k, spawn_threw (runScript scriptPath args jobId r) k name)).
  { intros Hflag.
    destruct (Hj name Hflag) as [(k & inv & Hk & Hx & Hn) | [k Hthrew]].
    - left. exists k, inv. split; [| done].
      destruct (runScript_old scriptPath args jobId r) as [new ->].
      by apply lookup_app_l_Some.
    - right. exists k. by apply runScript_spawn_threw. }
  destruct (RunnerFacts.runScript_cases basename extname toLowerCase
              spawn_throws scriptPath args jobId r)
    as [[_ Heq] | [(_ & _ & Heq) | [(_ & _ & err & _ & Heq) | (_ & _ & _ & Heq)]]];
    rewrite Heq in Hkeep |- *; cbn; intros Hflag.
  - by apply Hkeep.
  - destruct (decide (name = basename scriptPath)) as [-> | Hne].
    { by rewrite lookup_insert_eq in Hflag. }
    rewrite !lookup_insert_ne in Hflag by done. by apply Hkeep.
  - destruct (decide (name = basename scriptPath)) as [-> | Hne].
    + right. exists (length (Runner.invocations r)). eexists _, err. cbn.
      split; [apply list_lookup_middle; reflexivity |]. done.
    + rewrite lookup_insert_ne in Hflag by done. by apply Hkeep.
  - destruct (decide (name = basename scriptPath)) as [-> | Hne].
    + left. eexists (length (Runner.invocations r)), _. cbn.
      split; [apply list_lookup_middle; reflexivity |]. done.
    + rewrite lookup_insert_ne in Hflag by done. by apply Hkeep.
Qed.

(** When every flag that is set is one left by a call for which [spawn]
    threw, the only calls refused as already running are those for such a
    name and those for a name the object inherits. *)
Lemma runScript_refusals scriptPath args jobId r :
  (forall name, Runner.runningScripts r !! name = Some true ->
     exists k, spawn_threw r k name) ->
  refusals_inherited r ->
  refusals_inherited (runScript scriptPath args jobId r).
Proof.
  intros Hfree Hr k inv Hk Hrej.
  assert (Hlift : forall k' name, spawn_threw r k' name ->
            (k' < length (Runner.invocations r))%nat /\
            spawn_threw (runScript scriptPath args jobId r) k' name).
  { intros k' name Hthrew. split; [| by apply runScript_spawn_threw].
    destruct Hthrew as (x & err & Hx & _). by eapply lookup_lt_Some. }
  assert (Hold : forall x, Runner.invocations r !! k = Some x ->
            Runner.returned x =
              Runner.RejectedWith Runner.ScriptAlreadyRunning ->
            Runner.scriptName x ∈ Runner.object_prototype_keys \/
            (exists k', (k' < k)%nat /\
               spawn_threw (runScript scriptPath args jobId r) k'
                 (Runner.scriptName x))).
  { intros x Hx Hrejx.
    destruct (Hr k x Hx Hrejx) as [Hin | (k' & Hlt & Hthrew)];
      [by left | right].
    exists k'. split; [done |]. by apply Hlift. }
  destruct (RunnerFacts.runScript_cases basename extname toLowerCase
              spawn_throws scriptPath args jobId r)
    as [[Hm Heq] | [(_ & _ & Heq) | [(_ & _ & err & _ & Heq) | (_ & _ & _ & Heq)]]];
    rewrite Heq in Hk, Hold |- *; cbn in Hk;
    apply lookup_snoc_Some in Hk as [[_ Hk] | [Hlen <-]];
    try (by apply Hold); try done.
  cbn. unfold Runner.marked_running in Hm.
  destruct (Runner.runningScripts r !! basename scriptPath)
    as [[|] |] eqn:Hflag.
  - right. destruct (Hfree _ Hflag) as [k' Hthrew].
    destruct (Hlift k' _ Hthrew) as [Hlt Hthrew'].
    exists k'. split; [lia |]. by rewrite Heq in Hthrew'.
  - done.
  - left. by apply bool_decide_eq_true in Hm.
Qed.

(** ** The queue with closures that return promises *)

Lemma processQueue_async q0 :
  Queue.fifo q0 -> Queue.async_only q0 ->
  Queue.processQueue cfg q0 = (q0, Normal tt) \/
  exists next rest,
    Queue.running q0 < Queue.MAX_CONCURRENT cfg /\
    Queue.queue q0 = next :: rest /\
    Queue.processQueue cfg q0 =
      ({| Queue.running := Queue.running q0 + 1;
          Queue.queue := rest;
          Queue.admitted := Queue.admitted q0;
          Queue.started := Queue.started q0 ++ [next];
          Queue.inflight := Queue.inflight q0 ++ [next] |}, Normal tt).
Proof.
  intros Hf Ha.
  destruct (QueueFacts.processQueue_spec cfg q0)
    as [Hbusy | Hidle Hq | next rest Hidle Hq Hcall | next rest Hidle Hq Hcall].
  - by left.
  - by left.
  - right. by exists next, rest.
  - unfold Queue.fifo in Hf. unfold Queue.async_only in Ha.
    rewrite <- Hf, Hq in Ha. apply Forall_app in Ha as [_ Ha].
    apply Forall_cons in Ha as [Ha _]. congruence.
Qed.

(** ** Closures started by the queue *)

Lemma start_fields jobFunc st :
  queue_state (start jobFunc st) = queue_state st /\
  history_store (start jobFunc st) = history_store st /\
  closures (start jobFunc st) = closures st.
Proof. unfold Pipeline.start. by destruct (closures st !! _). Qed.

Lemma launch_fields before st :
  queue_state (launch before st) = queue_state st /\
  history_store (launch before st) = history_store st /\
  closures (launch before st) = closures st.
Proof.
  unfold Pipeline.launch.
  generalize (drop before (Queue.started (queue_state st))). intros l.
  revert st. induction l as [| j l IH]; intros st; cbn; [done |].
  destruct (IH (start j st)) as (-> & -> & ->). apply start_fields.
Qed.

Lemma launch_nothing st :
  launch (length (Queue.started (queue_state st))) st = st.
Proof. unfold Pipeline.launch. by rewrite drop_all. Qed.

Lemma launch_one l next st :
  Queue.started (queue_state st) = (l ++ [next])%list ->
  launch (length l) st = start next st.
Proof. unfold Pipeline.launch. intros ->. by rewrite drop_app_length. Qed.

Lemma linked_history st h :
  linked cfg st ->
  linked cfg {| queue_state := queue_state st;
                runner_state := runner_state st;
                history_store := h;
                closures := closures st |}.
Proof. intros []. by constructor. Qed.

(** With a limit of one, a closure starts only when none is in flight,
    and then no child is live: a flag that is set is one left by a call
    for which [spawn] threw. *)
Lemma idle_no_flag st :
  linked cfg st ->
  Queue.MAX_CONCURRENT cfg <= 1 ->
  Queue.running (queue_state st) < Queue.MAX_CONCURRENT cfg ->
  forall name,
    Runner.runningScripts (runner_state st) !! name = Some true ->
    exists k, spawn_threw (runner_state st) k name.
Proof.
  intros Hl Hone Hidle name Hflag.
  destruct (linked_justified _ _ Hl name Hflag)
    as [(k & inv & Hk & Hx & _) | Hthrew]; [| done].
  pose proof (linked_inflight _ _ Hl k inv Hk Hx) as Hin.
  pose proof (linked_accounted _ _ Hl) as Hacc. unfold Queue.accounted in Hacc.
  rewrite (QueueFacts.async_no_leak _ (linked_fifo _ _ Hl)
             (linked_async _ _ Hl)) in Hacc.
  destruct (Queue.inflight (queue_state st)) as [| j l]; [| cbn in Hacc; lia].
  by apply elem_of_nil in Hin.
Qed.

(** [processQueue], and the closure it starts running up to its
    [await]. *)
Lemma pump_linked q0 r h h' cl q1 c :
  linked cfg {| queue_state := q0; runner_state := r;
                history_store := h; closures := cl |} ->
  Queue.processQueue cfg q0 = (q1, c) ->
  linked cfg
    (launch (length (Queue.started q0))
       {| queue_state := q1; runner_state := r;
          history_store := h'; closures := cl |}) /\
  (length (Queue.inflight q1) + length (Queue.queue q1) =
   length (Queue.inflight q0) + length (Queue.queue q0))%nat.
Proof.
  intros Hl Hp.
  pose proof (linked_fifo _ _ Hl) as Hf. pose proof (linked_async _ _ Hl) as Ha.
  cbn in Hf, Ha.
  destruct (processQueue_async q0 Hf Ha)
    as [Hsame | (next & rest & Hidle & Hq & Hstart)];
    rewrite Hp in *.
  - injection Hsame as -> ->. split; [| done].
    rewrite (launch_nothing {| queue_state := q0 |}).
    apply (linked_history _ h' Hl).
  - injection Hstart as -> ->. split; [| cbn; rewrite Hq, length_app; cbn; lia].
    rewrite (launch_one (Queue.started q0) next) by reflexivity.
    assert (Hnext : next = Queue.unit_of_work (length (Queue.started q0))).
    { apply (linked_labels _ _ Hl). cbn. unfold Queue.fifo in Hf.
      rewrite <- Hf, Hq. by apply list_lookup_middle. }
    assert (Hlt : (length (Queue.started q0) < length cl)%nat).
    { pose proof (linked_closures _ _ Hl) as Hc. cbn in Hc. rewrite Hc.
      unfold Queue.fifo in Hf. rewrite <- Hf, Hq, length_app. cbn. lia. }
    destruct (lookup_lt_is_Some_2 cl _ Hlt) as [w Hw].
    unfold Pipeline.start. cbn. rewrite Hnext at 1. cbn. rewrite Hw.
    pose proof (QueueFacts.processQueue_capped cfg q0 (linked_capped _ _ Hl))
      as Hcap.
    pose proof (QueueFacts.processQueue_fifo cfg q0 Hf) as Hfifo.
    pose proof (QueueFacts.processQueue_accounted cfg q0
                  (linked_accounted _ _ Hl)) as Hacc.
    rewrite Hp in Hcap, Hfifo, Hacc. cbn in Hcap, Hfifo, Hacc.
    destruct (runScript_old (Jobs.absolutePath w) (Jobs.args w)
                (Jobs.jobId w) r) as [inv Hinv].
    constructor; cbn; try done.
    + apply (linked_labels _ _ Hl).
    + apply (linked_closures _ _ Hl).
    + rewrite runScript_length, length_app. cbn.
      pose proof (linked_calls _ _ Hl) as Hc. cbn in Hc. lia.
    + apply RunnerFacts.runScript_healthy, (linked_healthy _ _ Hl).
    + apply runScript_justified, (linked_justified _ _ Hl).
    + intros k x Hk Hx. rewrite Hinv in Hk.
      apply lookup_snoc_Some in Hk as [[_ Hk] | [Hlen <-]].
      * apply elem_of_app. left. by apply (linked_inflight _ _ Hl k x).
      * apply elem_of_app. right. rewrite Hnext.
        pose proof (linked_calls _ _ Hl) as Hc. cbn in Hc.
        rewrite <- Hc, <- Hlen. by apply list_elem_of_singleton.
    + intros Hone. apply runScript_refusals.
      * apply (idle_no_flag _ Hl Hone Hidle).
      * by apply (linked_refusals _ _ Hl).
    + intros jobFunc Hin. apply elem_of_app in Hin as [Hin | Hin].
      * apply elem_of_app. left. by apply (linked_begun _ _ Hl).
      * apply elem_of_app. by right.
Qed.

Lemma elem_of_delete_other {A} (l : list A) i x y :
  x ∈ l -> l !! i = Some y -> x <> y -> x ∈ delete i l.
Proof.
  intros Hin Hi Hne. apply list_elem_of_lookup in Hin as [j Hj].
  destruct (decide (j < i)%nat).
  - apply (list_elem_of_lookup_2 _ j). by rewrite list_lookup_delete_lt.
  - assert (j <> i) by (intros ->; congruence).
    apply (list_elem_of_lookup_2 _ (j - 1)).
    rewrite list_lookup_delete_ge by lia.
    by replace (S (j - 1)) with j by lia.
Qed.

(** A closure that can be resumed has no live child. *)
Lemma resumable_not_live st jobFunc k inv :
  linked cfg st ->
  resumable st jobFunc = true ->
  Runner.invocations (runner_state st) !! k = Some inv ->
  Runner.executing inv = true ->
  Queue.unit_of_work k <> jobFunc.
Proof.
  intros Hl Hres Hk Hx <-.
  unfold resumable, awaited in Hres. cbn in Hres. rewrite Hk in Hres.
  cbn in Hres.
  pose proof (linked_healthy _ _ Hl) as Hc.
  pose proof (Forall_lookup_1 _ _ _ _ Hc Hk) as (Hlive & _).
  destruct (Hlive Hx) as [Hp _]. by rewrite Hp in Hres.
Qed.

(** ** The promise jobs *)

(** The state between [running--] and the call of [processQueue] in the
    callback of [finally]. *)
Lemma forget_linked i jobFunc st h :
  linked cfg st ->
  Queue.inflight (queue_state st) !! i = Some jobFunc ->
  resumable st jobFunc = true ->
  linked cfg
    {| queue_state := Queue.decrement (Queue.forget i (queue_state st));
       runner_state := runner_state st;
       history_store := h;
       closures := closures st |}.
Proof.
  intros Hl Hi Hres. pose proof (lookup_lt_Some _ _ _ Hi) as Hlt.
  constructor; cbn.
  - pose proof (linked_capped _ _ Hl) as Hc.
    unfold Queue.capped in *. cbn. lia.
  - apply (linked_fifo _ _ Hl).
  - pose proof (linked_accounted _ _ Hl) as Ha.
    unfold Queue.accounted, Queue.leaked in *. cbn.
    rewrite length_delete by done. lia.
  - apply (linked_async _ _ Hl).
  - apply (linked_labels _ _ Hl).
  - apply (linked_closures _ _ Hl).
  - apply (linked_calls _ _ Hl).
  - apply (linked_healthy _ _ Hl).
  - apply (linked_justified _ _ Hl).
  - intros k inv Hk Hx.
    apply (elem_of_delete_other _ i _ jobFunc); [| done |].
    + by apply (linked_inflight _ _ Hl k inv).
    + by apply (resumable_not_live st jobFunc k inv).
  - apply (linked_refusals _ _ Hl).
  - intros j Hin. apply (linked_begun _ _ Hl).
    by apply list_elem_of_delete_inv in Hin.
Qed.

Lemma resume_linked i jobFunc st :
  linked cfg st ->
  Queue.inflight (queue_state st) !! i = Some jobFunc ->
  resumable st jobFunc = true ->
  linked cfg (resume i jobFunc st) /\
  S (length (Queue.inflight (queue_state (resume i jobFunc st))) +
     length (Queue.queue (queue_state (resume i jobFunc st)))) =
  (length (Queue.inflight (queue_state st)) +
   length (Queue.queue (queue_state st)))%nat.
Proof.
  intros Hl Hi Hres. unfold Pipeline.resume, Queue.settle. rewrite Hi.
  unfold Queue.on_settled.
  set (q0 := Queue.decrement (Queue.forget i (queue_state st))).
  destruct (Queue.processQueue cfg q0) as [q1 c] eqn:Hp.
  pose proof (lookup_lt_Some _ _ _ Hi) as Hlt.
  pose proof (forget_linked i jobFunc st (history_store st) Hl Hi Hres)
    as Hl0. fold q0 in Hl0.
  destruct (pump_linked q0 _ _ (record uuid clock wrote jobFunc st) _ q1 c
              Hl0 Hp) as [Hl1 Hm].
  split; [exact Hl1 |].
  destruct (launch_fields (length (Queue.started (queue_state st)))
              {| queue_state := q1; runner_state := runner_state st;
                 history_store := record uuid clock wrote jobFunc st;
                 closures := closures st |}) as (-> & _ & _).
  cbn. rewrite Hm. subst q0. cbn. rewrite length_delete by done. lia.
Qed.

Lemma microtasks_linked fuel st :
  linked cfg st -> linked cfg (microtasks fuel st).
Proof.
  revert st. induction fuel as [| fuel IH]; intros st Hl; cbn; [done |].
  destruct (list_find _ _) as [[i jobFunc] |] eqn:Hfind; [| done].
  apply list_find_Some in Hfind as (Hi & Hres & _).
  apply IH. by apply resume_linked.
Qed.

Lemma microtasks_quiet fuel st :
  linked cfg st ->
  (length (Queue.inflight (queue_state st)) +
   length (Queue.queue (queue_state st)) <= fuel)%nat ->
  quiet (microtasks fuel st).
Proof.
  revert st. induction fuel as [| fuel IH]; intros st Hl Hfuel; cbn.
  - intros jobFunc Hin.
    destruct (Queue.inflight (queue_state st)); [| cbn in Hfuel; lia].
    by apply elem_of_nil in Hin.
  - destruct (list_find _ _) as [[i jobFunc] |] eqn:Hfind.
    + apply list_find_Some in Hfind as (Hi & Hres & _).
      destruct (resume_linked i jobFunc st Hl Hi Hres) as [Hl' Hm].
      apply IH; [done | lia].
    + intros jobFunc Hin.
      pose proof (proj1 (list_find_None _ _) Hfind) as Hall.
      rewrite Forall_forall in Hall.
      by apply not_true_is_false, Hall.
Qed.

Lemma checkpoint_linked st :
  linked cfg st -> linked cfg (checkpoint st) /\ quiet (checkpoint st).
Proof.
  intros Hl. split.
  - by apply microtasks_linked.
  - by apply microtasks_quiet.
Qed.

(** ** One event at a time *)

Lemma push_linked w st :
  linked cfg st ->
  let jobFunc :=
    Queue.unit_of_work (length (Queue.admitted (queue_state st))) in
  linked cfg {| queue_state := Queue.push jobFunc (queue_state st);
                runner_state := runner_state st;
                history_store := history_store st;
                closures := closures st ++ [w] |}.
Proof.
  intros Hl jobFunc. constructor; cbn.
  - apply (linked_capped _ _ Hl).
  - pose proof (linked_fifo _ _ Hl) as Hf. unfold Queue.fifo in *. cbn.
    by rewrite app_assoc, Hf.
  - apply (linked_accounted _ _ Hl).
  - unfold Queue.async_only. cbn. apply Forall_app. split.
    + apply (linked_async _ _ Hl).
    + by constructor.
  - intros i j Hi. apply lookup_snoc_Some in Hi as [[_ Hi] | [-> <-]].
    + by apply (linked_labels _ _ Hl).
    + done.
  - rewrite !length_app. cbn. by rewrite (linked_closures _ _ Hl).
  - apply (linked_calls _ _ Hl).
  - apply (linked_healthy _ _ Hl).
  - apply (linked_justified _ _ Hl).
  - apply (linked_inflight _ _ Hl).
  - apply (linked_refusals _ _ Hl).
  - apply (linked_begun _ _ Hl).
Qed.

(** What [enqueue] answers to a handler, and what the pipeline does
    next. *)
Lemma submit_cases w st st' :
  linked cfg st ->
  step (Submit w) st = Some st' ->
  let q := queue_state st in
  let jobFunc := Queue.unit_of_work (length (Queue.admitted q)) in
  (Queue.MAX_QUEUE_SIZE cfg <= Z.of_nat (length (Queue.queue q)) /\
   Queue.enqueue cfg jobFunc q = (q, Normal false) /\
   st' = st) \/
  (Z.of_nat (length (Queue.queue q)) < Queue.MAX_QUEUE_SIZE cfg /\
   exists q1,
     Queue.processQueue cfg (Queue.push jobFunc q) = (q1, Normal tt) /\
     Queue.enqueue cfg jobFunc q = (q1, Normal true) /\
     st' = checkpoint
             (launch (length (Queue.started q))
                {| queue_state := q1;
                   runner_state := runner_state st;
                   history_store := history_store st;
                   closures := closures st ++ [w] |})).
Proof.
  intros Hl Hstep q jobFunc. cbn in Hstep. fold q jobFunc in Hstep.
  destruct (Z_lt_le_dec (Z.of_nat (length (Queue.queue q)))
              (Queue.MAX_QUEUE_SIZE cfg)) as [Hroom | Hfull].
  - right. split; [done |].
    pose proof (push_linked w st Hl) as Hl0. cbv zeta in Hl0.
    fold q jobFunc in Hl0.
    assert (Hq1 : exists q1,
               Queue.processQueue cfg (Queue.push jobFunc q) =
               (q1, Normal tt)).
    { destruct (processQueue_async (Queue.push jobFunc q)
                  (linked_fifo _ _ Hl0) (linked_async _ _ Hl0))
        as [-> | (next & rest & _ & _ & ->)]; eauto. }
    destruct Hq1 as [q1 Hq1]. exists q1. split; [done |].
    assert (He : Queue.enqueue cfg jobFunc q = (q1, Normal true)).
    { rewrite QueueFacts.enqueue_room by done. by rewrite Hq1. }
    split; [done |]. rewrite He in Hstep. by injection Hstep as <-.
  - left. split; [done |].
    rewrite (QueueFacts.enqueue_full cfg jobFunc q Hfull) in Hstep |- *.
    split; [done |]. injection Hstep as <-. subst q. by destruct st.
Qed.

Lemma child_cases e st st' :
  step (Child e) st = Some st' ->
  (forall scriptPath args jobId, e <> Runner.Call scriptPath args jobId) /\
  exists r',
    Runner.step basename extname toLowerCase spawn_throws e (runner_state st)
      = Some r' /\
    st' = checkpoint {| queue_state := queue_state st;
                        runner_state := r';
                        history_store := history_store st;
                        closures := closures st |}.
Proof.
  intros Hstep.
  destruct e as [scriptPath args jobId | k data | k data | k | k code | k err];
    [done | | | | |];
    (split; [done |]);
    unfold Pipeline.step in Hstep;
    destruct (Runner.step basename extname toLowerCase spawn_throws _
                (runner_state st))
      as [r' |] eqn:Hr; try done;
    exists r'; (split; [done |]); by injection Hstep as <-.
Qed.

Lemma child_linked e st r' :
  linked cfg st ->
  (forall scriptPath args jobId, e <> Runner.Call scriptPath args jobId) ->
  Runner.step basename extname toLowerCase spawn_throws e (runner_state st)
    = Some r' ->
  linked cfg {| queue_state := queue_state st;
                runner_state := r';
                history_store := history_store st;
                closures := closures st |}.
Proof.
  intros Hl Hcall Hr. constructor; cbn.
  - apply (linked_capped _ _ Hl).
  - apply (linked_fifo _ _ Hl).
  - apply (linked_accounted _ _ Hl).
  - apply (linked_async _ _ Hl).
  - apply (linked_labels _ _ Hl).
  - apply (linked_closures _ _ Hl).
  - rewrite (child_step_length e _ r' Hr Hcall). apply (linked_calls _ _ Hl).
  - by apply (RunnerFacts.step_healthy basename extname toLowerCase
                spawn_throws e (runner_state st) r' (linked_healthy _ _ Hl)).
  - apply (child_step_justified e _ r' Hr Hcall (linked_justified _ _ Hl)).
  - intros k inv' Hk Hx.
    destruct (child_step_live e _ r' k inv' Hr Hcall Hk Hx)
      as (inv & Hk0 & Hx0).
    by apply (linked_inflight _ _ Hl k inv).
  - intros Hone.
    apply (child_step_refusals e _ r' Hr Hcall).
    by apply (linked_refusals _ _ Hl).
  - apply (linked_begun _ _ Hl).
Qed.

Lemma step_linked e st st' :
  linked cfg st /\ quiet st -> step e st = Some st' ->
  linked cfg st' /\ quiet st'.
Proof.
  intros [Hl Hq] Hstep. destruct e as [w | e].
  - destruct (submit_cases w st st' Hl Hstep)
      as [(_ & _ & ->) | (_ & q1 & Hp & _ & ->)]; [done |].
    apply checkpoint_linked.
    apply (pump_linked (Queue.push _ (queue_state st)) _ (history_store st)
             _ _ q1 (Normal tt) (push_linked w st Hl) Hp).
  - destruct (child_cases e st st' Hstep) as (Hcall & r' & Hr & ->).
    apply checkpoint_linked. by apply (child_linked e).
Qed.

Lemma init_linked earlier :
  linked cfg (init earlier) /\ quiet (init earlier).
Proof.
  split.
  - destruct (QueueFacts.init_sound cfg) as (Hc & _ & Hf & Ha).
    constructor; cbn.
    + exact Hc.
    + exact Hf.
    + exact Ha.
    + by constructor.
    + intros i jobFunc Hi. by rewrite lookup_nil in Hi.
    + done.
    + done.
    + apply RunnerFacts.init_healthy.
    + intros name Hflag. cbn in Hflag. by rewrite lookup_empty in Hflag.
    + intros k inv Hk. cbn in Hk. by rewrite lookup_nil in Hk.
    + intros _ k inv Hk. cbn in Hk. by rewrite lookup_nil in Hk.
    + done.
  - intros jobFunc Hin. by apply elem_of_nil in Hin.
Qed.

Lemma run_linked evs st st' :
  linked cfg st /\ quiet st -> run evs st = Some st' ->
  linked cfg st' /\ quiet st'.
Proof.
  revert st. induction evs as [| e evs IH]; intros st Hl; cbn.
  - by intros [= <-].
  - destruct (step e st) as [st1 |] eqn:He; [| done].
    apply IH. by apply (step_linked e st).
Qed.

(** ** Main results on the pipeline *)


(** With that limit, [runScript] never refuses a call because a child
    of the program is running: in every run of the server a call rejected
    with "Script already running" is a call for a program whose base name
    is a property that [runningScripts] inherits from [Object.prototype],
    or a call for a program name for which [spawn] threw in an earlier
    call, whose flag was left set. *)
Theorem already_running_only_inherited earlier evs st k inv :
  Queue.MAX_CONCURRENT cfg <= 1 ->
  run evs (init earlier) = Some st ->
  Runner.invocations (runner_state st) !! k = Some inv ->
  Runner.returned inv = Runner.RejectedWith Runner.ScriptAlreadyRunning ->
  Runner.scriptName inv ∈ Runner.object_prototype_keys \/
  (exists k' inv' err,
     (k' < k)%nat /\
     Runner.invocations (runner_state st) !! k' = Some inv' /\
     Runner.scriptName inv' = Runner.scriptName inv /\
     Runner.returned inv' = Runner.RejectedWith (Runner.SpawnThrew err)).
Proof.
  intros Hone Hrun Hk Hrej.
  destruct (run_linked evs _ st (init_linked earlier) Hrun) as [Hl _].
  destruct (linked_refusals _ _ Hl Hone k inv Hk Hrej)
    as [Hin | (k' & Hlt & inv' & err & Hk' & Hname & Hrej')];
    [by left | right].
  by exists k', inv', err.
Qed.


(** ** The history, with one closure at a time *)

Local Abbreviation line := (Pipeline.line uuid clock).
Local Abbreviation lines := (Pipeline.lines uuid clock).

Section Chronicle.

Hypothesis one_at_a_time : Queue.MAX_CONCURRENT cfg <= 1.
Hypothesis writes_succeed : forall k, wrote k = History.Written.

(** The history when the server started. *)
Variable earlier : History.store.

Local Abbreviation chronicle := (Pipeline.chronicle uuid clock earlier).

Lemma omap_seq_ext {A} (f g : nat -> option A) n m :
  n = m ->
  (forall k, (k < n)%nat -> f k = g k) ->
  omap f (seq 0 n) = omap g (seq 0 m).
Proof.
  intros <-. induction n as [| n IH]; intros Hfg; [done |].
  rewrite seq_S, !omap_app. cbn. rewrite IH by (intros k Hk; apply Hfg; lia).
  by rewrite Hfg by lia.
Qed.

Lemma at_most_one_in_flight st :
  linked cfg st -> (length (Queue.inflight (queue_state st)) <= 1)%nat.
Proof.
  intros Hl.
  pose proof (linked_accounted _ _ Hl) as Hacc. unfold Queue.accounted in Hacc.
  rewrite (QueueFacts.async_no_leak _ (linked_fifo _ _ Hl)
             (linked_async _ _ Hl)) in Hacc.
  pose proof (linked_capped _ _ Hl) as Hcap. unfold Queue.capped in Hcap.
  lia.
Qed.

Lemma finished_bound st :
  (finished st <= length (Queue.started (queue_state st)))%nat.
Proof. unfold finished. lia. Qed.

(** The line a closure writes when it is resumed. *)
Lemma record_line jobFunc st :
  History.getEntries (record uuid clock wrote jobFunc st) =
  (History.getEntries (history_store st) ++
   match line st (Queue.job_id jobFunc) with
   | Some entry => [entry]
   | None => []
   end)%list.
Proof.
  unfold Pipeline.record, Pipeline.line, awaited.
  destruct (closures st !! Queue.job_id jobFunc) as [w |]; cbn;
    [| by rewrite app_nil_r].
  destruct (Runner.invocations (runner_state st) !! Queue.job_id jobFunc)
    as [inv |]; cbn.
  - destruct (Jobs.reports w) as [rep |]; cbn; [| by rewrite app_nil_r].
    destruct (Jobs.history_request rep (Runner.returned inv)) as [req |]; cbn;
      [| by rewrite app_nil_r].
    rewrite writes_succeed.
    unfold History.getEntries, History.addEntry, History.read, History.write,
      History.assign.
    by destruct (History.file (history_store st)).
  - destruct (Jobs.reports w); cbn; by rewrite app_nil_r.
Qed.

Lemma started_closures st :
  linked cfg st ->
  (length (Queue.started (queue_state st)) <= length (closures st))%nat.
Proof.
  intros Hl. rewrite (linked_closures _ _ Hl), <- (linked_fifo _ _ Hl).
  rewrite length_app. lia.
Qed.

Lemma push_chron w st :
  linked cfg st -> chronicle st ->
  let jobFunc :=
    Queue.unit_of_work (length (Queue.admitted (queue_state st))) in
  chronicle {| queue_state := Queue.push jobFunc (queue_state st);
               runner_state := runner_state st;
               history_store := history_store st;
               closures := closures st ++ [w] |}.
Proof.
  intros Hl [Hlast Hh] jobFunc. split; [exact Hlast |].
  cbn. rewrite Hh. unfold Pipeline.lines.
  change (finished {| queue_state := Queue.push jobFunc (queue_state st);
                       runner_state := runner_state st;
                       history_store := history_store st;
                       closures := closures st ++ [w] |})
    with (finished st).
  f_equal. apply omap_seq_ext; [done |]. intros k Hk.
  unfold Pipeline.line. cbn.
  rewrite lookup_app_l; [done |].
  pose proof (finished_bound st). pose proof (started_closures st Hl). lia.
Qed.

Lemma pump_chron q0 r h cl q1 c :
  linked cfg {| queue_state := q0; runner_state := r;
                history_store := h; closures := cl |} ->
  chronicle {| queue_state := q0; runner_state := r;
               history_store := h; closures := cl |} ->
  Queue.processQueue cfg q0 = (q1, c) ->
  chronicle
    (launch (length (Queue.started q0))
       {| queue_state := q1; runner_state := r;
          history_store := h; closures := cl |}).
Proof.
  intros Hl [Hlast Hh] Hp.
  pose proof (linked_fifo _ _ Hl) as Hf. pose proof (linked_async _ _ Hl) as Ha.
  cbn in Hf, Ha.
  destruct (processQueue_async q0 Hf Ha)
    as [Hsame | (next & rest & Hidle & Hq & Hstart)];
    rewrite Hp in *.
  - injection Hsame as -> ->.
    by rewrite (launch_nothing {| queue_state := q0 |}).
  - injection Hstart as -> ->.
    rewrite (launch_one (Queue.started q0) next) by reflexivity.
    assert (Hnext : next = Queue.unit_of_work (length (Queue.started q0))).
    { apply (linked_labels _ _ Hl). cbn. unfold Queue.fifo in Hf.
      rewrite <- Hf, Hq. by apply list_lookup_middle. }
    assert (Hlt : (length (Queue.started q0) < length cl)%nat).
    { pose proof (linked_closures _ _ Hl) as Hc. cbn in Hc. rewrite Hc.
      unfold Queue.fifo in Hf. rewrite <- Hf, Hq, length_app. cbn. lia. }
    destruct (lookup_lt_is_Some_2 cl _ Hlt) as [w Hw].
    unfold Pipeline.start. cbn. rewrite Hnext at 1. cbn. rewrite Hw.
    assert (Hnone : Queue.inflight q0 = []).
    { pose proof (linked_accounted _ _ Hl) as Hacc.
      unfold Queue.accounted in Hacc. cbn in Hacc.
      rewrite (QueueFacts.async_no_leak _ Hf Ha) in Hacc.
      destruct (Queue.inflight q0); [done | cbn in Hacc; lia]. }
    destruct (runScript_old (Jobs.absolutePath w) (Jobs.args w)
                (Jobs.jobId w) r) as [inv Hinv].
    split; cbn.
    + rewrite Hnone. cbn. intros j Hj. apply list_elem_of_singleton in Hj.
      rewrite length_app. cbn. rewrite Hj, Hnext. f_equal. lia.
    + cbn in Hh. rewrite Hh. unfold Pipeline.lines, finished. cbn.
      rewrite Hnone, !length_app. cbn.
      f_equal. apply omap_seq_ext; [lia |]. intros k Hk. unfold Pipeline.line. cbn.
      rewrite Hinv, lookup_app_l; [done |].
      pose proof (linked_calls _ _ Hl) as Hc. cbn in Hc. lia.
Qed.

Lemma forget_chron i jobFunc st :
  linked cfg st -> chronicle st ->
  Queue.inflight (queue_state st) !! i = Some jobFunc ->
  chronicle {| queue_state := Queue.decrement (Queue.forget i (queue_state st));
               runner_state := runner_state st;
               history_store := record uuid clock wrote jobFunc st;
               closures := closures st |}.
Proof.
  intros Hl [Hlast Hh] Hi.
  pose proof (at_most_one_in_flight st Hl) as Hone.
  pose proof (Hlast jobFunc (list_elem_of_lookup_2 _ _ _ Hi)) as Hj.
  pose proof (linked_begun _ _ Hl jobFunc (list_elem_of_lookup_2 _ _ _ Hi))
    as Hst.
  apply list_elem_of_lookup in Hst as [n Hn]. apply lookup_lt_Some in Hn.
  destruct (Queue.inflight (queue_state st)) as [| j [| j' l]] eqn:Hin;
    [done | | cbn in Hone; lia].
  destruct i as [| i]; [| done]. injection Hi as ->.
  split; cbn.
  - rewrite Hin. cbn. intros j Hjin. by apply elem_of_nil in Hjin.
  - rewrite record_line, Hh, <- app_assoc. f_equal.
    unfold Pipeline.lines, finished. cbn.
    rewrite Hin. cbn.
    replace (length (Queue.started (queue_state st)) - 0)%nat
      with (S (length (Queue.started (queue_state st)) - 1)) by lia.
    rewrite seq_S, omap_app. cbn. rewrite Hj. cbn.
    replace (Init.Nat.pred (length (Queue.started (queue_state st))))
      with (length (Queue.started (queue_state st)) - 1)%nat by lia.
    reflexivity.
Qed.

Lemma child_chron e st r' :
  linked cfg st -> chronicle st ->
  (forall scriptPath args jobId, e <> Runner.Call scriptPath args jobId) ->
  Runner.step basename extname toLowerCase spawn_throws e (runner_state st)
    = Some r' ->
  chronicle {| queue_state := queue_state st;
               runner_state := r';
               history_store := history_store st;
               closures := closures st |}.
Proof.
  intros Hl [Hlast Hh] Hcall Hr. split; [exact Hlast |].
  cbn. rewrite Hh. unfold Pipeline.lines.
  change (finished {| queue_state := queue_state st; runner_state := r';
                       history_store := history_store st;
                       closures := closures st |})
    with (finished st).
  f_equal. apply omap_seq_ext; [done |]. intros k Hk.
  unfold Pipeline.line. cbn.
  destruct (closures st !! k) as [w |]; cbn; [| done].
  destruct (Jobs.reports w) as [rep |]; cbn; [| done].
  destruct (child_step_shape e _ r' Hr Hcall)
    as (k0 & inv0 & inv0' & Hk0 & -> & _ & Hcase).
  destruct (decide (k = k0)) as [-> | Hne];
    [| by rewrite list_lookup_insert_ne].
  rewrite list_lookup_insert_eq by by eapply lookup_lt_Some.
  rewrite Hk0. cbn.
  destruct Hcase as [(_ & _ & ->) | (_ & _ & Hsettle)]; [done |].
  assert (Hp : Runner.returned inv0 = Runner.Pending \/
               Runner.returned inv0 <> Runner.Pending)
    by (destruct (Runner.returned inv0); auto).
  destruct Hp as [Hp | Hp].
  2: { destruct Hsettle as [[res ->] | [err ->]];
         by rewrite ?resolve_settled, ?reject_settled by done. }
  assert (Hx : Runner.executing inv0 = true).
  { pose proof (linked_healthy _ _ Hl) as Hc.
    pose proof (Forall_lookup_1 _ _ _ _ Hc Hk0) as (_ & Hgone & _).
    destruct (Runner.executing inv0); [done |].
    by destruct (Hgone eq_refl). }
  pose proof (linked_inflight _ _ Hl k0 inv0 Hk0 Hx) as Hin.
  pose proof (Hlast _ Hin) as Heq. injection Heq as Heq.
  unfold finished in Hk.
  destruct (Queue.inflight (queue_state st)); [by apply elem_of_nil in Hin |].
  cbn in Hk. lia.
Qed.

Lemma resume_chron i jobFunc st :
  linked cfg st -> chronicle st ->
  Queue.inflight (queue_state st) !! i = Some jobFunc ->
  resumable st jobFunc = true ->
  chronicle (resume i jobFunc st).
Proof.
  intros Hl Hc Hi Hres.
  pose proof (forget_chron i jobFunc st Hl Hc Hi) as Hc0.
  unfold Pipeline.resume, Queue.settle. rewrite Hi.
  unfold Queue.on_settled.
  set (q0 := Queue.decrement (Queue.forget i (queue_state st))) in *.
  destruct (Queue.processQueue cfg q0) as [q1 c] eqn:Hp.
  apply (pump_chron q0 _ _ _ q1 c); [| done | done].
  by apply (forget_linked i jobFunc).
Qed.

Lemma microtasks_chron fuel st :
  linked cfg st -> chronicle st -> chronicle (microtasks fuel st).
Proof.
  revert st. induction fuel as [| fuel IH]; intros st Hl Hc; cbn; [done |].
  destruct (list_find _ _) as [[i jobFunc] |] eqn:Hfind; [| done].
  apply list_find_Some in Hfind as (Hi & Hres & _).
  apply IH; [by apply resume_linked | by apply resume_chron].
Qed.

Lemma step_chron e st st' :
  linked cfg st -> chronicle st -> step e st = Some st' -> chronicle st'.
Proof.
  intros Hl Hc Hstep. destruct e as [w | e].
  - destruct (submit_cases w st st' Hl Hstep)
      as [(_ & _ & ->) | (_ & q1 & Hp & _ & ->)]; [done |].
    apply microtasks_chron.
    + apply (pump_linked (Queue.push _ (queue_state st)) _ (history_store st)
               _ _ q1 (Normal tt) (push_linked w st Hl) Hp).
    + apply (pump_chron (Queue.push _ (queue_state st)) _ _ _ q1 (Normal tt)
               (push_linked w st Hl) (push_chron w st Hl Hc) Hp).
  - destruct (child_cases e st st' Hstep) as (Hcall & r' & Hr & ->).
    apply microtasks_chron; [by apply (child_linked e) |].
    by apply (child_chron e).
Qed.

Lemma run_chron evs st st' :
  linked cfg st /\ quiet st -> chronicle st -> run evs st = Some st' ->
  chronicle st'.
Proof.
  revert st. induction evs as [| e evs IH]; intros st Hl Hc; cbn.
  - by intros [= <-].
  - destruct (step e st) as [st1 |] eqn:He; [| done].
    apply IH; [by apply (step_linked e st) |].
    destruct Hl as [Hl _]. by apply (step_chron e st).
Qed.

Lemma init_chron : chronicle (init earlier).
Proof.
  split; [| by rewrite app_nil_r]. intros jobFunc Hin.
  by apply elem_of_nil in Hin.
Qed.

(** With one closure at a time and a history file that takes every
    write, after any run of requests and events of children the history
    holds what it held when the server started, followed by exactly one
    line for each closure that has returned and reports, in the order in
    which the closures were admitted, and nothing else: the line of the
    closure of rank [k] carries its file name, its client, the status of
    its call of [runScript], and the identifier and the time drawn when
    it returned.  The closure in flight, if any, is the last one started
    and has no line yet. *)
Theorem history_in_admission_order evs st :
  run evs (init earlier) = Some st ->
  History.getEntries (history_store st) =
    History.getEntries earlier ++ omap (line st) (seq 0 (finished st)) /\
  (finished st <= length (Queue.started (queue_state st)) <= S (finished st))%nat /\
  (forall k entry, line st k = Some entry ->
     exists w rep inv req,
       closures st !! k = Some w /\
       Jobs.reports w = Some rep /\
       Runner.invocations (runner_state st) !! k = Some inv /\
       Jobs.history_request rep (Runner.returned inv) = Some req /\
       entry = History.make_entry req (uuid k) (clock k)).
Proof.
  intros Hrun.
  pose proof (run_linked evs _ st (init_linked earlier) Hrun) as [Hl Hq].
  destruct (run_chron evs _ st (init_linked earlier) init_chron Hrun)
    as [_ Hh].
  split; [exact Hh |]. split.
  - pose proof (at_most_one_in_flight st Hl). unfold finished. lia.
  - intros k entry. unfold Pipeline.line. intros Hline.
    destruct (closures st !! k) as [w |] eqn:Hw; cbn in Hline; [| done].
    destruct (Jobs.reports w) as [rep |] eqn:Hrep; cbn in Hline; [| done].
    destruct (Runner.invocations (runner_state st) !! k) as [inv |] eqn:Hinv;
      cbn in Hline; [| done].
    destruct (Jobs.history_request rep (Runner.returned inv)) as [req |]
      eqn:Hreq; cbn in Hline; [| done].
    injection Hline as <-. by exists w, rep, inv, req.
Qed.


End Chronicle.

End Runs.
(** ** The pipeline on concrete runs *)

Local Abbreviation ids := (fun _ : nat => "uuid").
Local Abbreviation times := (fun _ : nat => "2024-05-01T10:00:00.000Z").
Local Abbreviation taken := (fun _ : nat => History.Written).

Local Abbreviation server_run :=
  (Pipeline.run PosixPath.basename PosixPath.extname PosixPath.toLowerCase
     ChildProcess.spawn_throws Queue.executor_config ids times taken).

Local Abbreviation request_a :=
  (Submit (Jobs.automation_job "acme" "a.pdf" "{}" "/srv/scripts/acme.py" "job-a")).
Local Abbreviation request_b :=
  (Submit (Jobs.folder_job "/srv/scripts/beta.py" "job-b")).
Local Abbreviation request_c :=
  (Submit (Jobs.upload_job "acme" "c.pdf" "/srv/scripts/acme.py" "job-c")).


(** A file name with a NUL character makes [spawn] throw; the next
    request for the same program is refused as already running, although
    nothing runs. *)
Lemma already_running_only_inherited_witness :
  let evs :=
    [Submit (Jobs.automation_job "acme" ChildProcess.nul_name "{}"
               "/srv/scripts/acme.py" "job-a");
     Submit (Jobs.automation_job "acme" "b.pdf" "{}" "/srv/scripts/acme.py"
               "job-b")] in
  exists st inv,
    server_run evs (init (History.boot "t0")) = Some st /\
    Queue.MAX_CONCURRENT Queue.executor_config <= 1 /\
    Runner.invocations (runner_state st) !! 1%nat = Some inv /\
    Runner.returned inv = Runner.RejectedWith Runner.ScriptAlreadyRunning /\
    (Runner.scriptName inv ∈ Runner.object_prototype_keys \/
     exists k' inv' err,
       (k' < 1)%nat /\
       Runner.invocations (runner_state st) !! k' = Some inv' /\
       Runner.scriptName inv' = Runner.scriptName inv /\
       Runner.returned inv' = Runner.RejectedWith (Runner.SpawnThrew err)).
Proof.
  intros evs.
  destruct (server_run evs (init (History.boot "t0"))) as [st |] eqn:Hrun;
    [| by vm_compute in Hrun].
  destruct (Runner.invocations (runner_state st) !! 1%nat) as [inv |] eqn:Hk;
    [| vm_compute in Hrun; injection Hrun as <-; by vm_compute in Hk].
  assert (Hrej : Runner.returned inv =
                 Runner.RejectedWith Runner.ScriptAlreadyRunning).
  { vm_compute in Hrun. injection Hrun as <-. vm_compute in Hk.
    by injection Hk as <-. }
  exists st, inv. split; [done |]. split; [done |]. split; [done |].
  split; [done |].
  apply (already_running_only_inherited PosixPath.basename PosixPath.extname
           PosixPath.toLowerCase ChildProcess.spawn_throws
           Queue.executor_config ids times taken (History.boot "t0")
           evs st 1 inv); [done | exact Hrun | exact Hk | exact Hrej].
Defined.


(** Three requests that run to their end: a success, a folder run that
    reports nothing, and a child that could not be started. *)
Lemma history_in_admission_order_witness :
  let earlier :=
    HistoryView.example_history
      [History.example_entry "old.pdf" "2025-10-01T08:00:00.000Z"] in
  let evs := [request_a; request_b; request_c;
              Child (Runner.Close 0 (Some 0));
              Child (Runner.StderrData 1 "warning");
              Child (Runner.Close 1 (Some 1));
              Child (Runner.Error 2 "spawn python ENOENT")] in
  exists st,
    server_run evs (init earlier) = Some st /\
    Queue.MAX_CONCURRENT Queue.executor_config <= 1 /\
    (History.filename <$> History.getEntries (history_store st))
      = ["old.pdf"; "a.pdf"; "c.pdf"] /\
    (History.status <$> History.getEntries (history_store st))
      = ["success"; "success"; "error"] /\
    History.getEntries (history_store st) =
      History.getEntries earlier ++
      omap (Pipeline.line ids times st) (seq 0 (finished st)).
Proof.
  intros earlier evs.
  destruct (server_run evs (init earlier)) as [st |] eqn:Hrun;
    [| by vm_compute in Hrun].
  exists st. split; [done |]. split; [done |].
  split; [vm_compute in Hrun; by injection Hrun as <- |].
  split; [vm_compute in Hrun; by injection Hrun as <- |].
  apply (history_in_admission_order PosixPath.basename PosixPath.extname
           PosixPath.toLowerCase ChildProcess.spawn_throws
           Queue.executor_config ids times taken
           ltac:(done) ltac:(done) earlier evs st Hrun).
Defined.


End PipelineFacts.

(** * The handlers that reach the queue *)

Module HandlerFacts.

Import Pipeline Handlers.

Local Open Scope Z_scope.

Section Handlers.

Variable MONITOR_API_KEY : option string.
Variable SCRIPTS_MAP : gmap string string.
Variable isAbsolute : string -> bool.
Variable from_root : string -> string.
Variable invalid_path : string.
Variable basename : string -> string.
Variable extname : string -> string.
Variable toLowerCase : string -> string.
Variable spawn_throws : nat -> string -> list string -> option string.
Variable cfg : Queue.config.
Variable uuid : nat -> string.
Variable clock : nat -> string.
Variable wrote : nat -> History.write_outcome.

Local Abbreviation run :=
  (Pipeline.run basename extname toLowerCase spawn_throws cfg uuid clock wrote).
Local Abbreviation step :=
  (Pipeline.step basename extname toLowerCase spawn_throws cfg uuid clock wrote).
Local Abbreviation microtasks :=
  (Pipeline.microtasks basename extname toLowerCase spawn_throws cfg uuid clock wrote).
Local Abbreviation submit :=
  (Handlers.submit basename extname toLowerCase spawn_throws cfg uuid clock wrote).
Local Abbreviation absolute := (Handlers.absolute isAbsolute from_root).
Local Abbreviation post_run :=
  (Handlers.post_run MONITOR_API_KEY SCRIPTS_MAP isAbsolute from_root
     invalid_path basename extname toLowerCase spawn_throws cfg uuid clock wrote).
Local Abbreviation processFolder :=
  (Handlers.processFolder SCRIPTS_MAP isAbsolute from_root invalid_path
     basename extname toLowerCase spawn_throws cfg uuid clock wrote).

(** The promise jobs admit nothing and forget no closure. *)
Lemma microtasks_admitted fuel st :
  closures (microtasks fuel st) = closures st /\
  Queue.admitted (queue_state (microtasks fuel st)) =
    Queue.admitted (queue_state st).
Proof.
  revert st. induction fuel as [| fuel IH]; intros st; cbn; [done |].
  destruct (list_find _ _) as [[i jobFunc] |] eqn:Hfind; [| done].
  apply list_find_Some in Hfind as (Hi & _ & _).
  destruct (IH (Pipeline.resume basename extname toLowerCase spawn_throws cfg uuid clock
                  wrote i jobFunc st)) as [-> ->].
  unfold Pipeline.resume, Queue.settle. rewrite Hi. unfold Queue.on_settled.
  destruct (Queue.processQueue cfg _) as [q1 c] eqn:Hp.
  destruct (PipelineFacts.launch_fields basename extname toLowerCase
              spawn_throws
              (length (Queue.started (queue_state st)))
              {| queue_state := q1; runner_state := runner_state st;
                 history_store :=
                   Pipeline.record uuid clock wrote jobFunc st;
                 closures := closures st |}) as (-> & _ & ->).
  cbn. split; [done |].
  pose proof (QueueFacts.processQueue_admitted cfg
                (Queue.decrement (Queue.forget i (queue_state st)))) as Ha.
  by rewrite Hp in Ha.
Qed.

(** [enqueue] answers [true] exactly when the pending sequence has room,
    and then the closure is admitted; otherwise nothing changes. *)
Lemma submit_spec w st :
  linked cfg st ->
  (Z.of_nat (length (Queue.queue (queue_state st))) < Queue.MAX_QUEUE_SIZE cfg /\
   exists st',
     submit w st = (true, st') /\
     closures st' = closures st ++ [w] /\
     Queue.admitted (queue_state st') =
       Queue.admitted (queue_state st) ++
       [Queue.unit_of_work (length (Queue.admitted (queue_state st)))]) \/
  (Queue.MAX_QUEUE_SIZE cfg <= Z.of_nat (length (Queue.queue (queue_state st))) /\
   submit w st = (false, st)).
Proof.
  intros Hl. unfold Handlers.submit.
  destruct (step (Submit w) st) as [st' |] eqn:Hstep;
    [| cbn in Hstep;
       by destruct (Queue.enqueue cfg _ (queue_state st)) as [q' [[|] |]]].
  destruct (PipelineFacts.submit_cases basename extname toLowerCase spawn_throws cfg uuid
              clock wrote w st st' Hl Hstep)
    as [(Hfull & -> & ->) | (Hroom & q1 & Hp & -> & ->)]; cbn.
  - by right.
  - left. split; [done |]. eexists. split; [reflexivity |].
    unfold Pipeline.checkpoint.
    match goal with
    | |- context [Pipeline.microtasks _ _ _ _ _ _ _ _ ?fuel ?s] =>
        destruct (microtasks_admitted fuel s) as [-> ->]
    end.
    match goal with
    | |- context [Pipeline.launch _ _ _ _ ?before ?s] =>
        destruct (PipelineFacts.launch_fields basename extname toLowerCase
                    spawn_throws before s) as (-> & _ & ->)
    end.
    cbn. split; [done |].
    pose proof (QueueFacts.processQueue_admitted cfg
                  (Queue.push (Queue.unit_of_work
                                 (length (Queue.admitted (queue_state st))))
                     (queue_state st))) as Ha.
    by rewrite Hp in Ha.
Qed.

Lemma get_inherited key :
  get SCRIPTS_MAP key = Inherited ->
  SCRIPTS_MAP !! key = None /\ key ∈ Runner.object_prototype_keys.
Proof.
  unfold get. destruct (SCRIPTS_MAP !! key); [done |].
  by case_bool_decide.
Qed.

Lemma get_own key value :
  get SCRIPTS_MAP key = Own value -> SCRIPTS_MAP !! key = Some value.
Proof.
  unfold get. destruct (SCRIPTS_MAP !! key); [congruence |].
  by case_bool_decide.
Qed.

(** What [POST /run] answers, and what it does to the server.  In every
    state the server can reach, the answer is 202 exactly for a request
    with the right key, a folder and a file name that are not empty, a
    folder that is an own key of the script map with a path that is not
    empty, and a pending sequence with room; the closure admitted is then
    the one built from the request, behind those admitted before.  Any
    other request leaves the server as it was: 401 for a wrong or missing
    key, 400 for a missing field or a folder without script, 429 when the
    pending sequence is at [MAX_QUEUE_SIZE], and 500 for a folder that is
    not in the map but names a property of [Object.prototype]. *)
Theorem post_run_admission earlier evs st key folder filename metadata jobId :
  run evs (init earlier) = Some st ->
  let answer := post_run key folder filename metadata jobId st in
  (status (fst answer) = 202 /\
   key = Some (API_KEY MONITOR_API_KEY) /\
   Z.of_nat (length (Queue.queue (queue_state st)))
     < Queue.MAX_QUEUE_SIZE cfg /\
   exists f n p,
     folder = Some f /\ filename = Some n /\ f <> "" /\ n <> "" /\
     SCRIPTS_MAP !! f = Some p /\ p <> "" /\
     closures (snd answer) =
       closures st ++ [Jobs.automation_job f n metadata (absolute p) jobId] /\
     Queue.admitted (queue_state (snd answer)) =
       Queue.admitted (queue_state st) ++
       [Queue.unit_of_work (length (Queue.admitted (queue_state st)))]) \/
  (snd answer = st /\
   ((status (fst answer) = 401 /\ key <> Some (API_KEY MONITOR_API_KEY)) \/
    (status (fst answer) = 400 /\
     (blank folder = true \/ blank filename = true \/
      exists f, folder = Some f /\
                (SCRIPTS_MAP !! f = Some "" \/
                 SCRIPTS_MAP !! f = None /\
                 f ∉ Runner.object_prototype_keys))) \/
    (status (fst answer) = 500 /\
     exists f, folder = Some f /\ SCRIPTS_MAP !! f = None /\
               f ∈ Runner.object_prototype_keys) \/
    (status (fst answer) = 429 /\
     Queue.MAX_QUEUE_SIZE cfg
       <= Z.of_nat (length (Queue.queue (queue_state st)))))).
Proof.
  intros Hrun answer. subst answer.
  destruct (PipelineFacts.run_linked basename extname toLowerCase spawn_throws cfg uuid
              clock wrote evs _ st
              (PipelineFacts.init_linked cfg earlier) Hrun) as [Hl _].
  unfold Handlers.post_run, validateApiKey.
  case_bool_decide as Hkey; [| right; split; [done |]; by left].
  destruct (blank folder || blank filename) eqn:Hblank.
  { right. split; [done |]. right. left. split; [done |].
    apply orb_true_iff in Hblank as [Hb | Hb]; auto. }
  apply orb_false_iff in Hblank as [Hf Hn].
  destruct folder as [f |]; [| done]. destruct filename as [n |]; [| done].
  cbn in Hf, Hn. apply bool_decide_eq_false in Hf, Hn.
  change (default "" (Some f)) with f. change (default "" (Some n)) with n.
  destruct (get SCRIPTS_MAP f) as [| p |] eqn:Hget.
  - right. split; [done |]. right. left. split; [done |].
    right. right. exists f. split; [done |]. right.
    unfold get in Hget. destruct (SCRIPTS_MAP !! f); [done |].
    by case_bool_decide.
  - apply get_own in Hget. case_bool_decide as Hp.
    { right. split; [done |]. right. left. split; [done |].
      right. right. exists f. split; [done |]. left. by rewrite Hget, Hp. }
    destruct (submit_spec
                (Jobs.automation_job f n metadata (absolute p) jobId) st Hl)
      as [(Hroom & st' & -> & Hc & Ha) | (Hfull & ->)]; cbn.
    + left. split; [done |]. split; [done |]. split; [done |].
      by exists f, n, p.
    + right. split; [done |]. right. right. right. by split.
  - apply get_inherited in Hget as [Hnone Hin].
    right. split; [done |]. right. right. left. split; [done |]. by exists f.
Qed.

(** What [POST /api/process-folder] answers.  No key is asked for.  In
    every state the server can reach, the answer is 200 exactly for a
    client that is an own key of the script map with a path that is not
    empty, when the pending sequence has room; the closure admitted runs
    the script of the client with the single argument [--watch] and writes
    no history.  Any other request leaves the server as it was: 400 for a
    missing client or one without script, 429 at [MAX_QUEUE_SIZE], and 500
    for a client that is not in the map but names a property of
    [Object.prototype]. *)
Theorem processFolder_admission earlier evs st client jobId :
  run evs (init earlier) = Some st ->
  let answer := processFolder client jobId st in
  (status (fst answer) = 200 /\
   Z.of_nat (length (Queue.queue (queue_state st)))
     < Queue.MAX_QUEUE_SIZE cfg /\
   exists c p,
     client = Some c /\ c <> "" /\ SCRIPTS_MAP !! c = Some p /\ p <> "" /\
     closures (snd answer) =
       closures st ++ [{| Jobs.absolutePath := absolute p;
                          Jobs.args := ["--watch"];
                          Jobs.jobId := jobId;
                          Jobs.reports := None |}] /\
     Queue.admitted (queue_state (snd answer)) =
       Queue.admitted (queue_state st) ++
       [Queue.unit_of_work (length (Queue.admitted (queue_state st)))]) \/
  (snd answer = st /\
   ((status (fst answer) = 400 /\
     (blank client = true \/
      exists c, client = Some c /\
                (SCRIPTS_MAP !! c = Some "" \/
                 SCRIPTS_MAP !! c = None /\
                 c ∉ Runner.object_prototype_keys))) \/
    (status (fst answer) = 500 /\
     exists c, client = Some c /\ SCRIPTS_MAP !! c = None /\
               c ∈ Runner.object_prototype_keys) \/
    (status (fst answer) = 429 /\
     Queue.MAX_QUEUE_SIZE cfg
       <= Z.of_nat (length (Queue.queue (queue_state st)))))).
Proof.
  intros Hrun answer. subst answer.
  destruct (PipelineFacts.run_linked basename extname toLowerCase spawn_throws cfg uuid
              clock wrote evs _ st
              (PipelineFacts.init_linked cfg earlier) Hrun) as [Hl _].
  unfold Handlers.processFolder. cbv zeta.
  destruct (blank client) eqn:Hblank.
  { right. split; [done |]. left. split; [done |]. by left. }
  destruct client as [c |]; [| done].
  cbn in Hblank. apply bool_decide_eq_false in Hblank.
  change (default "" (Some c)) with c.
  destruct (get SCRIPTS_MAP c) as [| p |] eqn:Hget.
  - right. split; [done |]. left. split; [done |].
    right. exists c. split; [done |]. right.
    unfold get in Hget. destruct (SCRIPTS_MAP !! c); [done |].
    by case_bool_decide.
  - apply get_own in Hget. case_bool_decide as Hp.
    { right. split; [done |]. left. split; [done |].
      right. exists c. split; [done |]. left. by rewrite Hget, Hp. }
    destruct (submit_spec (Jobs.folder_job (absolute p) jobId) st Hl)
      as [(Hroom & st' & -> & Hc & Ha) | (Hfull & ->)]; cbn.
    + left. split; [done |]. split; [done |]. by exists c, p.
    + right. split; [done |]. right. right. by split.
  - apply get_inherited in Hget as [Hnone Hin].
    right. split; [done |]. right. left. split; [done |]. by exists c.
Qed.

End Handlers.

(** The executor as configured, with a script for one folder. *)
Lemma post_run_admission_witness :
  let scripts : gmap string string := {[ "acme" := "scripts/acme.py" ]} in
  let post :=
    Handlers.post_run None scripts (fun _ => false)
      (fun p => "/srv/monitor/" +:+ p) "The path argument must be of type string"
      PosixPath.basename PosixPath.extname PosixPath.toLowerCase
      ChildProcess.spawn_throws
      Queue.executor_config (fun _ => "uuid") (fun _ => "t1")
      (fun _ => History.Written) in
  status (fst (post (Some "12345") (Some "acme") (Some "a.pdf") "{}" "job-a"
                 (init (History.boot "t0")))) = 202 /\
  status (fst (post (Some "12345") (Some "constructor") (Some "a.pdf") "{}"
                 "job-a" (init (History.boot "t0")))) = 500 /\
  status (fst (post None (Some "acme") (Some "a.pdf") "{}" "job-a"
                 (init (History.boot "t0")))) = 401 /\
  closures (snd (post (Some "12345") (Some "acme") (Some "a.pdf") "{}" "job-a"
                   (init (History.boot "t0")))) =
    [Jobs.automation_job "acme" "a.pdf" "{}" "/srv/monitor/scripts/acme.py"
       "job-a"].
Proof.
  intros scripts post.
  split; [by vm_compute |]. split; [by vm_compute |]. split; [by vm_compute |].
  destruct (post_run_admission None scripts (fun _ => false)
              (fun p => "/srv/monitor/" +:+ p)
              "The path argument must be of type string"
              PosixPath.basename PosixPath.extname PosixPath.toLowerCase
              ChildProcess.spawn_throws
              Queue.executor_config (fun _ => "uuid") (fun _ => "t1")
              (fun _ => History.Written) (History.boot "t0") [] (init (History.boot "t0")) (Some "12345") (Some "acme")
              (Some "a.pdf") "{}" "job-a" eq_refl)
    as [(_ & _ & _ & f & n & p & Hf & Hn & _ & _ & Hp & _ & Hc & _) |
        [_ [[H _] | [[H _] | [[H _] | [H _]]]]]];
    [| by vm_compute in H ..].
  injection Hf as <-. injection Hn as <-.
  assert (p = "scripts/acme.py") as -> by (vm_compute in Hp; congruence).
  exact Hc.
Defined.

(** A client called [toString] is answered 500, a client with a script
    is queued. *)
Lemma processFolder_admission_witness :
  let scripts : gmap string string := {[ "acme" := "scripts/acme.py" ]} in
  let process :=
    Handlers.processFolder scripts (fun _ => false)
      (fun p => "/srv/monitor/" +:+ p) "The path argument must be of type string"
      PosixPath.basename PosixPath.extname PosixPath.toLowerCase
      ChildProcess.spawn_throws
      Queue.executor_config (fun _ => "uuid") (fun _ => "t1")
      (fun _ => History.Written) in
  status (fst (process (Some "acme") "job-a" (init (History.boot "t0")))) = 200 /\
  status (fst (process (Some "toString") "job-a" (init (History.boot "t0")))) = 500 /\
  status (fst (process None "job-a" (init (History.boot "t0")))) = 400 /\
  Jobs.args <$> closures (snd (process (Some "acme") "job-a" (init (History.boot "t0")))) =
    [["--watch"]].
Proof.
  intros scripts process.
  split; [by vm_compute |]. split; [by vm_compute |]. split; [by vm_compute |].
  destruct (processFolder_admission scripts (fun _ => false)
              (fun p => "/srv/monitor/" +:+ p)
              "The path argument must be of type string"
              PosixPath.basename PosixPath.extname PosixPath.toLowerCase
              ChildProcess.spawn_throws
              Queue.executor_config (fun _ => "uuid") (fun _ => "t1")
              (fun _ => History.Written) (History.boot "t0") [] (init (History.boot "t0")) (Some "acme") "job-a"
              eq_refl)
    as [(_ & _ & c & p & _ & _ & _ & _ & Hc & _) |
        [_ [[H _] | [[H _] | [H _]]]]];
    [| by vm_compute in H ..].
  unfold process. by rewrite Hc.
Defined.

End HandlerFacts.

(** * The pages in the browser *)

Module APIFacts.

Import Text API.

Lemma split_plain sep text :
  contains sep text = false -> split sep text = [text].
Proof.
  induction text as [| c rest IH]; cbn; [done |].
  intros Hc. apply orb_false_iff in Hc as [Hne Hrest].
  rewrite Hne, (IH Hrest). done.
Qed.

Lemma split_at sep piece rest :
  contains sep piece = false ->
  split sep (piece +:+ String sep rest) = piece :: split sep rest.
Proof.
  induction piece as [| c piece IH]; intros Hc.
  - change ("" +:+ String sep rest) with (String sep rest). cbn.
    by rewrite Ascii.eqb_refl.
  - cbn in Hc. apply orb_false_iff in Hc as [Hne Hrest].
    rewrite RunnerFacts.append_cons. cbn. by rewrite Hne, (IH Hrest).
Qed.

Lemma append_dash_not_empty (s1 s2 : string) : s1 +:+ String "-" s2 <> "".
Proof.
  destruct s1; [done |]. by rewrite RunnerFacts.append_cons.
Qed.

(** The day the page asks for is the day the server reads: for a date
    [year-month-day] as a date field gives it, whose three parts have no
    dash, the page sends [day-month-year], and the server, which takes
    the first three pieces between dashes as day, month and year, gets
    the three parts back, each in its place.  What the page sends is
    never empty, so the server always filters by day: for a date field
    left empty, or any text without a dash, the page sends
    [undefined-undefined-] followed by that text. *)
Theorem page_date_reaches_server date :
  formattedDate date <> "" /\
  (contains "-" date = false ->
   formattedDate date = "undefined-undefined-" +:+ date) /\
  (forall year month day,
     contains "-" year = false ->
     contains "-" month = false ->
     contains "-" day = false ->
     date = year +:+ "-" +:+ month +:+ "-" +:+ day ->
     formattedDate date = day +:+ "-" +:+ month +:+ "-" +:+ year /\
     requested_day (formattedDate date) =
       {| API.day := Some day; API.month := Some month;
          API.year := Some year |}).
Proof.
  split; [| split].
  - unfold formattedDate. apply append_dash_not_empty.
  - intros Hplain. unfold formattedDate.
    by rewrite (split_plain "-" date Hplain).
  - intros year month day Hy Hm Hd ->.
    assert (Hsent : formattedDate (year +:+ "-" +:+ month +:+ "-" +:+ day) =
                    day +:+ "-" +:+ month +:+ "-" +:+ year).
    { unfold formattedDate.
      change ("-" +:+ month +:+ "-" +:+ day)
        with (String "-" (month +:+ "-" +:+ day)).
      rewrite (split_at "-" year _ Hy).
      change ("-" +:+ day) with (String "-" day).
      rewrite (split_at "-" month _ Hm), (split_plain "-" day Hd). done. }
    split; [exact Hsent |]. rewrite Hsent. unfold requested_day.
    change ("-" +:+ month +:+ "-" +:+ year)
      with (String "-" (month +:+ "-" +:+ year)).
    rewrite (split_at "-" day _ Hd).
    change ("-" +:+ year) with (String "-" year).
    rewrite (split_at "-" month _ Hm), (split_plain "-" year Hy). done.
Qed.

Lemma page_date_reaches_server_witness :
  formattedDate "2025-11-25" = "25-11-2025" /\
  requested_day (formattedDate "2025-11-25") =
    {| API.day := Some "25"; API.month := Some "11"; API.year := Some "2025" |} /\
  formattedDate "" = "undefined-undefined-".
Proof.
  destruct (page_date_reaches_server "2025-11-25") as (_ & _ & Hdate).
  destruct (page_date_reaches_server "") as (_ & Hempty & _).
  destruct (Hdate "2025" "11" "25" eq_refl eq_refl eq_refl eq_refl)
    as [Hsent Hread].
  split; [exact Hsent |]. split; [exact Hread |]. exact (Hempty eq_refl).
Defined.

End APIFacts.

Module MonitorFacts.

Import Monitor.

Local Open Scope Z_scope.

Section AddFiles.

Variable toLowerCase : string -> string.

Local Abbreviation extension := (Monitor.extension toLowerCase).
Local Abbreviation refusal := (Monitor.refusal toLowerCase).
Local Abbreviation addFiles := (Monitor.addFiles toLowerCase).

(** The extension the page asks of the files of a client. *)
Lemma refusal_None selectedClient queued f :
  refusal selectedClient queued f = None ->
  size f <= maxSize /\
  extension f = (if bool_decide (selectedClient = Some "airliquide_portugal")
                 then "txt" else "pdf") /\
  name f ∉ name <$> queued.
Proof.
  unfold Monitor.refusal.
  destruct (size f >? maxSize) eqn:Hsize; [done |].
  destruct (bool_decide (selectedClient = Some "airliquide_portugal"));
    cbn [andb negb].
  - case_bool_decide as Hext; [| done]. cbn [negb].
    case_bool_decide as Hdup; [done |]. intros _. split; [lia | done].
  - case_bool_decide as Hext; [| done]. cbn [negb].
    case_bool_decide as Hdup; [done |]. intros _. split; [lia | done].
Qed.

(** What [addFiles] does to the list of the page.  The files already
    listed stay where they are and the files accepted come after them, in
    the order in which they were offered; each of them is at most 10 MB,
    has the extension of the client and a name that is not listed yet, so
    that names stay distinct; the list never passes ten files; every file
    offered is either accepted or answered by a toast, unless the list is
    full, in which case the call stops at the first file it cannot take,
    with ten files listed and without drawing the list again. *)
Theorem addFiles_keeps_list_valid selectedClient newFiles queued shown :
  NoDup (name <$> queued) ->
  (length queued <= 10)%nat ->
  let out := addFiles selectedClient newFiles queued shown in
  exists added answered,
    files out = queued ++ added /\
    toasts out = shown ++ answered /\
    sublist added newFiles /\
    NoDup (name <$> files out) /\
    (length (files out) <= 10)%nat /\
    Forall (fun f =>
              size f <= maxSize /\
              extension f =
                (if bool_decide (selectedClient = Some "airliquide_portugal")
                 then "txt" else "pdf")) added /\
    (length added + length answered <= length newFiles)%nat /\
    (rendered out = true ->
     (length added + length answered = length newFiles)%nat) /\
    (rendered out = false -> length (files out) = 10%nat).
Proof.
  revert queued shown.
  induction newFiles as [| f rest IH]; intros queued shown Hnd Hlen; cbn.
  - exists [], []. rewrite !app_nil_r. repeat split; done.
  - destruct (10 <=? Z.of_nat (length queued)) eqn:Hfull; cbn.
    + apply Z.leb_le in Hfull.
      exists [], ["Máximo 10 archivos por sesión"]. rewrite app_nil_r.
      repeat split; try done.
      * apply sublist_nil_l.
      * cbn. lia.
      * lia.
    + apply Z.leb_gt in Hfull.
      destruct (refusal selectedClient queued f) as [toast |] eqn:Hr.
      * destruct (IH queued (shown ++ [toast]) Hnd Hlen)
          as (added & answered & Hf & Ht & Hsub & Hnd' & Hlen' & Hall &
              Hcount & Hdone & Hstop).
        exists added, (toast :: answered).
        split; [done |]. split; [by rewrite Ht, <- app_assoc |].
        split; [by apply sublist_cons |]. split; [done |]. split; [done |].
        split; [done |]. cbn. split; [lia |]. split; [| done].
        intros Hren. specialize (Hdone Hren). lia.
      * destruct (refusal_None _ _ _ Hr) as (Hsize & Hext & Hnew).
        assert (Hnd1 : NoDup (name <$> queued ++ [f])).
        { rewrite fmap_app. apply NoDup_app. split; [done |].
          split; [| apply NoDup_singleton].
          intros x Hx Hin. cbn in Hin. apply list_elem_of_singleton in Hin.
          by subst x. }
        assert (Hlen1 : (length (queued ++ [f]) <= 10)%nat).
        { rewrite length_app. cbn. lia. }
        destruct (IH (queued ++ [f]) shown Hnd1 Hlen1)
          as (added & answered & Hf & Ht & Hsub & Hnd' & Hlen' & Hall &
              Hcount & Hdone & Hstop).
        exists (f :: added), answered.
        split; [by rewrite Hf, <- app_assoc |]. split; [done |].
        split; [by apply sublist_skip |]. split; [done |]. split; [done |].
        split; [by constructor |]. cbn. split; [lia |]. split; [| done].
        intros Hren. specialize (Hdone Hren). lia.
Qed.

End AddFiles.

(** Nine files listed, and three offered: one of the wrong kind, one that
    fits, and one too many. *)
Lemma addFiles_keeps_list_valid_witness :
  let listed :=
    (fun n => {| name := String (ascii_of_nat (97 + n)) ".pdf"; size := 1000 |})
      <$> seq 0 9 in
  let offered := [ {| name := "notes.txt"; size := 10 |};
                   {| name := "Invoice.PDF"; size := 2048 |};
                   {| name := "late.pdf"; size := 1 |} ] in
  let out := Monitor.addFiles PosixPath.toLowerCase (Some "nipongases")
               offered listed [] in
  length (files out) = 10%nat /\
  toasts out = ["Solo se permiten archivos PDF";
                "Máximo 10 archivos por sesión"] /\
  rendered out = false /\
  NoDup (name <$> files out).
Proof.
  intros listed offered out.
  destruct (addFiles_keeps_list_valid PosixPath.toLowerCase
              (Some "nipongases") offered listed [])
    as (added & answered & _ & _ & _ & Hnd & _ & _ & _ & _ & Hstop).
  - apply (bool_decide_unpack _). by vm_compute.
  - vm_compute. lia.
  - split; [exact (Hstop eq_refl) |]. split; [by vm_compute |].
    split; [by vm_compute | exact Hnd].
Defined.

End MonitorFacts.

Module HistorialFacts.

Import Historial.

Local Open Scope Z_scope.

Lemma length_omap_filter {A B} (f : A -> option B) (l : list A) :
  length (omap f l) = length (filter (fun x => is_Some (f x)) l).
Proof.
  induction l as [| x l IH]; [done |]. rewrite filter_cons.
  change (omap f (x :: l))
    with (match f x with Some y => y :: omap f l | None => omap f l end).
  destruct (f x) as [y |] eqn:Hx.
  - rewrite decide_True by done. cbn [length]. by rewrite IH.
  - rewrite decide_False by (by intros [? ?]). exact IH.
Qed.

(** The pages that the loop draws something for are among nine. *)
Lemma numbered_window currentPage totalPages i :
  is_Some (numbered currentPage totalPages i) ->
  i ∈ [1; totalPages; currentPage - 3; currentPage - 2; currentPage - 1;
       currentPage; currentPage + 1; currentPage + 2; currentPage + 3].
Proof.
  unfold numbered. intros Hsome.
  assert (Hcase : i = 1 \/ i = totalPages \/ i = currentPage - 3 \/
                  i = currentPage - 2 \/ i = currentPage - 1 \/
                  i = currentPage \/ i = currentPage + 1 \/
                  i = currentPage + 2 \/ i = currentPage + 3).
  { case_bool_decide as Hshown; [lia |].
    case_bool_decide as Hdots; [lia |]. by destruct Hsome. }
  rewrite !elem_of_cons. lia.
Qed.

Lemma length_numbered currentPage totalPages :
  (length (omap (numbered currentPage totalPages) (seqZ 1 totalPages)) <= 9)%nat.
Proof.
  rewrite length_omap_filter.
  set (K := [1; totalPages; currentPage - 3; currentPage - 2; currentPage - 1;
             currentPage; currentPage + 1; currentPage + 2; currentPage + 3]).
  change 9%nat with (length K).
  apply submseteq_length, NoDup_submseteq.
  - apply NoDup_filter, NoDup_seqZ.
  - intros i Hi. apply list_elem_of_filter in Hi as [Hsome _].
    by apply numbered_window.
Qed.

Lemma no_active currentPage totalPages (l : list Z) :
  currentPage ∉ l ->
  filter (fun e => is_active e = true)
    (omap (numbered currentPage totalPages) l) = [].
Proof.
  induction l as [| i l IH]; [done |]. intros Hnot.
  apply not_elem_of_cons in Hnot as [Hne Hnot].
  change (omap (numbered currentPage totalPages) (i :: l))
    with (match numbered currentPage totalPages i with
          | Some e => e :: omap (numbered currentPage totalPages) l
          | None => omap (numbered currentPage totalPages) l
          end).
  unfold numbered at 1. case_bool_decide as Hshown.
  - rewrite filter_cons, decide_False; [by apply IH |].
    cbn. rewrite bool_decide_eq_false_2 by congruence. done.
  - case_bool_decide as Hdots; [| by apply IH].
    rewrite filter_cons, decide_False by done. by apply IH.
Qed.

(** The bar of pages.  Whatever the number of pages, it has at most
    eleven elements.  A numbered button is drawn exactly for the first
    page, the last page and the pages within two of the current one, and
    it is marked active exactly when it is the current page.  When the
    current page is one of the pages, every button leads to one of the
    pages, and exactly one button is active. *)
Theorem pagination_bar currentPage totalPages :
  let bar := renderPagination currentPage totalPages in
  (length bar <= 11)%nat /\
  (forall i active,
     Numbered i active ∈ bar <->
     2 <= totalPages /\ 1 <= i <= totalPages /\
     (i = 1 \/ i = totalPages \/
      (currentPage - 2 <= i /\ i <= currentPage + 2)) /\
     active = bool_decide (i = currentPage)) /\
  (1 <= currentPage <= totalPages ->
   forall e page, e ∈ bar -> target e = Some page ->
     1 <= page <= totalPages) /\
  (2 <= totalPages -> 1 <= currentPage <= totalPages ->
   filter (fun e => is_active e = true) bar = [Numbered currentPage true]).
Proof.
  intros bar. subst bar. unfold renderPagination.
  destruct (totalPages <=? 1) eqn:Hfew.
  { apply Z.leb_le in Hfew. split; [cbn; lia |]. split; [| split].
    - intros i active. split; [by intros Hin%elem_of_nil | lia].
    - by intros _ e page Hin%elem_of_nil.
    - lia. }
  apply Z.leb_gt in Hfew. split; [| split; [| split]].
  - rewrite !length_app.
    pose proof (length_numbered currentPage totalPages).
    destruct (currentPage >? 1), (currentPage <? totalPages); cbn; lia.
  - intros i active. rewrite !elem_of_app, list_elem_of_omap. split.
    + intros [Hin | [(j & Hj & Hnum) | Hin]].
      * destruct (currentPage >? 1); [| by apply elem_of_nil in Hin].
        by apply list_elem_of_singleton in Hin.
      * apply elem_of_seqZ in Hj. unfold numbered in Hnum.
        case_bool_decide as Hshown; [| by case_bool_decide].
        injection Hnum as <- <-.
        split; [lia |]. split; [lia |]. by split.
      * destruct (currentPage <? totalPages); [| by apply elem_of_nil in Hin].
        by apply list_elem_of_singleton in Hin.
    + intros (_ & Hi & Hshown & ->). right. left. exists i.
      split; [apply elem_of_seqZ; lia |].
      unfold numbered. by rewrite bool_decide_eq_true_2.
  - intros Hcur e page. rewrite !elem_of_app, list_elem_of_omap.
    intros [Hin | [(j & Hj & Hnum) | Hin]] Htarget.
    + destruct (currentPage >? 1) eqn:Hgt; [| by apply elem_of_nil in Hin].
      apply list_elem_of_singleton in Hin as ->. cbn in Htarget.
      injection Htarget as <-. lia.
    + apply elem_of_seqZ in Hj. unfold numbered in Hnum.
      case_bool_decide as Hshown.
      * injection Hnum as <-. cbn in Htarget. injection Htarget as <-. lia.
      * case_bool_decide as Hdots; [| done].
        injection Hnum as <-. done.
    + destruct (currentPage <? totalPages) eqn:Hlt;
        [| by apply elem_of_nil in Hin].
      apply list_elem_of_singleton in Hin as ->. cbn in Htarget.
      injection Htarget as <-. lia.
  - intros _ Hcur. rewrite !filter_app.
    assert (Hprev : filter (fun e => is_active e = true)
                      (if currentPage >? 1
                       then [Previous (currentPage - 1)] else []) = []).
    { by destruct (currentPage >? 1). }
    assert (Hnext : filter (fun e => is_active e = true)
                      (if currentPage <? totalPages
                       then [Next (currentPage + 1)] else []) = []).
    { by destruct (currentPage <? totalPages). }
    rewrite Hprev, Hnext, app_nil_r. cbn [app].
    assert (Hsplit : seqZ 1 totalPages =
                     seqZ 1 (currentPage - 1) ++ [currentPage] ++
                     seqZ (currentPage + 1) (totalPages - currentPage)).
    { replace totalPages
        with ((currentPage - 1) + (1 + (totalPages - currentPage)))
        at 1 by lia.
      rewrite seqZ_app by lia. rewrite (seqZ_app _ 1) by lia.
      replace (1 + (currentPage - 1)) with currentPage by lia.
      rewrite (seqZ_cons currentPage 1) by lia.
      by rewrite (seqZ_nil _ (Z.pred 1)) by lia. }
    rewrite Hsplit, !omap_app, !filter_app.
    rewrite no_active by (rewrite elem_of_seqZ; lia).
    rewrite (no_active _ _ (seqZ _ (totalPages - currentPage)))
      by (rewrite elem_of_seqZ; lia).
    rewrite app_nil_r. cbn [app].
    change (omap (numbered currentPage totalPages) [currentPage])
      with (match numbered currentPage totalPages currentPage with
            | Some e => [e]
            | None => []
            end).
    unfold numbered.
    rewrite bool_decide_eq_true_2 by lia.
    rewrite filter_cons, decide_True; [| cbn; by rewrite bool_decide_eq_true_2].
    by rewrite bool_decide_eq_true_2.
Qed.

(** Page 10 of 40. *)
Lemma pagination_bar_witness :
  renderPagination 10 40 =
    [Previous 9; Numbered 1 false; Ellipsis; Numbered 8 false;
     Numbered 9 false; Numbered 10 true; Numbered 11 false;
     Numbered 12 false; Ellipsis; Numbered 40 false; Next 11] /\
  filter (fun e => is_active e = true) (renderPagination 10 40)
    = [Numbered 10 true].
Proof.
  split; [by vm_compute |].
  destruct (pagination_bar 10 40) as (_ & _ & _ & Hactive).
  apply Hactive; lia.
Defined.

End HistorialFacts.

